(** * claude_skill_sync: a shallow embedding and its verified properties

    The script [skills/claude-skill-sync/scripts/claude_skill_sync.py] copies
    "skill" directories (directories holding a [SKILL.md] marker) from source
    roots into one destination root.  This development embeds the script's
    functions over an explicit model of the file system and of the console,
    and proves the properties the specification states about them.

    Modelling conventions:
    - a path is the list of its segments below the file-system root, already
      expanded and absolute ([Path(...).expanduser()] has been applied);
    - the file system is a finite map from paths to nodes (regular files with
      their bytes, or directories); symbolic links are not modelled;
    - text is byte strings; [str.lower] and [str.strip] act on the ASCII
      range;
    - a library call that raises is an [OSError] outcome; the store a raising
      primitive leaves behind is the store it was called on. *)

From Stdlib Require Import Ascii.
From stdpp Require Import gmap strings list fin_maps sorting pretty.

(** ** Paths *)

Abbreviation path := (list string).

(** [PurePath.name]: the final segment, or the empty string for the root. *)
Definition name (p : path) : string := default "" (last p).

(** [PurePath.parent]. *)
Definition parent (p : path) : path := take (length p - 1) p.

(** [dest_root / name]: joining the empty string gives the path back. *)
Definition joinpath (p : path) (n : string) : path :=
  if decide (n = "") then p else p ++ [n].

(** [PurePath.relative_to]: the segments of [p] below [root], when [p] is
    [root] or lies under it. *)
Fixpoint relative_to (root p : path) : option path :=
  match root, p with
  | [], _ => Some p
  | _ :: _, [] => None
  | a :: root', b :: p' => if decide (a = b) then relative_to root' p' else None
  end.

(** [str.startswith]. *)
Fixpoint startswith (pre s : string) : bool :=
  match pre, s with
  | "", _ => true
  | String _ _, "" => false
  | String a pre', String b s' =>
      if decide (a = b) then startswith pre' s' else false
  end.

Definition hidden (part : string) : bool := startswith "." part.

(** The order [sorted] uses on [Path] objects: the segment tuples compared
    lexicographically, each segment by its code units. *)
Fixpoint path_leb (p q : path) : bool :=
  match p, q with
  | [], _ => true
  | _ :: _, [] => false
  | a :: p', b :: q' =>
      if decide (a = b) then path_leb p' q' else bool_decide (String.le a b)
  end.

Definition path_le : relation path := λ p q, path_leb p q.

Global Instance path_le_dec : RelDecision path_le.
Proof. intros p q. unfold path_le. apply _. Defined.

(** [str(path)]. *)
Definition show_path (p : path) : string :=
  match p with
  | [] => "/"
  | _ => foldr (λ seg acc, "/" +:+ seg +:+ acc) "" p
  end.

(** ** File system *)

Inductive node :=
  | File (data : string)
  | Dir.

Global Instance node_eq_dec : EqDecision node.
Proof. solve_decision. Defined.

Abbreviation tree := (gmap (list string) node).

Definition exists_ (fs : tree) (p : path) : bool :=
  bool_decide (is_Some (fs !! p)).

Definition is_dir (fs : tree) (p : path) : bool :=
  bool_decide (fs !! p = Some Dir).

Definition is_file (fs : tree) (p : path) : bool :=
  match fs !! p with Some (File _) => true | _ => false end.

(** A store is well formed when every entry has a name and sits in a
    directory. *)
Definition wf (fs : tree) : Prop :=
  ∀ p n, is_Some (fs !! (p ++ [n])) → n ≠ "" ∧ fs !! p = Some Dir.

Definition is_child (root p : path) : bool :=
  match relative_to root p with Some [ _ ] => true | _ => false end.

(** [Path.iterdir]: the entries of a directory, in the order the operating
    system hands them out; raises on anything but a directory. *)
Definition iterdir (fs : tree) (root : path) : option (list path) :=
  if is_dir fs root
  then Some (filter (λ p, is_child root p) (map_to_list fs).*1)
  else None.

Definition matches_below (root : path) (pattern : string) (p : path) : bool :=
  match relative_to root p with
  | Some rel => bool_decide (last rel = Some pattern)
  | None => false
  end.

(** [Path.rglob] with a literal pattern: every existing path at any depth
    below [root] whose final segment is the pattern, whatever its kind;
    nothing when [root] is not a directory. *)
Definition rglob (fs : tree) (root : path) (pattern : string) : list path :=
  if is_dir fs root
  then filter (λ p, matches_below root pattern p) (map_to_list fs).*1
  else [].

(** [sorted] on a list of paths. *)
Definition sorted (l : list path) : list path := merge_sort path_le l.

(** The part of the store below [src], keyed by relative path. *)
Definition subtree (fs : tree) (src : path) : tree :=
  list_to_map
    (omap (λ kv : path * node, (λ rel, (rel, kv.2)) <$> relative_to src kv.1)
          (map_to_list fs)).

(** All initial segments of a path, the path itself included. *)
Fixpoint prefixes (p : path) : list path :=
  match p with
  | [] => [[]]
  | a :: p' => [] :: ((a ::.) <$> prefixes p')
  end.

(** [os.makedirs] / [Path.mkdir(parents=True)]: creates the missing
    directories down to [p]; raises when an ancestor is a regular file. *)
Definition makedirs (fs : tree) (p : path) : option tree :=
  if bool_decide (Exists (λ q, is_file fs q = true) (prefixes p)) then None
  else Some (fs ∪ list_to_map ((λ q, (q, Dir)) <$> prefixes p)).

(** [shutil.rmtree]: removes a directory with everything below it; raises
    when the path is not a directory. *)
Definition rmtree (fs : tree) (p : path) : option tree :=
  if is_dir fs p
  then Some (filter (λ kv, relative_to p kv.1 = None) fs)
  else None.

(** [shutil.copytree src dst]: [src] must be a directory and [dst] must not
    exist; the missing ancestors of [dst] are created and the tree below
    [src] is reproduced below [dst].  A destination lying inside the source
    makes the library recurse into its own output until it raises. *)
Definition copytree (fs : tree) (src dst : path) : option tree :=
  if negb (is_dir fs src) then None
  else if exists_ fs dst then None
  else if bool_decide (is_Some (relative_to src dst)) then None
  else
    match makedirs fs dst with
    | Some fs' => Some ((kmap (dst ++.) (subtree fs src) : tree) ∪ fs')
    | None => None
    end.

(** ** Console and effects *)

Inductive event :=
  | Print (line : string)       (* a line on standard output *)
  | PrintErr (line : string)    (* a line on standard error *)
  | Prompt (text : string).     (* the prompt [input] writes *)

(** The state a run acts on: the store, the lines still waiting on standard
    input, and what has been written so far. *)
Record world := World {
  w_fs : tree;
  w_in : list string;
  w_out : list event;
}.

Inductive exn :=
  | RuntimeError (msg : string)
  | OSError.

Inductive outcome (A : Type) :=
  | Ret (a : A)
  | Raise (e : exn).
Arguments Ret {A} a.
Arguments Raise {A} e.

Definition M (A : Type) : Type := world → outcome A * world.

Definition ret {A} (a : A) : M A := λ w, (Ret a, w).

Definition bind {A B} (m : M A) (k : A → M B) : M B := λ w,
  match m w with
  | (Ret a, w') => k a w'
  | (Raise e, w') => (Raise e, w')
  end.

Definition raise {A} (e : exn) : M A := λ w, (Raise e, w).

Declare Scope M_scope.
Delimit Scope M_scope with M.
Bind Scope M_scope with M.
Notation "x ← y ; z" := (bind y (λ x, z)) : M_scope.
Notation "y ;; z" := (bind y (λ _, z)) : M_scope.

Definition emit (e : event) : M unit := λ w,
  (Ret (), World (w_fs w) (w_in w) (w_out w ++ [e])).

Definition print (line : string) : M unit := emit (Print line).
Definition print_err (line : string) : M unit := emit (PrintErr line).

(** A read-only query of the store. *)
Definition fs_read {A} (f : tree → A) : M A := λ w, (Ret (f (w_fs w)), w).

(** A query of the store that may raise. *)
Definition fs_try {A} (f : tree → option A) : M A := λ w,
  match f (w_fs w) with
  | Some a => (Ret a, w)
  | None => (Raise OSError, w)
  end.

(** A mutation of the store that may raise. *)
Definition fs_update (f : tree → option tree) : M unit := λ w,
  match f (w_fs w) with
  | Some fs' => (Ret (), World fs' (w_in w) (w_out w))
  | None => (Raise OSError, w)
  end.

(** [try: m except RuntimeError as exc: h(str(exc))]. *)
Definition try_except {A} (m : M A) (h : string → M A) : M A := λ w,
  match m w with
  | (Raise (RuntimeError msg), w') => h msg w'
  | r => r
  end.

(** ** Text helpers *)

Definition isspace (c : ascii) : bool :=
  match c with
  | "009" | "010" | "011" | "012" | "013"
  | "028" | "029" | "030" | "031" | " " => true
  | _ => false
  end%char.

Fixpoint lstrip (s : string) : string :=
  match s with
  | "" => ""
  | String c s' => if isspace c then lstrip s' else s
  end.

Definition strip (s : string) : string :=
  String.rev (lstrip (String.rev (lstrip s))).

Definition lower_char (c : ascii) : ascii :=
  let n := Ascii.N_of_ascii c in
  if ((65 <=? n) && (n <=? 90))%N then Ascii.ascii_of_N (n + 32) else c.

Fixpoint lower (s : string) : string :=
  match s with
  | "" => ""
  | String c s' => String (lower_char c) (lower s')
  end.

Definition upper_char (c : ascii) : ascii :=
  let n := Ascii.N_of_ascii c in
  if ((97 <=? n) && (n <=? 122))%N then Ascii.ascii_of_N (n - 32) else c.

Fixpoint upper (s : string) : string :=
  match s with
  | "" => ""
  | String c s' => String (upper_char c) (upper s')
  end.

Definition show_bool (b : bool) : string := if b then "True" else "False".

(** ** The script *)

Definition MARKER : string := "SKILL.md".

Inductive policy := PAsk | PSkip | POverwrite | PAbort.

Inductive action := Copy | Overwrite | Skip.

Inductive mode_t := ModeCopy | ModeSync.

Global Instance policy_eq_dec : EqDecision policy.
Proof. solve_decision. Defined.
Global Instance action_eq_dec : EqDecision action.
Proof. solve_decision. Defined.
Global Instance mode_eq_dec : EqDecision mode_t.
Proof. solve_decision. Defined.

Definition show_policy (p : policy) : string :=
  match p with
  | PAsk => "ask" | PSkip => "skip" | POverwrite => "overwrite"
  | PAbort => "abort"
  end.

Definition show_action (a : action) : string :=
  match a with Copy => "copy" | Overwrite => "overwrite" | Skip => "skip" end.

Definition show_mode (m : mode_t) : string :=
  match m with ModeCopy => "copy" | ModeSync => "sync" end.

(** *** [list_skill_dirs] *)

(** The body of the recursive branch's loop over the sorted marker paths. *)
Fixpoint scan_markers (root : path) (files : list path) : option (list path) :=
  match files with
  | [] => Some []
  | skill_file :: rest =>
      let skill_dir := parent skill_file in
      match relative_to root skill_dir with
      | None => None
      | Some relative_parts =>
          if existsb hidden relative_parts then scan_markers root rest
          else cons skill_dir <$> scan_markers root rest
      end
  end.

(** The body of the direct branch's loop over the sorted entries. *)
Fixpoint scan_entries (fs : tree) (entries : list path) : list path :=
  match entries with
  | [] => []
  | entry :: rest =>
      if hidden (name entry) then scan_entries fs rest
      else if is_dir fs entry && is_file fs (entry ++ [MARKER])
           then entry :: scan_entries fs rest
           else scan_entries fs rest
  end.

Definition list_skill_dirs (fs : tree) (root : path) (recursive : bool)
  : option (list path) :=
  if recursive then scan_markers root (sorted (rglob fs root MARKER))
  else
    match iterdir fs root with
    | None => None
    | Some entries => Some (scan_entries fs (sorted entries))
    end.

(** *** [resolve_conflict] *)

Definition conflict_prompt (dest_dir : path) : string :=
  "Conflict: " +:+ name dest_dir +:+ " exists at " +:+ show_path dest_dir
  +:+ ". Choose [o]verwrite, [s]kip, or [a]bort: ".

Definition NO_INPUT : string :=
  "No interactive input available. Re-run with --conflict overwrite|skip|abort.".

Definition CHOOSE_HINT : string := "Please choose 'o', 's', or 'a'.".

(** The [while True] loop of the interactive branch, over the lines still
    waiting on standard input.  Each turn writes the prompt and reads one
    line; an exhausted input is [EOFError].  The result is the decision, the
    lines left, and what the loop wrote. *)
Fixpoint prompt_loop (prompt : string) (lines : list string)
  : policy * list string * list event :=
  match lines with
  | [] => (PAbort, [], [Prompt prompt; PrintErr NO_INPUT])
  | line :: rest =>
      let response := lower (strip line) in
      if bool_decide (response ∈ ["o"; "overwrite"; "y"; "yes"])
      then (POverwrite, rest, [Prompt prompt])
      else if bool_decide (response ∈ ["s"; "skip"; ""; "n"; "no"])
      then (PSkip, rest, [Prompt prompt])
      else if bool_decide (response ∈ ["a"; "abort"; "q"; "quit"])
      then (PAbort, rest, [Prompt prompt])
      else
        let '(decision, rest', evs) := prompt_loop prompt rest in
        (decision, rest', Prompt prompt :: Print CHOOSE_HINT :: evs)
  end.

Definition resolve_conflict (dest_dir : path) (policy_ : policy)
    (dry_run : bool) : M policy :=
  if negb (bool_decide (policy_ = PAsk)) then ret policy_
  else if dry_run then
    (print ("DRY RUN: conflict for " +:+ name dest_dir
            +:+ "; defaulting to skip. "
            +:+ "Re-run with --conflict overwrite|skip|abort to preview a policy.");;
     ret PSkip)%M
  else λ w,
    let '(decision, rest, evs) := prompt_loop (conflict_prompt dest_dir) (w_in w) in
    (Ret decision, World (w_fs w) rest (w_out w ++ evs)).

(** *** [copy_skill] *)

(** The conflict block either returns early ([inl]) or falls through to the
    copy with the action it settled on ([inr]). *)
Definition copy_skill (src_dir dest_root : path) (conflict_policy : policy)
    (dry_run : bool) : M action :=
  let dest_dir := joinpath dest_root (name src_dir) in
  (present ← fs_read (λ fs, exists_ fs dest_dir);
   r ← (if present : bool then
          decision ← resolve_conflict dest_dir conflict_policy dry_run;
          match decision with
          | PSkip => ret (inl Skip)
          | PAbort => raise (RuntimeError "Aborted on conflict.")
          | POverwrite =>
              (if dry_run then ret ()
               else fs_update (λ fs, rmtree fs dest_dir));;
              ret (inr Overwrite)
          | PAsk => ret (inr Copy)
          end
        else ret (inr Copy));
   match r with
   | inl a => ret a
   | inr action_ =>
       if dry_run then ret action_
       else fs_update (λ fs, copytree fs src_dir dest_dir);; ret action_
   end)%M.

(** *** [prune_dest] *)

Fixpoint prune_loop (source_names : gset string) (dry_run : bool)
    (dest_skills : list path) (pruned : nat) : M nat :=
  match dest_skills with
  | [] => ret pruned
  | dest_skill :: rest =>
      if bool_decide (name dest_skill ∈ source_names)
      then prune_loop source_names dry_run rest pruned
      else
        ((if dry_run
          then print ("PRUNE: " +:+ name dest_skill +:+ " -> "
                      +:+ show_path dest_skill)
          else fs_update (λ fs, rmtree fs dest_skill));;
         prune_loop source_names dry_run rest (S pruned))%M
  end.

Definition prune_dest (source_names : gset string) (dest_root : path)
    (dry_run : bool) : M nat :=
  (dest_skills ← fs_try (λ fs, list_skill_dirs fs dest_root false);
   prune_loop source_names dry_run dest_skills 0)%M.

(** *** [main] *)

Record Args := {
  source : path;
  extra_source : list path;
  recursive : bool;
  include_official_plugins : bool;
  dest : path;
  mode : mode_t;
  conflict : policy;
  dry_run : bool;
  prune : bool;
}.

(** The two marketplace roots below the user's home directory. *)
Definition OFFICIAL_PLUGIN_ROOTS (home : path) : list path :=
  [ home ++ [".claude"; "plugins"; "marketplaces"; "claude-plugins-official";
             "plugins"];
    home ++ [".claude"; "plugins"; "marketplaces"; "claude-plugins-official";
             "external_plugins"] ].

Record Counts := {
  n_copy : nat;
  n_overwrite : nat;
  n_skip : nat;
}.

(** [counts[action] += 1]. *)
Definition bump (a : action) (c : Counts) : Counts :=
  match a with
  | Copy => {| n_copy := S (n_copy c); n_overwrite := n_overwrite c; n_skip := n_skip c |}
  | Overwrite => {| n_copy := n_copy c; n_overwrite := S (n_overwrite c); n_skip := n_skip c |}
  | Skip => {| n_copy := n_copy c; n_overwrite := n_overwrite c; n_skip := S (n_skip c) |}
  end.

Definition configured_sources (home : path) (args : Args) : list (path * bool) :=
  (source args, recursive args)
  :: ((λ extra, (extra, recursive args)) <$> extra_source args)
  ++ (if include_official_plugins args
      then (λ plugin_root, (plugin_root, true)) <$> OFFICIAL_PLUGIN_ROOTS home
      else []).

(** The loop that keeps the source roots that exist and are directories. *)
Fixpoint validate (sources : list (path * bool)) : M (list (path * bool)) :=
  match sources with
  | [] => ret []
  | (p, rec) :: rest =>
      (present ← fs_read (λ fs, exists_ fs p);
       if negb present then
         print_err ("Skipping missing source: " +:+ show_path p);;
         validate rest
       else
         d ← fs_read (λ fs, is_dir fs p);
         if negb d then
           print_err ("Skipping non-directory source: " +:+ show_path p);;
           validate rest
         else
           valid ← validate rest; ret ((p, rec) :: valid))%M
  end.

(** The loop that scans every valid root and concatenates the results. *)
Fixpoint scan_sources (valid_sources : list (path * bool)) : M (list path) :=
  match valid_sources with
  | [] => ret []
  | (p, rec) :: rest =>
      (found ← fs_try (λ fs, list_skill_dirs fs p rec);
       more ← scan_sources rest;
       ret (found ++ more))%M
  end.

Definition action_line (a : action) (skill_dir dest_root : path) : string :=
  upper (show_action a) +:+ ": " +:+ name skill_dir +:+ " -> "
  +:+ show_path (joinpath dest_root (name skill_dir)).

(** The loop over the discovered skills, inside the [try]. *)
Fixpoint copy_loop (args : Args) (skills : list path) (counts : Counts)
  : M Counts :=
  match skills with
  | [] => ret counts
  | skill_dir :: rest =>
      (action_ ← copy_skill skill_dir (dest args) (conflict args) (dry_run args);
       print (action_line action_ skill_dir (dest args));;
       copy_loop args rest (bump action_ counts))%M
  end.

Fixpoint print_sources (valid_sources : list (path * bool)) : M unit :=
  match valid_sources with
  | [] => ret ()
  | (p, rec) :: rest =>
      (print ("- " +:+ show_path p +:+ " ("
              +:+ (if rec : bool then "recursive" else "direct") +:+ ")");;
       print_sources rest)%M
  end.

Definition summary_line (args : Args) (counts : Counts) (pruned : nat) : string :=
  "Summary: copied " +:+ pretty (n_copy counts)
  +:+ ", overwritten " +:+ pretty (n_overwrite counts)
  +:+ ", skipped " +:+ pretty (n_skip counts)
  +:+ (if prune args then ", pruned " +:+ pretty pruned else "").

Definition source_names (skills : list path) : gset string :=
  list_to_set (name <$> skills).

(** Lines 176-206: the usage check, the source roots, the scan.  An early
    [return code] is [inl code]; otherwise the valid roots and the skills
    found go on to the rest of [main]. *)
Definition prepare (home : path) (args : Args)
  : M (nat + list (path * bool) * list path) :=
  (if prune args && negb (bool_decide (mode args = ModeSync)) then
     print_err "--prune is only valid with --mode sync.";; ret (inl 1)
   else
     valid_sources ← validate (configured_sources home args);
     if bool_decide (valid_sources = []) then
       print_err "No valid sources found.";; ret (inl 1)
     else
       skills ← scan_sources valid_sources;
       if bool_decide (skills = []) then
         print "No skills found in the provided sources.";; ret (inl 0)
       else ret (inr (valid_sources, skills)))%M.

(** Lines 208-212. *)
Definition ensure_dest (args : Args) : M unit :=
  (present ← fs_read (λ fs, exists_ fs (dest args));
   if negb present then
     if dry_run args
     then print ("DRY RUN: would create destination " +:+ show_path (dest args))
     else fs_update (λ fs, makedirs fs (dest args))
   else ret ())%M.

(** Lines 214-220. *)
Definition announce (args : Args) (valid_sources : list (path * bool))
    (skills : list path) : M unit :=
  (print "Sources:";;
   print_sources valid_sources;;
   print ("Destination: " +:+ show_path (dest args));;
   print ("Mode: " +:+ show_mode (mode args)
          +:+ " | Conflict: " +:+ show_policy (conflict args)
          +:+ " | Dry run: " +:+ show_bool (dry_run args));;
   print ("Skills found: " +:+ pretty (length skills)))%M.

Definition no_counts : Counts := {| n_copy := 0; n_overwrite := 0; n_skip := 0 |}.

(** Lines 222-235: the copy loop inside its [try]; [None] stands for the
    [return 2] of the handler. *)
Definition copy_all (args : Args) (skills : list path) : M (option Counts) :=
  try_except
    (counts ← copy_loop args skills no_counts; ret (Some counts))%M
    (λ msg, print_err msg;; ret None)%M.

(** Lines 237-246. *)
Definition prune_step (args : Args) (skills : list path) : M nat :=
  (if bool_decide (mode args = ModeSync) && prune args then
     present ← fs_read (λ fs, exists_ fs (dest args));
     if negb present then
       print "DRY RUN: destination does not exist, nothing to prune.";;
       ret 0
     else prune_dest (source_names skills) (dest args) (dry_run args)
   else ret 0)%M.

(** Lines 208-255: everything after the scan. *)
Definition run (args : Args) (valid_sources : list (path * bool))
    (skills : list path) : M nat :=
  (ensure_dest args;;
   announce args valid_sources skills;;
   copied ← copy_all args skills;
   match copied with
   | None => ret 2
   | Some counts =>
       pruned ← prune_step args skills;
       print (summary_line args counts pruned);;
       ret 0
   end)%M.

Definition main (home : path) (args : Args) : M nat :=
  (r ← prepare home args;
   match r with
   | inl code => ret code
   | inr (valid_sources, skills) => run args valid_sources skills
   end)%M.

(** ** The blocks of [main] read as functions of the store *)

(** The store part of a world replaced. *)
Definition with_fs (w : world) (fs : tree) : world :=
  World fs (w_in w) (w_out w).

(** A world after more console output. *)
Definition say (w : world) (evs : list event) : world :=
  World (w_fs w) (w_in w) (w_out w ++ evs).

(** The copy that ends [copy_skill] outside preview mode. *)
Definition do_copy (src_dir dest_dir : path) (a : action) (w : world)
  : outcome action * world :=
  match copytree (w_fs w) src_dir dest_dir with
  | Some fs' => (Ret a, with_fs w fs')
  | None => (Raise OSError, w)
  end.

(** The destination path of a skill. *)
Definition dest_of (args : Args) (skill_dir : path) : path :=
  joinpath (dest args) (name skill_dir).

(** [--prune] without [--mode sync]. *)
Definition usage_error (args : Args) : bool :=
  prune args && negb (bool_decide (mode args = ModeSync)).

(** What [validate] keeps, and what it writes, as functions of the store. *)
Definition valid_of (fs : tree) (sources : list (path * bool))
  : list (path * bool) :=
  filter (λ s, is_dir fs s.1) sources.

Fixpoint validate_log (fs : tree) (sources : list (path * bool)) : list event :=
  match sources with
  | [] => []
  | (p, _) :: rest =>
      if negb (exists_ fs p)
      then PrintErr ("Skipping missing source: " +:+ show_path p)
           :: validate_log fs rest
      else if negb (is_dir fs p)
      then PrintErr ("Skipping non-directory source: " +:+ show_path p)
           :: validate_log fs rest
      else validate_log fs rest
  end.

(** What [scan_sources] finds, as a function of the store. *)
Fixpoint discover (fs : tree) (valid_sources : list (path * bool))
  : option (list path) :=
  match valid_sources with
  | [] => Some []
  | (p, rec) :: rest =>
      match list_skill_dirs fs p rec with
      | None => None
      | Some found => (found ++.) <$> discover fs rest
      end
  end.

(** What [announce] writes. *)
Definition announce_log (args : Args) (valid_sources : list (path * bool))
    (skills : list path) : list event :=
  Print "Sources:"
  :: ((λ s : path * bool,
         Print ("- " +:+ show_path s.1 +:+ " ("
                +:+ (if s.2 then "recursive" else "direct") +:+ ")"))
      <$> valid_sources)
  ++ [Print ("Destination: " +:+ show_path (dest args));
      Print ("Mode: " +:+ show_mode (mode args)
             +:+ " | Conflict: " +:+ show_policy (conflict args)
             +:+ " | Dry run: " +:+ show_bool (dry_run args));
      Print ("Skills found: " +:+ pretty (length skills))].

(** The destination skills pruning acts on: those whose name no source has. *)
Definition stale (names : gset string) (dest_skills : list path) : list path :=
  filter (λ d, name d ∉ names) dest_skills.

Definition prune_line (dest_skill : path) : event :=
  Print ("PRUNE: " +:+ name dest_skill +:+ " -> " +:+ show_path dest_skill).

(** The store the pruning loop leaves, outside preview mode. *)
Fixpoint prune_store (names : gset string) (fs : tree) (dest_skills : list path)
  : option tree :=
  match dest_skills with
  | [] => Some fs
  | d :: rest =>
      if bool_decide (name d ∈ names) then prune_store names fs rest
      else match rmtree fs d with
           | Some fs' => prune_store names fs' rest
           | None => None
           end
  end.

(** Whether [k] is one of the paths [ds] or lies below one. *)
Definition below_any (ds : list path) (k : path) : bool :=
  existsb (λ d, bool_decide (is_Some (relative_to d k))) ds.

(** [n] more skips on a tally. *)
Definition add_skips (n : nat) (c : Counts) : Counts :=
  {| n_copy := n_copy c; n_overwrite := n_overwrite c; n_skip := n_skip c + n |}.

Definition skip_line (args : Args) (skill_dir : path) : event :=
  Print (action_line Skip skill_dir (dest args)).

(** What the second of two [copy]/[skip] runs writes: the warnings about
    dropped roots, then either the nothing-found notice or the header, one
    [SKIP] line per skill and the summary. *)
Definition second_run_log (home : path) (args : Args) (fs : tree)
    (skills : list path) : list event :=
  validate_log fs (configured_sources home args)
  ++ (if bool_decide (skills = [])
      then [Print "No skills found in the provided sources."]
      else announce_log args (valid_of fs (configured_sources home args)) skills
           ++ (skip_line args <$> skills)
           ++ [Print (summary_line args
                        {| n_copy := 0; n_overwrite := 0;
                           n_skip := length skills |} 0)]).

(** ** Properties of stores and of computations *)

(** The test the direct scan applies to one entry. *)
Definition entry_ok (fs : tree) (entry : path) : bool :=
  negb (hidden (name entry)) && is_dir fs entry && is_file fs (entry ++ [MARKER]).

(** The test the recursive scan applies to one marker path. *)
Definition marker_ok (root skill_file : path) : bool :=
  match relative_to root (parent skill_file) with
  | Some relative_parts => negb (existsb hidden relative_parts)
  | None => false
  end.

(** No entry of the store has the empty string as its name. *)
Definition named (fs : tree) : Prop := ∀ q, fs !! (q ++ [""]) = None.

(** A decidable reading of [wf], for concrete stores. *)
Definition wfb (fs : tree) : bool :=
  forallb (λ k : path,
             match last k with
             | None => true
             | Some n => negb (bool_decide (n = "")) && is_dir fs (parent k)
             end)
          (map_to_list fs).*1.

(** Two stores that hold the same entries at [root] and below it. *)
Definition agree_below (root : path) (fs1 fs2 : tree) : Prop :=
  ∀ k, is_Some (relative_to root k) → fs1 !! k = fs2 !! k.

(** A computation that never changes the store, whatever its outcome. *)
Definition fs_pure {A} (m : M A) : Prop := ∀ w, w_fs (m w).2 = w_fs w.

(** A computation that keeps a property of the store, whatever its outcome. *)
Definition preserves {A : Type} (P : tree → Prop) (m : M A) : Prop :=
  ∀ w, P (w_fs w) → P (w_fs (m w).2).

(** ** The specification's own wording *)

(** The decision a normalised response stands for, as the specification
    lists them. *)
Definition recognize (response : string) : option policy :=
  if bool_decide (response ∈ ["o"; "overwrite"; "y"; "yes"]) then Some POverwrite
  else if bool_decide (response ∈ ["s"; "skip"; ""; "n"; "no"]) then Some PSkip
  else if bool_decide (response ∈ ["a"; "abort"; "q"; "quit"]) then Some PAbort
  else None.

(** What the prompt loop writes for the lines it does not recognise. *)
Definition reprompts (prompt : string) (junk : list string) : list event :=
  junk ≫= (λ _, [Prompt prompt; Print CHOOSE_HINT]).

(** The prune property as the specification words it: after a run that
    reached the copy loop and returned 0, the names of the direct entries
    of the destination root are exactly the names of the skills found. *)
Definition prune_claim (home : path) (args : Args) (w : world) : Prop :=
  ∀ w0 w' valid skills,
    prepare home args w = (Ret (inr (valid, skills)), w0) →
    main home args w = (Ret 0, w') →
    ∀ n, is_Some (w_fs w' !! (dest args ++ [n])) ↔ n ∈ source_names skills.

(** ** Example stores and arguments *)

(** A source root [/s] with skills [a] and [b], a hidden skill [.c], a
    directory without marker and a plain file. *)
Definition fs_two_skills : tree :=
  list_to_map
    [([], Dir); (["s"], Dir);
     (["s"; "b"], Dir); (["s"; "b"; "SKILL.md"], File "b");
     (["s"; "a"], Dir); (["s"; "a"; "SKILL.md"], File "a");
     (["s"; ".c"], Dir); (["s"; ".c"; "SKILL.md"], File "c");
     (["s"; "d"], Dir); (["s"; "e"], File "e")].

(** A source root [/s] whose child [a] holds a directory named SKILL.md. *)
Definition fs_marker_dir : tree :=
  list_to_map
    [([], Dir); (["s"], Dir); (["s"; "a"], Dir);
     (["s"; "a"; "SKILL.md"], Dir)].

(** A destination [/d] with a stale skill [c], a kept skill [a], a hidden
    skill directory and a plain file. *)
Definition fs_dest : tree :=
  list_to_map
    [([], Dir); (["d"], Dir);
     (["d"; "c"], Dir); (["d"; "c"; "SKILL.md"], File "c");
     (["d"; "c"; "x"], File "x");
     (["d"; "a"], Dir); (["d"; "a"; "SKILL.md"], File "a");
     (["d"; ".h"], Dir); (["d"; ".h"; "SKILL.md"], File "h");
     (["d"; "notes"], File "n")].

(** A source [/s] with skill [a], and the destination of [fs_dest]. *)
Definition fs_sync : tree :=
  <[ ["s"] := Dir ]> (<[ ["s"; "a"] := Dir ]>
    (<[ ["s"; "a"; "SKILL.md"] := File "a" ]> fs_dest)).

(** A source [/s] with skill [a] and a destination [/d] that already holds
    an older [a] with a file the source does not have. *)
Definition fs_conflict : tree :=
  list_to_map
    [([], Dir); (["s"], Dir); (["d"], Dir);
     (["s"; "a"], Dir); (["s"; "a"; "SKILL.md"], File "new");
     (["s"; "a"; "lib"], Dir); (["s"; "a"; "lib"; "f"], File "f");
     (["d"; "a"], Dir); (["d"; "a"; "SKILL.md"], File "old");
     (["d"; "a"; "stale"], File "s")].

(** A source [/s] with skills [a] and [b], and a destination [/d] that
    already holds [b]. *)
Definition fs_abort : tree :=
  list_to_map
    [([], Dir); (["s"], Dir); (["d"], Dir);
     (["s"; "a"], Dir); (["s"; "a"; "SKILL.md"], File "a");
     (["s"; "b"], Dir); (["s"; "b"; "SKILL.md"], File "b");
     (["d"; "b"], Dir); (["d"; "b"; "SKILL.md"], File "old")].

Definition args_preview : Args :=
  {| source := ["s"]; extra_source := []; recursive := false;
     include_official_plugins := false; dest := ["d"]; mode := ModeSync;
     conflict := POverwrite; dry_run := true; prune := true |}.

Definition args_abort : Args :=
  {| source := ["s"]; extra_source := []; recursive := false;
     include_official_plugins := false; dest := ["d"]; mode := ModeCopy;
     conflict := PAbort; dry_run := false; prune := false |}.

Definition args_skip : Args :=
  {| source := ["s"]; extra_source := []; recursive := false;
     include_official_plugins := false; dest := ["d"]; mode := ModeCopy;
     conflict := PSkip; dry_run := false; prune := false |}.

Definition args_ask : Args :=
  {| source := ["s"]; extra_source := []; recursive := false;
     include_official_plugins := false; dest := ["d"]; mode := ModeCopy;
     conflict := PAsk; dry_run := false; prune := false |}.

Definition args_sync : Args :=
  {| source := ["s"]; extra_source := []; recursive := false;
     include_official_plugins := false; dest := ["d"]; mode := ModeSync;
     conflict := PSkip; dry_run := false; prune := true |}.

Definition args_bad_prune : Args :=
  {| source := ["s"]; extra_source := []; recursive := false;
     include_official_plugins := false; dest := ["d"]; mode := ModeCopy;
     conflict := PSkip; dry_run := false; prune := true |}.

Definition args_missing : Args :=
  {| source := ["nowhere"]; extra_source := [["s"; "a"; "SKILL.md"]];
     recursive := false; include_official_plugins := false; dest := ["d"];
     mode := ModeCopy; conflict := PSkip; dry_run := false; prune := false |}.

Definition args_no_skills : Args :=
  {| source := ["s"; "a"]; extra_source := []; recursive := false;
     include_official_plugins := false; dest := ["d"]; mode := ModeCopy;
     conflict := PSkip; dry_run := false; prune := false |}.

(** ** Further properties of computations *)

(** A computation that leaves one component of the world as it found it,
    whatever its outcome. *)
Definition keeps {A B : Type} (f : world → B) (m : M A) : Prop :=
  ∀ w, f (m w).2 = f w.

(** A computation whose effect on the store stays within a relation,
    whatever its outcome. *)
Definition steps {A : Type} (R : relation tree) (m : M A) : Prop :=
  ∀ w, R (w_fs w) (w_fs (m w).2).

(** The most a run may do outside [root]: create a missing directory on
    the way down to [root]. *)
Definition outside_kept (root : path) : relation tree := λ fs fs',
  ∀ k, relative_to root k = None →
       fs' !! k = fs !! k
       ∨ (fs !! k = None ∧ fs' !! k = Some Dir ∧ is_Some (relative_to k root)).

(** A well-formed store that only grew: every entry is still there, with
    its content. *)
Definition grown : relation tree := λ fs fs',
  wf fs → wf fs' ∧ ∀ k v, fs !! k = Some v → fs' !! k = Some v.

(** The total of a tally. *)
Definition processed (c : Counts) : nat := n_copy c + n_overwrite c + n_skip c.

(** Two source roots [/s] and [/t] that both hold a skill named [a], and
    an empty destination [/d]. *)
Definition fs_twins : tree :=
  list_to_map
    [([], Dir); (["s"], Dir); (["t"], Dir); (["d"], Dir);
     (["s"; "a"], Dir); (["s"; "a"; "SKILL.md"], File "first");
     (["t"; "a"], Dir); (["t"; "a"; "SKILL.md"], File "second")].

Definition args_overwrite : Args :=
  {| source := ["s"]; extra_source := [["t"]]; recursive := false;
     include_official_plugins := false; dest := ["d"]; mode := ModeCopy;
     conflict := POverwrite; dry_run := false; prune := false |}.

(** ** Paths *)

Lemma relative_to_Some root p rel :
  relative_to root p = Some rel ↔ p = root ++ rel.
Proof.
  revert p. induction root as [|a root IH]; intros [|b p]; simpl.
  - naive_solver.
  - naive_solver.
  - naive_solver.
  - case_decide; subst.
    + rewrite IH. naive_solver.
    + naive_solver.
Qed.

Lemma relative_to_app root rel : relative_to root (root ++ rel) = Some rel.
Proof. by apply relative_to_Some. Qed.

Lemma relative_to_refl p : relative_to p p = Some [].
Proof. apply relative_to_Some. by rewrite app_nil_r. Qed.

Lemma relative_to_None root p :
  relative_to root p = None ↔ ∀ rel, p ≠ root ++ rel.
Proof.
  split.
  - intros H rel ->. by rewrite relative_to_app in H.
  - intros H. destruct (relative_to root p) as [rel|] eqn:E; [|done].
    apply relative_to_Some in E. naive_solver.
Qed.

Lemma relative_to_trans p q k rel :
  relative_to p q = Some rel → is_Some (relative_to q k) → is_Some (relative_to p k).
Proof.
  intros ->%relative_to_Some [r ->%relative_to_Some].
  rewrite <-(assoc_L (++)). rewrite relative_to_app. eauto.
Qed.

Lemma name_snoc p n : name (p ++ [n]) = n.
Proof. unfold name. by rewrite last_snoc. Qed.

Lemma parent_snoc p n : parent (p ++ [n]) = p.
Proof.
  unfold parent. rewrite length_app. simpl.
  replace (length p + 1 - 1) with (length p) by lia.
  by rewrite take_app_length.
Qed.

Lemma joinpath_snoc p n : n ≠ "" → joinpath p n = p ++ [n].
Proof. intros. unfold joinpath. by case_decide. Qed.

Lemma is_child_spec root p :
  is_child root p = true ↔ ∃ n, p = root ++ [n].
Proof.
  unfold is_child.
  destruct (relative_to root p) as [[|n [|??]]|] eqn:E.
  - apply relative_to_Some in E. subst. split; [done|].
    intros [n Hn]. rewrite app_nil_r in Hn.
    apply (f_equal length) in Hn. rewrite length_app in Hn. simpl in Hn. lia.
  - apply relative_to_Some in E. naive_solver.
  - apply relative_to_Some in E. subst. split; [done|].
    intros [m Hm]. apply app_inv_head in Hm. done.
  - split; [done|]. intros [n ->]. by rewrite relative_to_app in E.
Qed.

(** The path order is a total order. *)

Global Instance path_le_refl : Reflexive path_le.
Proof.
  intros p. unfold path_le. induction p as [|a p IH]; simpl; [done|].
  by rewrite decide_True.
Qed.

Global Instance path_le_total : Total path_le.
Proof.
  intros p. unfold path_le.
  induction p as [|a p IH]; intros [|b q]; simpl; auto.
  case_decide as Hab.
  - subst. rewrite decide_True by done. apply IH.
  - rewrite decide_False by done.
    rewrite !bool_decide_spec. apply (total String.le).
Qed.

Global Instance path_le_antisym : AntiSymm (=) path_le.
Proof.
  intros p. unfold path_le.
  induction p as [|a p IH]; intros [|b q]; simpl; try done.
  case_decide as Hab.
  - subst. rewrite decide_True by done. intros ??. f_equal. by apply IH.
  - rewrite decide_False by done.
    rewrite !bool_decide_spec. intros H1 H2.
    destruct Hab. by apply (anti_symm String.le).
Qed.

Global Instance path_le_trans : Transitive path_le.
Proof.
  intros p. unfold path_le.
  induction p as [|a p IH]; intros [|b q] [|c r]; simpl; try done.
  case_decide as Hab; [subst b|].
  - case_decide as Hac; [subst c|]; [apply IH|done].
  - case_decide as Hbc; [subst c|].
    + rewrite decide_False by done. done.
    + rewrite !bool_decide_spec. intros H1 H2.
      case_decide as Hac; [subst c|].
      * destruct Hab. by apply (anti_symm String.le).
      * rewrite bool_decide_spec. by etrans.
Qed.

(** ** Store primitives *)

Lemma exists_true fs p : exists_ fs p = true ↔ is_Some (fs !! p).
Proof. unfold exists_. by rewrite bool_decide_eq_true. Qed.

Lemma exists_false fs p : exists_ fs p = false ↔ fs !! p = None.
Proof.
  unfold exists_. rewrite bool_decide_eq_false. by rewrite eq_None_not_Some.
Qed.

Lemma is_dir_true fs p : is_dir fs p = true ↔ fs !! p = Some Dir.
Proof. unfold is_dir. by rewrite bool_decide_eq_true. Qed.

Lemma is_file_true fs p : is_file fs p = true ↔ ∃ data, fs !! p = Some (File data).
Proof.
  unfold is_file. destruct (fs !! p) as [[d|]|]; naive_solver.
Qed.

Lemma lookup_subtree fs src rel : subtree fs src !! rel = fs !! (src ++ rel).
Proof.
  unfold subtree.
  set (f := λ kv : path * node, (λ r, (r, kv.2)) <$> relative_to src kv.1).
  assert (Hin : ∀ r v, (r, v) ∈ omap f (map_to_list fs) ↔ fs !! (src ++ r) = Some v).
  { intros r v. rewrite list_elem_of_omap. split.
    - intros [[k v'] [Hk Hf]]. unfold f in Hf. simpl in Hf.
      destruct (relative_to src k) as [r'|] eqn:E; simplify_eq/=.
      apply relative_to_Some in E. subst k. by apply elem_of_map_to_list in Hk.
    - intros Hl. exists (src ++ r, v). split; [by apply elem_of_map_to_list|].
      unfold f. simpl. by rewrite relative_to_app. }
  destruct (fs !! (src ++ rel)) as [v|] eqn:E.
  - apply elem_of_list_to_map_1'; [|by apply Hin].
    intros v' Hv'. apply Hin in Hv'. congruence.
  - apply not_elem_of_list_to_map_1. intros Hel.
    apply list_elem_of_fmap in Hel as [[r v] [-> Hrv]]. simpl in E.
    apply Hin in Hrv. congruence.
Qed.

Lemma elem_of_prefixes q p : q ∈ prefixes p ↔ is_Some (relative_to q p).
Proof.
  revert q. induction p as [|a p IH]; intros q; simpl.
  - rewrite list_elem_of_singleton. destruct q; simpl; split; try done.
  - rewrite elem_of_cons, list_elem_of_fmap. split.
    + intros [->|[q' [-> Hq']]]; [simpl; eauto|].
      simpl. rewrite decide_True by done. by apply IH.
    + destruct q as [|b q]; [by left|]. simpl. case_decide; [subst|by intros [??]].
      intros H. right. exists q. split; [done|]. by apply IH.
Qed.

Lemma lookup_mkdir_map p k :
  (list_to_map ((λ q, (q, Dir)) <$> prefixes p) : tree) !! k
  = match relative_to k p with Some _ => Some Dir | None => None end.
Proof.
  destruct (relative_to k p) as [r|] eqn:E.
  - apply elem_of_list_to_map_1'.
    + intros y Hy. apply list_elem_of_fmap in Hy as [q [? _]]. by simplify_eq.
    + apply list_elem_of_fmap. exists k. split; [done|].
      apply elem_of_prefixes. by rewrite E.
  - apply not_elem_of_list_to_map_1. rewrite <-list_fmap_compose.
    intros Hel. apply list_elem_of_fmap in Hel as [q [-> Hq]]. simpl in E.
    apply elem_of_prefixes in Hq. rewrite E in Hq. by destruct Hq.
Qed.

Lemma lookup_makedirs fs p fs' k :
  makedirs fs p = Some fs' →
  fs' !! k = match fs !! k with
             | Some v => Some v
             | None => match relative_to k p with Some _ => Some Dir | None => None end
             end.
Proof.
  unfold makedirs. case_bool_decide; [done|]. intros [= <-].
  rewrite lookup_union, lookup_mkdir_map.
  destruct (fs !! k), (relative_to k p); done.
Qed.

Lemma makedirs_Some fs p :
  (∀ q, is_Some (relative_to q p) → is_file fs q = false) →
  is_Some (makedirs fs p).
Proof.
  intros H. unfold makedirs. rewrite bool_decide_eq_false_2; [eauto|].
  rewrite Exists_exists. intros [q [Hq Hf]].
  apply elem_of_prefixes in Hq. rewrite H in Hf; done.
Qed.

Lemma makedirs_Some_inv fs p fs' q :
  makedirs fs p = Some fs' → is_Some (relative_to q p) → is_file fs q = false.
Proof.
  unfold makedirs. case_bool_decide as H; [done|]. intros _ Hq.
  destruct (is_file fs q) eqn:E; [|done]. destruct H.
  apply Exists_exists. exists q. split; [|done]. by apply elem_of_prefixes.
Qed.

Lemma lookup_rmtree fs p fs' k :
  rmtree fs p = Some fs' →
  fs' !! k = match relative_to p k with Some _ => None | None => fs !! k end.
Proof.
  unfold rmtree. destruct (is_dir fs p); [|done]. intros [= <-].
  destruct (relative_to p k) as [r|] eqn:E.
  - apply map_lookup_filter_None. right. intros v _. simpl. by rewrite E.
  - destruct (fs !! k) as [v|] eqn:Ek.
    + apply map_lookup_filter_Some. done.
    + apply map_lookup_filter_None. by left.
Qed.

Lemma rmtree_Some fs p : fs !! p = Some Dir → is_Some (rmtree fs p).
Proof. intros H. unfold rmtree. apply is_dir_true in H. rewrite H. eauto. Qed.

Lemma rmtree_Some_inv fs p fs' : rmtree fs p = Some fs' → fs !! p = Some Dir.
Proof.
  unfold rmtree. destruct (is_dir fs p) eqn:E; [|done]. intros _.
  by apply is_dir_true.
Qed.

Lemma lookup_copytree fs src dst fs' k :
  copytree fs src dst = Some fs' →
  ∃ fs1, makedirs fs dst = Some fs1 ∧
  fs' !! k = match relative_to dst k with
             | Some rel =>
                 match fs !! (src ++ rel) with
                 | Some v => Some v
                 | None => fs1 !! k
                 end
             | None => fs1 !! k
             end.
Proof.
  unfold copytree. destruct (is_dir fs src); [|done]. simpl.
  destruct (exists_ fs dst); [done|]. case_bool_decide; [done|].
  destruct (makedirs fs dst) as [fs1|]; [|done]. intros [= <-].
  exists fs1. split; [done|]. rewrite lookup_union.
  destruct (relative_to dst k) as [rel|] eqn:E.
  - apply relative_to_Some in E. subst k.
    rewrite (lookup_kmap (app dst)). rewrite lookup_subtree.
    destruct (fs !! (src ++ rel)), (fs1 !! (dst ++ rel)); done.
  - assert ((kmap (app dst) (subtree fs src) : tree) !! k = None) as ->.
    { apply (lookup_kmap_None (app dst)). intros rel Hk. subst k.
      by rewrite relative_to_app in E. }
    by destruct (fs1 !! k).
Qed.

Lemma copytree_Some_inv fs src dst fs' :
  copytree fs src dst = Some fs' →
  fs !! src = Some Dir ∧ fs !! dst = None ∧ relative_to src dst = None.
Proof.
  unfold copytree. destruct (is_dir fs src) eqn:E1; [|done]. simpl.
  destruct (exists_ fs dst) eqn:E2; [done|]. case_bool_decide as E3; [done|].
  intros _. split; [by apply is_dir_true|]. split; [by apply exists_false|].
  by apply eq_None_not_Some.
Qed.

Lemma copytree_Some fs src dst :
  fs !! src = Some Dir → fs !! dst = None → relative_to src dst = None →
  (∀ q, is_Some (relative_to q dst) → is_file fs q = false) →
  is_Some (copytree fs src dst).
Proof.
  intros H1 H2 H3 H4. unfold copytree.
  apply is_dir_true in H1. rewrite H1. simpl.
  apply exists_false in H2. rewrite H2.
  rewrite bool_decide_eq_false_2 by (rewrite H3; by intros [??]).
  destruct (makedirs_Some fs dst H4) as [fs1 ->]. eauto.
Qed.

(** ** Enumeration *)

Lemma elem_of_keys (fs : tree) k : k ∈ (map_to_list fs).*1 ↔ is_Some (fs !! k).
Proof.
  rewrite list_elem_of_fmap. split.
  - intros [[k' v] [-> H]]. apply elem_of_map_to_list in H. simpl. eauto.
  - intros [v H]. exists (k, v). split; [done|]. by apply elem_of_map_to_list.
Qed.

Lemma iterdir_Some fs root :
  fs !! root = Some Dir → is_Some (iterdir fs root).
Proof. intros H. unfold iterdir. apply is_dir_true in H. rewrite H. eauto. Qed.

Lemma iterdir_None fs root :
  fs !! root ≠ Some Dir → iterdir fs root = None.
Proof.
  intros H. unfold iterdir. destruct (is_dir fs root) eqn:E; [|done].
  by apply is_dir_true in E.
Qed.

Lemma elem_of_iterdir fs root l p :
  iterdir fs root = Some l →
  p ∈ l ↔ (∃ n, p = root ++ [n]) ∧ is_Some (fs !! p).
Proof.
  unfold iterdir. destruct (is_dir fs root); [|done]. intros [= <-].
  rewrite list_elem_of_filter, elem_of_keys, Is_true_true, is_child_spec. done.
Qed.

Lemma NoDup_iterdir fs root l : iterdir fs root = Some l → NoDup l.
Proof.
  unfold iterdir. destruct (is_dir fs root); [|done]. intros [= <-].
  apply NoDup_filter, NoDup_fst_map_to_list.
Qed.

Lemma matches_below_spec root pattern p :
  matches_below root pattern p = true ↔ ∃ rel, p = root ++ rel ++ [pattern].
Proof.
  unfold matches_below. destruct (relative_to root p) as [rel|] eqn:E.
  - apply relative_to_Some in E. subst p. rewrite bool_decide_eq_true.
    rewrite last_Some. split.
    + intros [l' ->]. eauto.
    + intros [rel' H]. apply app_inv_head in H. eauto.
  - split; [done|]. intros [rel ->]. by rewrite relative_to_app in E.
Qed.

Lemma elem_of_rglob fs root pattern p :
  p ∈ rglob fs root pattern ↔
  fs !! root = Some Dir ∧ (∃ rel, p = root ++ rel ++ [pattern]) ∧ is_Some (fs !! p).
Proof.
  unfold rglob. destruct (is_dir fs root) eqn:E.
  - apply is_dir_true in E.
    rewrite list_elem_of_filter, elem_of_keys, Is_true_true, matches_below_spec.
    naive_solver.
  - rewrite elem_of_nil. split; [done|]. intros [H _].
    apply is_dir_true in H. congruence.
Qed.

Lemma NoDup_rglob fs root pattern : NoDup (rglob fs root pattern).
Proof.
  unfold rglob. destruct (is_dir fs root); [|constructor].
  apply NoDup_filter, NoDup_fst_map_to_list.
Qed.

(** ** Sorting *)

Lemma sorted_Permutation l : sorted l ≡ₚ l.
Proof. apply merge_sort_Permutation. Qed.

Lemma elem_of_sorted l p : p ∈ sorted l ↔ p ∈ l.
Proof. by rewrite sorted_Permutation. Qed.

Lemma NoDup_sorted l : NoDup l → NoDup (sorted l).
Proof. by rewrite sorted_Permutation. Qed.

Lemma StronglySorted_sorted l : StronglySorted path_le (sorted l).
Proof. apply (StronglySorted_merge_sort path_le). Qed.

(** Two listings with the same members sort to the same list. *)
Lemma sorted_ext l1 l2 :
  NoDup l1 → NoDup l2 → (∀ p, p ∈ l1 ↔ p ∈ l2) → sorted l1 = sorted l2.
Proof.
  intros H1 H2 H. apply (StronglySorted_unique path_le).
  - apply StronglySorted_sorted.
  - apply StronglySorted_sorted.
  - rewrite !sorted_Permutation. by apply NoDup_Permutation.
Qed.

Lemma StronglySorted_filter_bool {A} (R : relation A) (f : A → bool) l :
  StronglySorted R l → StronglySorted R (filter (λ x, f x) l).
Proof.
  induction 1 as [|x l Hl IH Hx]; [constructor|].
  rewrite filter_cons. destruct (decide (f x)); [|done].
  constructor; [done|]. apply Forall_forall. intros y Hy.
  apply list_elem_of_filter in Hy as [_ Hy].
  rewrite Forall_forall in Hx. by apply Hx.
Qed.

Lemma path_le_app root p q : path_le (root ++ p) (root ++ q) ↔ path_le p q.
Proof.
  unfold path_le. induction root as [|a root IH]; simpl; [done|].
  by rewrite decide_True.
Qed.

Lemma path_le_singleton n m : path_le [n] [m] ↔ String.le n m.
Proof.
  unfold path_le. simpl. case_decide.
  - subst. split; [done|]. intros _. done.
  - by rewrite bool_decide_spec.
Qed.

(** ** The scanner's loops as filters *)

Lemma filter_cons_bool {A} (f : A → bool) x l :
  filter (λ y, f y) (x :: l)
  = if f x then x :: filter (λ y, f y) l else filter (λ y, f y) l.
Proof.
  rewrite filter_cons. destruct (f x) eqn:E.
  - by rewrite decide_True by done.
  - by rewrite decide_False by (by intros []).
Qed.

Lemma scan_entries_filter fs entries :
  scan_entries fs entries = filter (λ e, entry_ok fs e) entries.
Proof.
  induction entries as [|e l IH]; [done|]. simpl. rewrite filter_cons_bool.
  unfold entry_ok at 1. rewrite IH.
  destruct (hidden (name e)); simpl; [done|].
  by destruct (is_dir fs e && is_file fs (e ++ [MARKER])).
Qed.

Lemma scan_markers_filter root files :
  Forall (λ f, is_Some (relative_to root (parent f))) files →
  scan_markers root files
  = Some (parent <$> filter (λ f, marker_ok root f) files).
Proof.
  induction 1 as [|f l [rel Hf] Hl IH]; [done|]. simpl.
  rewrite filter_cons_bool.
  unfold marker_ok at 1. rewrite Hf, IH.
  by destruct (existsb hidden rel).
Qed.

(** ** The directory scanner *)

Lemma entry_ok_spec fs root n :
  entry_ok fs (root ++ [n]) = true ↔
  hidden n = false ∧ fs !! (root ++ [n]) = Some Dir
  ∧ is_file fs (root ++ [n] ++ [MARKER]) = true.
Proof.
  unfold entry_ok. rewrite name_snoc, !andb_true_iff, negb_true_iff.
  rewrite is_dir_true, <-(assoc_L (++)). naive_solver.
Qed.

Lemma list_skill_dirs_direct_eq fs root :
  list_skill_dirs fs root false
  = (λ entries, filter (λ e, entry_ok fs e) (sorted entries)) <$> iterdir fs root.
Proof.
  unfold list_skill_dirs. destruct (iterdir fs root); simpl; [|done].
  by rewrite scan_entries_filter.
Qed.

Lemma elem_of_direct fs root l d :
  list_skill_dirs fs root false = Some l →
  d ∈ l ↔ ∃ n, d = root ++ [n] ∧ hidden n = false ∧ fs !! d = Some Dir
              ∧ is_file fs (d ++ [MARKER]) = true.
Proof.
  rewrite list_skill_dirs_direct_eq.
  destruct (iterdir fs root) as [es|] eqn:E; [|done]. intros [= <-].
  rewrite list_elem_of_filter, elem_of_sorted, (elem_of_iterdir _ _ _ _ E).
  rewrite Is_true_true. split.
  - intros [Hok [[n ->] _]]. exists n. split; [done|].
    apply entry_ok_spec in Hok. by rewrite <-(assoc_L (++)).
  - intros [n (-> & H1 & H2 & H3)]. split; [|by eauto].
    apply entry_ok_spec. by rewrite <-(assoc_L (++)) in H3.
Qed.

Lemma direct_sorted fs root l :
  list_skill_dirs fs root false = Some l →
  StronglySorted path_le l ∧ NoDup l.
Proof.
  rewrite list_skill_dirs_direct_eq.
  destruct (iterdir fs root) as [es|] eqn:E; [|done]. intros [= <-]. split.
  - apply StronglySorted_filter_bool, StronglySorted_sorted.
  - apply NoDup_filter, NoDup_sorted. by eapply NoDup_iterdir.
Qed.

Lemma StronglySorted_names root l :
  Forall (λ d, ∃ n, d = root ++ [n]) l →
  StronglySorted path_le l →
  StronglySorted (λ d1 d2, String.le (name d1) (name d2)) l.
Proof.
  intros Hl. induction 1 as [|x l Hs IH Hx]; [constructor|].
  apply Forall_cons in Hl as [[n ->] Hl]. constructor; [by apply IH|].
  rewrite Forall_forall in Hx, Hl. apply Forall_forall. intros y Hy.
  destruct (Hl y Hy) as [m ->]. rewrite !name_snoc.
  apply path_le_singleton, (path_le_app root). by apply Hx.
Qed.

(** The recursive branch. *)

Lemma rglob_relative fs root :
  Forall (λ f, is_Some (relative_to root (parent f))) (sorted (rglob fs root MARKER)).
Proof.
  apply Forall_forall. intros f Hf. apply elem_of_sorted, elem_of_rglob in Hf.
  destruct Hf as (_ & [rel ->] & _).
  rewrite (assoc_L (++)), parent_snoc, relative_to_app. eauto.
Qed.

Lemma list_skill_dirs_recursive_eq fs root :
  list_skill_dirs fs root true
  = Some (parent <$> filter (λ f, marker_ok root f) (sorted (rglob fs root MARKER))).
Proof. unfold list_skill_dirs. apply scan_markers_filter, rglob_relative. Qed.

Lemma elem_of_recursive fs root l d :
  list_skill_dirs fs root true = Some l →
  d ∈ l ↔ fs !! root = Some Dir
          ∧ (∃ rel, d = root ++ rel ∧ existsb hidden rel = false)
          ∧ is_Some (fs !! (d ++ [MARKER])).
Proof.
  rewrite list_skill_dirs_recursive_eq. intros [= <-].
  rewrite list_elem_of_fmap. split.
  - intros [f [-> Hf]]. apply list_elem_of_filter in Hf as [Hok Hf].
    apply elem_of_sorted, elem_of_rglob in Hf as (Hroot & [rel ->] & Hex).
    split; [done|]. apply Is_true_true in Hok. unfold marker_ok in Hok.
    rewrite (assoc_L (++)), parent_snoc in *. rewrite relative_to_app in Hok.
    apply negb_true_iff in Hok. eauto.
  - intros (Hroot & [rel [-> Hh]] & Hex). exists ((root ++ rel) ++ [MARKER]).
    rewrite parent_snoc. split; [done|].
    apply list_elem_of_filter. split.
    + apply Is_true_true. unfold marker_ok.
      by rewrite parent_snoc, relative_to_app, Hh.
    + apply elem_of_sorted, elem_of_rglob. split; [done|]. split; [|done].
      exists rel. by rewrite (assoc_L (++)).
Qed.

Lemma recursive_sorted fs root l :
  list_skill_dirs fs root true = Some l →
  StronglySorted path_le ((λ d, d ++ [MARKER]) <$> l) ∧ NoDup l.
Proof.
  rewrite list_skill_dirs_recursive_eq. intros [= <-].
  set (fl := filter (λ f, marker_ok root f) (sorted (rglob fs root MARKER))).
  assert (Hfl : Forall (λ f, ∃ d, f = d ++ [MARKER]) fl).
  { apply Forall_forall. intros f Hf. apply list_elem_of_filter in Hf as [_ Hf].
    apply elem_of_sorted, elem_of_rglob in Hf as (_ & [rel ->] & _).
    exists (root ++ rel). by rewrite (assoc_L (++)). }
  assert (Hid : (λ d, d ++ [MARKER]) <$> (parent <$> fl) = fl).
  { clear -Hfl. induction Hfl as [|f l [d ->] _ IH]; [done|].
    simpl. rewrite parent_snoc. by f_equal. }
  split.
  - rewrite Hid. apply StronglySorted_filter_bool, StronglySorted_sorted.
  - apply (NoDup_fmap_1 (λ d, d ++ [MARKER])). rewrite Hid.
    apply NoDup_filter, NoDup_sorted, NoDup_rglob.
Qed.

(** ** The conflict resolver *)

Lemma prompt_loop_not_ask prompt lines : (prompt_loop prompt lines).1.1 ≠ PAsk.
Proof.
  induction lines as [|line rest IH]; simpl; [done|].
  repeat case_bool_decide; simpl; try done.
  destruct (prompt_loop prompt rest) as [[d r] e]. done.
Qed.

Lemma resolve_conflict_fixed dest_dir p dry w :
  p ≠ PAsk → resolve_conflict dest_dir p dry w = (Ret p, w).
Proof.
  intros Hp. unfold resolve_conflict.
  by rewrite bool_decide_eq_false_2.
Qed.

Lemma resolve_conflict_preview dest_dir w :
  ∃ line, resolve_conflict dest_dir PAsk true w
  = (Ret PSkip, World (w_fs w) (w_in w) (w_out w ++ [Print line])).
Proof. eexists. reflexivity. Qed.

Lemma resolve_conflict_ask dest_dir w :
  resolve_conflict dest_dir PAsk false w
  = let '(decision, rest, evs) := prompt_loop (conflict_prompt dest_dir) (w_in w) in
    (Ret decision, World (w_fs w) rest (w_out w ++ evs)).
Proof. reflexivity. Qed.

(** The resolver always returns, never with [ask], and leaves the store
    alone. *)
Lemma resolve_conflict_returns dest_dir p dry w :
  ∃ d rest evs,
    resolve_conflict dest_dir p dry w
    = (Ret d, World (w_fs w) rest (w_out w ++ evs)) ∧ d ≠ PAsk.
Proof.
  destruct (decide (p = PAsk)) as [->|Hp].
  - destruct dry.
    + destruct (resolve_conflict_preview dest_dir w) as [line ->].
      by eexists _, _, _.
    + rewrite resolve_conflict_ask.
      pose proof (prompt_loop_not_ask (conflict_prompt dest_dir) (w_in w)) as H.
      destruct (prompt_loop _ _) as [[d r] e]. by eexists _, _, _.
  - rewrite resolve_conflict_fixed by done. exists p, (w_in w), [].
    rewrite app_nil_r. by destruct w.
Qed.

(** ** The copy step *)

Lemma copy_skill_unfold src_dir dest_root p dry w :
  copy_skill src_dir dest_root p dry w =
  let dest_dir := joinpath dest_root (name src_dir) in
  if exists_ (w_fs w) dest_dir then
    match resolve_conflict dest_dir p dry w with
    | (Ret PSkip, w1) => (Ret Skip, w1)
    | (Ret PAbort, w1) => (Raise (RuntimeError "Aborted on conflict."), w1)
    | (Ret POverwrite, w1) =>
        if dry then (Ret Overwrite, w1)
        else match rmtree (w_fs w1) dest_dir with
             | Some fs1 => do_copy src_dir dest_dir Overwrite (with_fs w1 fs1)
             | None => (Raise OSError, w1)
             end
    | (Ret PAsk, w1) =>
        if dry then (Ret Copy, w1) else do_copy src_dir dest_dir Copy w1
    | (Raise e, w1) => (Raise e, w1)
    end
  else if dry then (Ret Copy, w) else do_copy src_dir dest_dir Copy w.
Proof.
  unfold copy_skill, bind, fs_read, do_copy. simpl.
  destruct (exists_ (w_fs w) _).
  - destruct (resolve_conflict _ p dry w) as [[[]|e] w1]; try done;
      destruct dry; try done; unfold fs_update, ret; simpl.
    + by destruct (copytree _ _ _).
    + destruct (rmtree _ _); [|done]. simpl. by destruct (copytree _ _ _).
  - unfold ret. destruct dry; [done|]. unfold fs_update.
    by destruct (copytree _ _ _).
Qed.

Lemma do_copy_fs_inv src dst a w r w' :
  do_copy src dst a w = (r, w') →
  (r = Raise OSError ∧ w' = w ∧ copytree (w_fs w) src dst = None)
  ∨ (∃ fs', copytree (w_fs w) src dst = Some fs' ∧ r = Ret a ∧ w' = with_fs w fs').
Proof.
  unfold do_copy. destruct (copytree _ _ _) as [fs'|]; intros [= <- <-]; eauto.
Qed.

(** In preview mode the copy step leaves the store as it found it. *)
Lemma copy_skill_preview_fs src_dir dest_root p w :
  w_fs (copy_skill src_dir dest_root p true w).2 = w_fs w.
Proof.
  rewrite copy_skill_unfold. simpl.
  destruct (exists_ _ _); [|done].
  destruct (resolve_conflict_returns (joinpath dest_root (name src_dir)) p true w)
    as (d & rest & evs & -> & _).
  by destruct d.
Qed.

(** The copy step raises [RuntimeError] exactly when the destination exists
    and the resolver says abort; the store is then untouched. *)
Lemma copy_skill_abort src_dir dest_root p dry w w1 :
  exists_ (w_fs w) (joinpath dest_root (name src_dir)) = true →
  resolve_conflict (joinpath dest_root (name src_dir)) p dry w = (Ret PAbort, w1) →
  copy_skill src_dir dest_root p dry w
  = (Raise (RuntimeError "Aborted on conflict."), w1)
  ∧ w_fs w1 = w_fs w.
Proof.
  intros Hex Hr. rewrite copy_skill_unfold. simpl. rewrite Hex, Hr.
  split; [done|].
  destruct (resolve_conflict_returns (joinpath dest_root (name src_dir)) p dry w)
    as (d & rest & evs & Hr' & _).
  rewrite Hr in Hr'. by simplify_eq.
Qed.

Lemma copy_skill_RuntimeError src_dir dest_root p dry w msg w' :
  copy_skill src_dir dest_root p dry w = (Raise (RuntimeError msg), w') →
  exists_ (w_fs w) (joinpath dest_root (name src_dir)) = true
  ∧ resolve_conflict (joinpath dest_root (name src_dir)) p dry w = (Ret PAbort, w')
  ∧ w_fs w' = w_fs w.
Proof.
  rewrite copy_skill_unfold. simpl.
  set (dst := joinpath dest_root (name src_dir)).
  destruct (resolve_conflict_returns dst p dry w) as (d & rest & evs & Hr & Hd).
  destruct (exists_ (w_fs w) dst) eqn:Hex.
  - rewrite Hr. destruct d; try done.
    + destruct dry; [done|]. simpl.
      destruct (rmtree _ _); [|done]. intros H.
      apply do_copy_fs_inv in H as [(?&?&?)|(?&?&?&?)]; done.
    + intros H. by simplify_eq/=.
  - destruct dry; [done|]. intros H.
    apply do_copy_fs_inv in H as [(?&?&?)|(?&?&?&?)]; done.
Qed.

(** What a completed copy step did, outside preview mode. *)
Lemma copy_skill_Ret src_dir dest_root p w a w' :
  copy_skill src_dir dest_root p false w = (Ret a, w') →
  let dest_dir := joinpath dest_root (name src_dir) in
  (a = Skip ∧ is_Some (w_fs w !! dest_dir) ∧ w_fs w' = w_fs w)
  ∨ (a = Copy ∧ w_fs w !! dest_dir = None
     ∧ copytree (w_fs w) src_dir dest_dir = Some (w_fs w'))
  ∨ (a = Overwrite ∧ is_Some (w_fs w !! dest_dir)
     ∧ ∃ fs1, rmtree (w_fs w) dest_dir = Some fs1
              ∧ copytree fs1 src_dir dest_dir = Some (w_fs w')).
Proof.
  rewrite copy_skill_unfold. simpl.
  set (dst := joinpath dest_root (name src_dir)).
  destruct (resolve_conflict_returns dst p false w) as (d & rest & evs & Hr & Hd).
  destruct (exists_ (w_fs w) dst) eqn:Hex.
  - apply exists_true in Hex. rewrite Hr. destruct d; try done.
    + intros H. simplify_eq/=. by left.
    + simpl. destruct (rmtree _ _) as [fs1|] eqn:Hrm; [|done]. intros H.
      apply do_copy_fs_inv in H as [(?&?&?)|(fs'&Hc&?&?)]; [done|].
      simplify_eq/=. right. right. eauto.
  - apply exists_false in Hex. intros H.
    apply do_copy_fs_inv in H as [(?&?&?)|(fs'&Hc&?&?)]; [done|].
    simplify_eq/=. right. left. done.
Qed.

(** ** Overwriting one skill *)

Lemma relative_to_app_None p q rel :
  relative_to p q = None → relative_to q p = None → relative_to p (q ++ rel) = None.
Proof.
  intros H1 H2. apply relative_to_None. intros r Hr.
  pose proof (proj1 (relative_to_None _ _) H1) as H1'.
  pose proof (proj1 (relative_to_None _ _) H2) as H2'.
  destruct (prefix_weak_total p q (q ++ rel)) as [[k Hk]|[k Hk]].
  - by exists r.
  - by exists rel.
  - by apply (H1' k).
  - by apply (H2' k).
Qed.

Lemma wf_ancestor fs p rel :
  wf fs → is_Some (fs !! (p ++ rel)) → rel ≠ [] → fs !! p = Some Dir.
Proof.
  intros Hwf. induction rel as [|n rel IH] using rev_ind; [done|].
  intros Hk _. rewrite (assoc_L (++)) in Hk. apply Hwf in Hk as [_ Hk].
  destruct (decide (rel = [])) as [->|Hne].
  - by rewrite app_nil_r in Hk.
  - apply IH; [by rewrite Hk|done].
Qed.

Lemma wf_no_file_above fs p q :
  wf fs → is_Some (fs !! p) → is_Some (relative_to q p) → q ≠ p →
  fs !! q = Some Dir.
Proof.
  intros Hwf Hp [rel Hq] Hne. apply relative_to_Some in Hq. subst p.
  apply (wf_ancestor fs q rel); [done..|].
  intros ->. by rewrite app_nil_r in Hne.
Qed.

Lemma overwrite_store fs src dst :
  wf fs → fs !! src = Some Dir → fs !! dst = Some Dir →
  relative_to src dst = None → relative_to dst src = None →
  ∃ fs1 fs2,
    rmtree fs dst = Some fs1 ∧ copytree fs1 src dst = Some fs2
    ∧ (∀ rel, fs2 !! (dst ++ rel) = fs !! (src ++ rel))
    ∧ (∀ k, relative_to dst k = None → fs2 !! k = fs !! k).
Proof.
  intros Hwf Hsrc Hdst Hsd Hds.
  destruct (rmtree_Some fs dst Hdst) as [fs1 Hrm]. exists fs1.
  assert (Hout : ∀ k, relative_to dst k = None → fs1 !! k = fs !! k).
  { intros k Hk. by rewrite (lookup_rmtree _ _ _ _ Hrm), Hk. }
  assert (Hin : ∀ rel, fs1 !! (dst ++ rel) = None).
  { intros rel. by rewrite (lookup_rmtree _ _ _ _ Hrm), relative_to_app. }
  assert (Hsrc1 : ∀ rel, fs1 !! (src ++ rel) = fs !! (src ++ rel)).
  { intros rel. apply Hout. by apply relative_to_app_None. }
  assert (Habove : ∀ q, is_Some (relative_to q dst) → q ≠ dst → fs !! q = Some Dir).
  { intros q Hq Hne. apply (wf_no_file_above fs dst q); eauto. }
  destruct (copytree_Some fs1 src dst) as [fs2 Hcp].
  - rewrite <-(app_nil_r src), Hsrc1. by rewrite app_nil_r.
  - rewrite <-(app_nil_r dst). apply Hin.
  - done.
  - intros q Hq. unfold is_file.
    destruct (decide (q = dst)) as [->|Hne].
    + rewrite <-(app_nil_r dst). by rewrite Hin.
    + destruct (relative_to dst q) as [r|] eqn:E.
      * apply relative_to_Some in E. subst q. by rewrite Hin.
      * by rewrite Hout, (Habove q).
  - exists fs2. split; [done|]. split; [done|]. split.
    + intros rel.
      destruct (lookup_copytree _ _ _ _ (dst ++ rel) Hcp) as [fsm' [Hmk' ->]].
      rewrite relative_to_app, Hsrc1.
      destruct (fs !! (src ++ rel)) as [v|] eqn:Ev; [done|].
      rewrite (lookup_makedirs _ _ _ _ Hmk'), Hin.
      destruct (relative_to (dst ++ rel) dst) as [r|] eqn:E; [|done].
      apply relative_to_Some in E. rewrite <-(assoc_L (++)) in E.
      rewrite <-(app_nil_r dst) in E at 1. apply app_inv_head in E.
      symmetry in E. apply app_eq_nil in E as [-> _].
      rewrite app_nil_r in Ev. congruence.
    + intros k Hk.
      destruct (lookup_copytree _ _ _ _ k Hcp) as [fsm' [Hmk' ->]].
      rewrite Hk, (lookup_makedirs _ _ _ _ Hmk'), Hout by done.
      destruct (fs !! k) as [v|] eqn:Ev; [done|].
      destruct (relative_to k dst) as [r|] eqn:E; [|done].
      rewrite Habove in Ev; [done|by rewrite E|].
      intros ->. by rewrite relative_to_refl in Hk.
Qed.

(** ** Computations that leave the store alone *)

Lemma fs_pure_ret {A} (a : A) : fs_pure (ret a).
Proof. done. Qed.

Lemma fs_pure_raise {A} e : fs_pure (@raise A e).
Proof. done. Qed.

Lemma fs_pure_bind {A B} (m : M A) (k : A → M B) :
  fs_pure m → (∀ a, fs_pure (k a)) → fs_pure (bind m k).
Proof.
  intros Hm Hk w. unfold bind. specialize (Hm w).
  destruct (m w) as [[a|e] w1]; simpl in *; [|done].
  by rewrite Hk.
Qed.

Lemma fs_pure_emit e : fs_pure (emit e).
Proof. done. Qed.

Lemma fs_pure_print line : fs_pure (print line).
Proof. done. Qed.

Lemma fs_pure_print_err line : fs_pure (print_err line).
Proof. done. Qed.

Lemma fs_pure_fs_read {A} (f : tree → A) : fs_pure (fs_read f).
Proof. done. Qed.

Lemma fs_pure_fs_try {A} (f : tree → option A) : fs_pure (fs_try f).
Proof. intros w. unfold fs_try. by destruct (f _). Qed.

Lemma fs_pure_try_except {A} (m : M A) h :
  fs_pure m → (∀ msg, fs_pure (h msg)) → fs_pure (try_except m h).
Proof.
  intros Hm Hh w. unfold try_except. specialize (Hm w).
  destruct (m w) as [[a|[msg|]] w1]; simpl in *; try done.
  by rewrite Hh.
Qed.

Create HintDb pure discriminated.
Global Hint Resolve fs_pure_ret fs_pure_raise fs_pure_emit fs_pure_print
  fs_pure_print_err fs_pure_fs_read fs_pure_fs_try : pure.

Ltac pure_step :=
  repeat
    lazymatch goal with
    | |- fs_pure (bind _ _) => apply fs_pure_bind; [|intros ?]
    | |- fs_pure (try_except _ _) => apply fs_pure_try_except; [|intros ?]
    | |- fs_pure (match ?x with _ => _ end) => destruct x
    | |- fs_pure _ => solve [auto with pure]
    end.

Lemma fs_pure_resolve_conflict dest_dir p dry : fs_pure (resolve_conflict dest_dir p dry).
Proof.
  intros w.
  destruct (resolve_conflict_returns dest_dir p dry w) as (d & r & e & -> & _).
  done.
Qed.

Lemma fs_pure_copy_skill src_dir dest_root p : fs_pure (copy_skill src_dir dest_root p true).
Proof. intros w. apply copy_skill_preview_fs. Qed.

Lemma fs_pure_validate sources : fs_pure (validate sources).
Proof. induction sources as [|[p r] rest IH]; simpl; pure_step. Qed.

Lemma fs_pure_scan_sources valid : fs_pure (scan_sources valid).
Proof. induction valid as [|[p r] rest IH]; simpl; pure_step. Qed.

Lemma fs_pure_print_sources valid : fs_pure (print_sources valid).
Proof. induction valid as [|[p r] rest IH]; simpl; pure_step. Qed.

Global Hint Resolve fs_pure_resolve_conflict fs_pure_copy_skill
  fs_pure_validate fs_pure_scan_sources fs_pure_print_sources : pure.

Lemma fs_pure_prepare home args : fs_pure (prepare home args).
Proof. unfold prepare. pure_step. Qed.

Lemma fs_pure_announce args valid skills : fs_pure (announce args valid skills).
Proof. unfold announce. pure_step. Qed.

Lemma fs_pure_copy_loop args skills counts :
  dry_run args = true → fs_pure (copy_loop args skills counts).
Proof.
  intros Hdry. revert counts.
  induction skills as [|s rest IH]; intros counts; simpl; rewrite ?Hdry;
    pure_step.
Qed.

Lemma fs_pure_prune_loop names dest_skills pruned :
  fs_pure (prune_loop names true dest_skills pruned).
Proof.
  revert pruned. induction dest_skills as [|d rest IH]; intros pruned; simpl.
  - pure_step.
  - case_bool_decide; pure_step.
Qed.

Lemma fs_pure_prune_dest names dest_root : fs_pure (prune_dest names dest_root true).
Proof. unfold prune_dest. pure_step. apply fs_pure_prune_loop. Qed.

Global Hint Resolve fs_pure_prepare fs_pure_announce fs_pure_prune_dest : pure.

Lemma fs_pure_run args valid skills :
  dry_run args = true → fs_pure (run args valid skills).
Proof.
  intros Hdry. unfold run, ensure_dest, copy_all, prune_step. rewrite Hdry.
  pure_step. by apply fs_pure_copy_loop.
Qed.

Lemma fs_pure_main home args : dry_run args = true → fs_pure (main home args).
Proof.
  intros Hdry. unfold main. pure_step. by apply fs_pure_run.
Qed.

(** ** The blocks of [main] as functions of the store *)

Lemma say_nil w : say w [] = w.
Proof. destruct w. unfold say. simpl. by rewrite app_nil_r. Qed.

Lemma say_say w e1 e2 : say (say w e1) e2 = say w (e1 ++ e2).
Proof. unfold say. simpl. by rewrite (assoc_L (++)). Qed.

Lemma print_say line w : print line w = (Ret (), say w [Print line]).
Proof. done. Qed.

Lemma print_err_say line w : print_err line w = (Ret (), say w [PrintErr line]).
Proof. done. Qed.

Lemma validate_spec sources w :
  validate sources w
  = (Ret (valid_of (w_fs w) sources), say w (validate_log (w_fs w) sources)).
Proof.
  revert w. induction sources as [|[p r] rest IH]; intros w.
  { simpl. by rewrite say_nil. }
  simpl. unfold valid_of. rewrite filter_cons_bool. simpl.
  unfold bind at 1. unfold fs_read at 1. simpl.
  destruct (exists_ (w_fs w) p) eqn:Hex; simpl.
  - unfold bind at 1. unfold fs_read at 1. simpl.
    destruct (is_dir (w_fs w) p) eqn:Hd; simpl.
    + unfold bind. rewrite IH. done.
    + unfold bind. rewrite print_err_say, IH. simpl. by rewrite say_say.
  - assert (is_dir (w_fs w) p = false) as ->.
    { apply exists_false in Hex. unfold is_dir. rewrite Hex.
      by apply bool_decide_eq_false_2. }
    unfold bind. rewrite print_err_say, IH. simpl. by rewrite say_say.
Qed.

Lemma scan_sources_spec valid w :
  scan_sources valid w
  = match discover (w_fs w) valid with
    | Some skills => (Ret skills, w)
    | None => (Raise OSError, w)
    end.
Proof.
  induction valid as [|[p r] rest IH]; [done|]. simpl.
  unfold bind at 1. unfold fs_try at 1.
  destruct (list_skill_dirs (w_fs w) p r) as [found|]; [|done].
  unfold bind. rewrite IH. by destruct (discover (w_fs w) rest).
Qed.

Lemma print_sources_spec valid w :
  print_sources valid w
  = (Ret (), say w ((λ s : path * bool,
         Print ("- " +:+ show_path s.1 +:+ " ("
                +:+ (if s.2 then "recursive" else "direct") +:+ ")")) <$> valid)).
Proof.
  revert w. induction valid as [|[p r] rest IH]; intros w.
  { simpl. by rewrite say_nil. }
  simpl. unfold bind. rewrite print_say, IH. by rewrite say_say.
Qed.

Lemma announce_spec args valid skills w :
  announce args valid skills w = (Ret (), say w (announce_log args valid skills)).
Proof.
  unfold announce, announce_log, bind.
  rewrite !print_say, print_sources_spec, !print_say, !say_say. done.
Qed.

Lemma prepare_spec home args w :
  prepare home args w =
  if usage_error args
  then (Ret (inl 1), say w [PrintErr "--prune is only valid with --mode sync."])
  else
    let fs := w_fs w in
    let valid := valid_of fs (configured_sources home args) in
    let w1 := say w (validate_log fs (configured_sources home args)) in
    if bool_decide (valid = [])
    then (Ret (inl 1), say w1 [PrintErr "No valid sources found."])
    else match discover fs valid with
         | None => (Raise OSError, w1)
         | Some skills =>
             if bool_decide (skills = [])
             then (Ret (inl 0), say w1 [Print "No skills found in the provided sources."])
             else (Ret (inr (valid, skills)), w1)
         end.
Proof.
  unfold prepare, usage_error. destruct (_ && _); [done|].
  unfold bind at 1. rewrite validate_spec. simpl.
  case_bool_decide; [done|].
  unfold bind at 1. rewrite scan_sources_spec. simpl.
  destruct (discover _ _) as [skills|]; [|done].
  by case_bool_decide.
Qed.

Lemma ensure_dest_spec args w :
  ensure_dest args w =
  if exists_ (w_fs w) (dest args) then (Ret (), w)
  else if dry_run args
  then (Ret (), say w [Print ("DRY RUN: would create destination "
                               +:+ show_path (dest args))])
  else match makedirs (w_fs w) (dest args) with
       | Some fs' => (Ret (), with_fs w fs')
       | None => (Raise OSError, w)
       end.
Proof.
  unfold ensure_dest, bind, fs_read. simpl.
  destruct (exists_ _ _); [done|]. simpl. by destruct (dry_run args).
Qed.

(** The copy loop, one skill at a time. *)
Lemma copy_loop_cons args s rest counts w :
  copy_loop args (s :: rest) counts w =
  match copy_skill s (dest args) (conflict args) (dry_run args) w with
  | (Ret a, w1) =>
      copy_loop args rest (bump a counts)
        (say w1 [Print (action_line a s (dest args))])
  | (Raise e, w1) => (Raise e, w1)
  end.
Proof.
  simpl. unfold bind at 1. by destruct (copy_skill _ _ _ _ _) as [[a|e] w1].
Qed.

Lemma copy_loop_app args l1 l2 counts w :
  copy_loop args (l1 ++ l2) counts w =
  match copy_loop args l1 counts w with
  | (Ret c1, w1) => copy_loop args l2 c1 w1
  | (Raise e, w1) => (Raise e, w1)
  end.
Proof.
  revert counts w. induction l1 as [|s l1 IH]; intros counts w; [done|].
  rewrite <-app_comm_cons, !copy_loop_cons.
  destruct (copy_skill _ _ _ _ _) as [[a|e] w1]; [|done]. apply IH.
Qed.

Lemma copy_all_spec args skills w :
  copy_all args skills w =
  match copy_loop args skills no_counts w with
  | (Ret counts, w1) => (Ret (Some counts), w1)
  | (Raise (RuntimeError msg), w1) => (Ret None, say w1 [PrintErr msg])
  | (Raise OSError, w1) => (Raise OSError, w1)
  end.
Proof.
  unfold copy_all, try_except, bind.
  by destruct (copy_loop _ _ _ _) as [[c|[msg|]] w1].
Qed.

Lemma run_spec args valid skills w :
  run args valid skills w =
  match ensure_dest args w with
  | (Raise e, w1) => (Raise e, w1)
  | (Ret _, w1) =>
      match copy_all args skills (say w1 (announce_log args valid skills)) with
      | (Raise e, w2) => (Raise e, w2)
      | (Ret None, w2) => (Ret 2, w2)
      | (Ret (Some counts), w2) =>
          match prune_step args skills w2 with
          | (Raise e, w3) => (Raise e, w3)
          | (Ret pruned, w3) =>
              (Ret 0, say w3 [Print (summary_line args counts pruned)])
          end
      end
  end.
Proof.
  unfold run. unfold bind at 1.
  destruct (ensure_dest args w) as [[[]|e] w1]; [|done].
  unfold bind at 1. rewrite announce_spec.
  unfold bind at 1.
  destruct (copy_all _ _ _) as [[[counts|]|e] w2]; try done.
Qed.

Lemma main_spec home args w :
  main home args w =
  match prepare home args w with
  | (Raise e, w1) => (Raise e, w1)
  | (Ret (inl code), w1) => (Ret code, w1)
  | (Ret (inr (valid, skills)), w1) => run args valid skills w1
  end.
Proof.
  unfold main, bind.
  by destruct (prepare home args w) as [[[code|[valid skills]]|e] w1].
Qed.

(** ** Pruning *)

Lemma stale_cons names d rest :
  stale names (d :: rest)
  = if bool_decide (name d ∈ names) then stale names rest
    else d :: stale names rest.
Proof.
  unfold stale. rewrite filter_cons. case_bool_decide.
  - by rewrite decide_False by auto.
  - by rewrite decide_True.
Qed.

Lemma prune_loop_preview names dest_skills pruned w :
  prune_loop names true dest_skills pruned w
  = (Ret (pruned + length (stale names dest_skills)),
     say w (prune_line <$> stale names dest_skills)).
Proof.
  revert pruned w. induction dest_skills as [|d rest IH]; intros pruned w.
  { simpl. rewrite say_nil. by rewrite Nat.add_0_r. }
  simpl. rewrite stale_cons. case_bool_decide; [apply IH|].
  unfold bind. rewrite print_say, IH. simpl. rewrite say_say.
  f_equal. f_equal. lia.
Qed.

Lemma prune_loop_real names dest_skills pruned w :
  match prune_store names (w_fs w) dest_skills with
  | Some fs' =>
      prune_loop names false dest_skills pruned w
      = (Ret (pruned + length (stale names dest_skills)), with_fs w fs')
  | None => ∃ w', prune_loop names false dest_skills pruned w = (Raise OSError, w')
  end.
Proof.
  revert pruned w. induction dest_skills as [|d rest IH]; intros pruned w.
  { simpl. rewrite Nat.add_0_r. by destruct w. }
  simpl. rewrite stale_cons. case_bool_decide; [apply IH|].
  unfold bind, fs_update.
  destruct (rmtree (w_fs w) d) as [fs1|]; [|eauto].
  specialize (IH (S pruned) (World fs1 (w_in w) (w_out w))). simpl in IH.
  destruct (prune_store names fs1 rest) as [fs'|]; [|done].
  rewrite IH. simpl. f_equal. f_equal. lia.
Qed.

Lemma lookup_prune_store names fs dest_skills fs' k :
  prune_store names fs dest_skills = Some fs' →
  fs' !! k = if below_any (stale names dest_skills) k then None else fs !! k.
Proof.
  revert fs. induction dest_skills as [|d rest IH]; intros fs; simpl.
  { by intros [= <-]. }
  rewrite stale_cons. case_bool_decide; [apply IH|].
  destruct (rmtree fs d) as [fs1|] eqn:Hrm; [|done]. intros Hrest.
  rewrite (IH _ Hrest). unfold below_any. simpl.
  rewrite (lookup_rmtree _ _ _ _ Hrm).
  destruct (existsb _ (stale names rest)).
  - by rewrite orb_true_r.
  - rewrite orb_false_r. destruct (relative_to d k) as [r|] eqn:E.
    + rewrite bool_decide_eq_true_2; eauto.
    + rewrite bool_decide_eq_false_2; [done|]. by intros [??].
Qed.

Lemma below_any_spec ds k :
  below_any ds k = true ↔ ∃ d rel, d ∈ ds ∧ k = d ++ rel.
Proof.
  unfold below_any. rewrite existsb_exists. split.
  - intros [d [Hd Hk]]. apply bool_decide_eq_true in Hk as [rel Hk].
    apply relative_to_Some in Hk. exists d, rel. split; [|done].
    by apply list_elem_of_In.
  - intros (d & rel & Hd & ->). exists d. split; [by apply list_elem_of_In|].
    apply bool_decide_eq_true. rewrite relative_to_app. eauto.
Qed.

Lemma siblings_apart (root : path) n m rel : root ++ [n] = (root ++ [m]) ++ rel → n = m.
Proof.
  rewrite <-(assoc_L (++)). intros H. apply app_inv_head in H.
  by simplify_eq/=.
Qed.

(** Removing the stale children of one directory, one after the other,
    cannot fail: each is a directory and none lies inside another. *)
Lemma prune_store_Some names fs root dest_skills :
  NoDup dest_skills →
  Forall (λ d, (∃ n, d = root ++ [n]) ∧ fs !! d = Some Dir) dest_skills →
  is_Some (prune_store names fs dest_skills).
Proof.
  intros Hnd. revert fs. induction Hnd as [|d rest Hd Hnd IH]; intros fs Hall.
  { simpl. eauto. }
  apply Forall_cons in Hall as [[[n ->] Hdir] Hall]. simpl.
  case_bool_decide; [by apply IH|].
  destruct (rmtree_Some fs _ Hdir) as [fs1 Hrm]. rewrite Hrm. apply IH.
  rewrite Forall_forall in Hall. apply Forall_forall.
  intros d' Hd'. destruct (Hall d' Hd') as [[m ->] Hdir']. split; [eauto|].
  rewrite (lookup_rmtree _ _ _ _ Hrm).
  destruct (relative_to (root ++ [n]) (root ++ [m])) as [rel|] eqn:E; [|done].
  apply relative_to_Some, siblings_apart in E. subst m. done.
Qed.

Lemma direct_children fs root l :
  list_skill_dirs fs root false = Some l →
  Forall (λ d, (∃ n, d = root ++ [n]) ∧ fs !! d = Some Dir) l.
Proof.
  intros H. apply Forall_forall. intros d Hd.
  apply (elem_of_direct _ _ _ _ H) in Hd as (n & -> & _ & Hdir & _). eauto.
Qed.

(** [prune_dest] in full: it raises only when the destination root cannot
    be listed. *)
Lemma prune_dest_spec names dest_root (dry : bool) w :
  match list_skill_dirs (w_fs w) dest_root false with
  | None => prune_dest names dest_root dry w = (Raise OSError, w)
  | Some dest_skills =>
      if dry then
        prune_dest names dest_root dry w
        = (Ret (length (stale names dest_skills)),
           say w (prune_line <$> stale names dest_skills))
      else
        ∃ fs', prune_store names (w_fs w) dest_skills = Some fs'
               ∧ prune_dest names dest_root dry w
                 = (Ret (length (stale names dest_skills)), with_fs w fs')
  end.
Proof.
  unfold prune_dest, bind, fs_try.
  destruct (list_skill_dirs (w_fs w) dest_root false) as [ds|] eqn:Hl; [|done].
  destruct dry.
  - by rewrite prune_loop_preview.
  - destruct (prune_store_Some names (w_fs w) dest_root ds) as [fs' Hfs'].
    + by apply (direct_sorted _ _ _ Hl).
    + by apply direct_children.
    + exists fs'. split; [done|].
      pose proof (prune_loop_real names ds 0 w) as H. by rewrite Hfs' in H.
Qed.

(** ** The scan reads only what lies below the root *)

Lemma agree_below_app root fs1 fs2 rel :
  agree_below root fs1 fs2 → fs1 !! (root ++ rel) = fs2 !! (root ++ rel).
Proof. intros H. apply H. rewrite relative_to_app. eauto. Qed.

Lemma agree_below_root root fs1 fs2 :
  agree_below root fs1 fs2 → fs1 !! root = fs2 !! root.
Proof. intros H. apply H. rewrite relative_to_refl. eauto. Qed.

Lemma filter_bool_ext {A} (f g : A → bool) (l : list A) :
  (∀ x, x ∈ l → f x = g x) → filter (λ x, f x) l = filter (λ x, g x) l.
Proof.
  induction l as [|x l IH]; intros H; [done|].
  rewrite !filter_cons_bool, (H x), IH; [done| |by left].
  intros y Hy. apply H. by right.
Qed.

Lemma is_dir_ext fs1 fs2 p : fs1 !! p = fs2 !! p → is_dir fs1 p = is_dir fs2 p.
Proof. unfold is_dir. by intros ->. Qed.

Lemma is_file_ext fs1 fs2 p : fs1 !! p = fs2 !! p → is_file fs1 p = is_file fs2 p.
Proof. unfold is_file. by intros ->. Qed.

Lemma exists_ext fs1 fs2 p : fs1 !! p = fs2 !! p → exists_ fs1 p = exists_ fs2 p.
Proof. unfold exists_. by intros ->. Qed.

Lemma list_skill_dirs_ext fs1 fs2 root rec :
  agree_below root fs1 fs2 →
  list_skill_dirs fs1 root rec = list_skill_dirs fs2 root rec.
Proof.
  intros Hag. destruct rec.
  - rewrite !list_skill_dirs_recursive_eq. do 3 f_equal.
    apply sorted_ext; [apply NoDup_rglob..|].
    intros p. rewrite !elem_of_rglob, (agree_below_root _ _ _ Hag).
    split; intros (? & [rel ->] & ?); (split; [done|]); (split; [by eauto|]).
    + by rewrite <-(agree_below_app _ _ _ _ Hag).
    + by rewrite (agree_below_app _ _ _ _ Hag).
  - rewrite !list_skill_dirs_direct_eq.
    destruct (iterdir fs1 root) as [l1|] eqn:E1.
    + assert (Hd : fs2 !! root = Some Dir).
      { rewrite <-(agree_below_root _ _ _ Hag). apply is_dir_true.
        unfold iterdir in E1. by destruct (is_dir fs1 root). }
      destruct (iterdir_Some _ _ Hd) as [l2 E2]. rewrite E2. simpl. f_equal.
      assert (sorted l1 = sorted l2) as Hs.
      { apply sorted_ext; [by eapply NoDup_iterdir..|].
        intros p. rewrite (elem_of_iterdir _ _ _ _ E1), (elem_of_iterdir _ _ _ _ E2).
        split; intros [[n ->] ?]; (split; [by eauto|]).
        - by rewrite <-(agree_below_app _ _ _ _ Hag).
        - by rewrite (agree_below_app _ _ _ _ Hag). }
      rewrite Hs. apply filter_bool_ext.
      intros e He. rewrite elem_of_sorted in He.
      apply (elem_of_iterdir _ _ _ _ E2) in He as [[n ->] _].
      unfold entry_ok. f_equal; [f_equal|].
      * apply is_dir_ext, (agree_below_app _ _ _ _ Hag).
      * apply is_file_ext. rewrite <-(assoc_L (++)).
        apply (agree_below_app _ _ _ _ Hag).
    + rewrite iterdir_None; [done|].
      rewrite <-(agree_below_root _ _ _ Hag). intros Hd.
      apply iterdir_Some in Hd as [? ?]. congruence.
Qed.

Lemma discover_ext fs1 fs2 valid :
  (∀ s, s ∈ valid → agree_below s.1 fs1 fs2) →
  discover fs1 valid = discover fs2 valid.
Proof.
  induction valid as [|[p r] rest IH]; intros H; [done|]. simpl.
  rewrite (list_skill_dirs_ext fs1 fs2 p r), IH; [done| |].
  - intros s Hs. apply H. by right.
  - apply (H (p, r)). by left.
Qed.

Lemma valid_of_ext fs1 fs2 sources :
  (∀ s, s ∈ sources → fs1 !! s.1 = fs2 !! s.1) →
  valid_of fs1 sources = valid_of fs2 sources.
Proof.
  intros H. unfold valid_of. apply filter_bool_ext.
  intros s Hs. by apply is_dir_ext, H.
Qed.

Lemma elem_of_valid_of fs sources s :
  s ∈ valid_of fs sources ↔ fs !! s.1 = Some Dir ∧ s ∈ sources.
Proof.
  unfold valid_of. by rewrite list_elem_of_filter, Is_true_true, is_dir_true.
Qed.

Lemma validate_log_ext fs1 fs2 sources :
  (∀ s, s ∈ sources → fs1 !! s.1 = fs2 !! s.1) →
  validate_log fs1 sources = validate_log fs2 sources.
Proof.
  induction sources as [|[p r] rest IH]; intros H; [done|]. simpl.
  assert (fs1 !! p = fs2 !! p) as Hp by (apply (H (p, r)); by left).
  rewrite (exists_ext _ _ _ Hp), (is_dir_ext _ _ _ Hp), IH; [done|].
  intros s Hs. apply H. by right.
Qed.

Lemma subtree_agree fs1 fs2 root :
  subtree fs1 root = subtree fs2 root → agree_below root fs1 fs2.
Proof.
  intros H k [rel Hk]. apply relative_to_Some in Hk. subst k.
  by rewrite <-!lookup_subtree, H.
Qed.

(** ** Copying never loses an entry *)

Lemma makedirs_mono fs p fs' k :
  makedirs fs p = Some fs' → is_Some (fs !! k) → is_Some (fs' !! k).
Proof.
  intros H [v Hv]. rewrite (lookup_makedirs _ _ _ _ H), Hv. eauto.
Qed.

Lemma makedirs_target fs p fs' :
  makedirs fs p = Some fs' → is_Some (fs' !! p).
Proof.
  intros H. rewrite (lookup_makedirs _ _ _ _ H), relative_to_refl.
  destruct (fs !! p); eauto.
Qed.

Lemma copytree_mono fs src dst fs' k :
  copytree fs src dst = Some fs' → is_Some (fs !! k) → is_Some (fs' !! k).
Proof.
  intros H Hk. destruct (lookup_copytree _ _ _ _ k H) as [fs1 [Hmk ->]].
  pose proof (makedirs_mono _ _ _ _ Hmk Hk) as Hk1.
  destruct (relative_to dst k) as [rel|]; [|done].
  destruct (fs !! (src ++ rel)); eauto.
Qed.

Lemma copytree_target fs src dst fs' :
  copytree fs src dst = Some fs' → fs' !! dst = Some Dir.
Proof.
  intros H. destruct (lookup_copytree _ _ _ _ dst H) as [fs1 [Hmk ->]].
  apply copytree_Some_inv in H as (Hsrc & _ & _).
  by rewrite relative_to_refl, app_nil_r, Hsrc.
Qed.

(** ** The copy loop under the [skip] policy *)

Lemma copy_skill_skip_present src_dir dest_root dry w :
  is_Some (w_fs w !! joinpath dest_root (name src_dir)) →
  copy_skill src_dir dest_root PSkip dry w = (Ret Skip, w).
Proof.
  intros Hex. rewrite copy_skill_unfold. cbv zeta.
  apply exists_true in Hex. rewrite Hex.
  by rewrite resolve_conflict_fixed.
Qed.

Lemma copy_skill_skip_Ret src_dir dest_root w a w' :
  copy_skill src_dir dest_root PSkip false w = (Ret a, w') →
  (∀ k, is_Some (w_fs w !! k) → is_Some (w_fs w' !! k))
  ∧ is_Some (w_fs w' !! joinpath dest_root (name src_dir)).
Proof.
  intros H.
  destruct (copy_skill_Ret _ _ _ _ _ _ H)
    as [(-> & Hex & ->)|[(-> & Hno & Hcp)|(-> & Hex & _)]].
  - done.
  - split; [intros k; by apply (copytree_mono _ _ _ _ _ Hcp)|].
    rewrite (copytree_target _ _ _ _ Hcp). eauto.
  - by rewrite copy_skill_skip_present in H.
Qed.

Lemma copy_loop_skip_Ret args skills counts w counts' w' :
  conflict args = PSkip → dry_run args = false →
  copy_loop args skills counts w = (Ret counts', w') →
  (∀ k, is_Some (w_fs w !! k) → is_Some (w_fs w' !! k))
  ∧ (∀ s, s ∈ skills → is_Some (w_fs w' !! dest_of args s)).
Proof.
  intros Hp Hd. revert counts w.
  induction skills as [|s rest IH]; intros counts w.
  { simpl. intros [= <- <-]. split; [done|]. by intros s Hs%elem_of_nil. }
  rewrite copy_loop_cons, Hp, Hd.
  destruct (copy_skill _ _ _ _ _) as [[a|e] w1] eqn:Hs; [|done].
  intros Hrest. apply copy_skill_skip_Ret in Hs as [Hmono Hdst].
  apply IH in Hrest as [Hmono' Hall]. simpl in *. split.
  - intros k Hk. by apply Hmono', Hmono.
  - intros s' [->|Hs']%elem_of_cons; [|by apply Hall].
    by apply Hmono'.
Qed.

Lemma add_skips_bump n c : add_skips n (bump Skip c) = add_skips (S n) c.
Proof. unfold add_skips, bump. simpl. f_equal. lia. Qed.

Lemma copy_loop_all_skip args skills counts w :
  conflict args = PSkip →
  (∀ s, s ∈ skills → is_Some (w_fs w !! dest_of args s)) →
  copy_loop args skills counts w
  = (Ret (add_skips (length skills) counts), say w (skip_line args <$> skills)).
Proof.
  intros Hp. revert counts w.
  induction skills as [|s rest IH]; intros counts w Hall.
  { simpl. rewrite say_nil. unfold add_skips. destruct counts. simpl.
    by rewrite Nat.add_0_r. }
  rewrite copy_loop_cons, Hp, copy_skill_skip_present
    by (apply Hall; by left).
  rewrite IH by (intros s' Hs'; apply Hall; by right).
  by rewrite say_say, add_skips_bump.
Qed.

Lemma prune_step_off args skills w :
  (bool_decide (mode args = ModeSync) && prune args) = false →
  prune_step args skills w = (Ret 0, w).
Proof. intros H. unfold prune_step. by rewrite H. Qed.

Lemma ensure_dest_Ret args w w' :
  dry_run args = false →
  ensure_dest args w = (Ret (), w') →
  is_Some (w_fs w' !! dest args)
  ∧ (∀ k, is_Some (w_fs w !! k) → is_Some (w_fs w' !! k))
  ∧ w_in w' = w_in w ∧ w_out w' = w_out w.
Proof.
  intros Hd. rewrite ensure_dest_spec, Hd.
  destruct (exists_ (w_fs w) (dest args)) eqn:Hex.
  - intros [= <-]. by apply exists_true in Hex.
  - destruct (makedirs _ _) as [fs'|] eqn:Hmk; [|done]. intros [= <-]. simpl.
    split; [by eapply makedirs_target|].
    split; [|done]. intros k. by apply (makedirs_mono _ _ _ _ Hmk).
Qed.

Lemma ensure_dest_present args w :
  is_Some (w_fs w !! dest args) → ensure_dest args w = (Ret (), w).
Proof.
  intros H. rewrite ensure_dest_spec. apply exists_true in H. by rewrite H.
Qed.

Section idempotence.
Variables (home : path) (args : Args).
Hypothesis Hmode : mode args = ModeCopy.
Hypothesis Hskip : conflict args = PSkip.
Hypothesis Hreal : dry_run args = false.

(** What a completed first run establishes. *)
Lemma first_run_facts w0 w1 :
  main home args w0 = (Ret 0, w1) →
  usage_error args = false
  ∧ valid_of (w_fs w0) (configured_sources home args) ≠ []
  ∧ ∃ skills, discover (w_fs w0) (valid_of (w_fs w0) (configured_sources home args)) = Some skills
      ∧ (skills ≠ [] → is_Some (w_fs w1 !! dest args))
      ∧ (∀ s, s ∈ skills → is_Some (w_fs w1 !! dest_of args s)).
Proof.
  rewrite main_spec, prepare_spec.
  destruct (usage_error args); [done|]. cbv zeta.
  case_bool_decide as Hv; [done|].
  destruct (discover _ _) as [skills|]; [|done].
  case_bool_decide as Hs.
  { intros _. split; [done|]. split; [done|]. exists skills.
    split; [done|]. subst skills. split; [done|]. by intros s Hs%elem_of_nil. }
  rewrite run_spec.
  destruct (ensure_dest _ _) as [[[]|e] wa] eqn:He; [|done].
  apply (ensure_dest_Ret _ _ _ Hreal) in He as (Hd & _ & _ & _).
  rewrite copy_all_spec.
  destruct (copy_loop _ _ _ _) as [[c|[msg|]] wb] eqn:Hl; try done.
  apply (copy_loop_skip_Ret _ _ _ _ _ _ Hskip Hreal) in Hl as [Hmono Hall].
  rewrite prune_step_off by (by rewrite Hmode).
  intros [= <-]. simpl. split; [done|]. split; [done|]. exists skills.
  split; [done|]. split; [|done]. intros _. by apply Hmono.
Qed.

Lemma second_run w skills :
  usage_error args = false →
  valid_of (w_fs w) (configured_sources home args) ≠ [] →
  discover (w_fs w) (valid_of (w_fs w) (configured_sources home args)) = Some skills →
  (skills ≠ [] → is_Some (w_fs w !! dest args)) →
  (∀ s, s ∈ skills → is_Some (w_fs w !! dest_of args s)) →
  main home args w = (Ret 0, say w (second_run_log home args (w_fs w) skills)).
Proof.
  intros Hu Hv Hdisc Hdest Hall.
  rewrite main_spec, prepare_spec. rewrite Hu. cbv zeta.
  rewrite bool_decide_eq_false_2 by done. rewrite Hdisc.
  unfold second_run_log.
  case_bool_decide as Hs; [by rewrite say_say|].
  rewrite run_spec, ensure_dest_present by (by apply Hdest).
  rewrite copy_all_spec, copy_loop_all_skip by done.
  rewrite prune_step_off by (by rewrite Hmode).
  by rewrite !say_say.
Qed.
End idempotence.

(** ** What a real run keeps in the destination *)

Lemma wf_named fs : wf fs → named fs.
Proof.
  intros Hwf q. destruct (fs !! (q ++ [""])) as [v|] eqn:E; [|done].
  destruct (Hwf q "") as [Hn _]; [by rewrite E|done].
Qed.

Lemma named_name fs s : named fs → is_Some (fs !! s) → s ≠ [] → name s ≠ "".
Proof.
  intros Hn Hs Hne Hname. destruct s as [|a s _] using rev_ind; [done|].
  rewrite name_snoc in Hname. subst a. rewrite Hn in Hs. by destruct Hs.
Qed.

Lemma named_rmtree fs p fs' : named fs → rmtree fs p = Some fs' → named fs'.
Proof.
  intros Hn Hrm q. rewrite (lookup_rmtree _ _ _ _ Hrm).
  by destruct (relative_to p (q ++ [""])).
Qed.

Lemma prefix_snoc_elem (q p : path) (x : string) rel :
  p = (q ++ [x]) ++ rel → x ∈ p.
Proof. intros ->. set_solver. Qed.

Lemma named_makedirs fs p fs' :
  named fs → "" ∉ p → makedirs fs p = Some fs' → named fs'.
Proof.
  intros Hn Hp Hmk q. rewrite (lookup_makedirs _ _ _ _ Hmk), Hn.
  destruct (relative_to (q ++ [""]) p) as [rel|] eqn:E; [|done].
  apply relative_to_Some, prefix_snoc_elem in E. done.
Qed.

Lemma named_copytree fs src dst fs' :
  named fs → "" ∉ dst → copytree fs src dst = Some fs' → named fs'.
Proof.
  intros Hn Hd Hcp q.
  destruct (lookup_copytree _ _ _ _ (q ++ [""]) Hcp) as [fsm [Hmk ->]].
  pose proof (named_makedirs _ _ _ Hn Hd Hmk q) as Hm.
  destruct (relative_to dst (q ++ [""])) as [rel|] eqn:E; [|done].
  destruct (fs !! (src ++ rel)) as [v|] eqn:Ev; [|done]. exfalso.
  apply relative_to_Some in E.
  destruct rel as [|x rel _] using rev_ind.
  - rewrite app_nil_r in E. subst dst. apply Hd. set_solver.
  - rewrite (assoc_L (++)) in E. apply app_inj_tail in E as [_ <-].
    rewrite (assoc_L (++)), Hn in Ev. done.
Qed.

(** The destination of a skill that is copied is a true child of the
    destination root. *)
Lemma copied_dest_child fs src_dir dest_root fs' :
  named fs → copytree fs src_dir (joinpath dest_root (name src_dir)) = Some fs' →
  name src_dir ≠ "".
Proof.
  intros Hn Hcp. apply copytree_Some_inv in Hcp as (Hsrc & _ & Hrel).
  apply (named_name fs); [done|by rewrite Hsrc|].
  intros ->. done.
Qed.

Lemma joinpath_apart dest_root n m :
  m ≠ "" → n ≠ m → relative_to (dest_root ++ [m]) (joinpath dest_root n) = None.
Proof.
  intros Hm Hnm. apply relative_to_None. intros rel. unfold joinpath.
  case_decide.
  - intros Heq. apply (f_equal length) in Heq. rewrite !length_app in Heq.
    simpl in Heq. lia.
  - intros Heq. apply siblings_apart in Heq. done.
Qed.

(** One completed copy step, outside preview mode: the skill's destination
    exists, no destination that existed is lost, names stay non-empty. *)
Lemma copy_skill_keeps src_dir dest_root p w a w' :
  named (w_fs w) → "" ∉ dest_root →
  copy_skill src_dir dest_root p false w = (Ret a, w') →
  named (w_fs w')
  ∧ is_Some (w_fs w' !! joinpath dest_root (name src_dir))
  ∧ (∀ n, is_Some (w_fs w !! joinpath dest_root n) →
          is_Some (w_fs w' !! joinpath dest_root n)).
Proof.
  intros Hn Hd H.
  destruct (copy_skill_Ret _ _ _ _ _ _ H)
    as [(-> & Hex & ->)|[(-> & Hno & Hcp)|(-> & Hex & fs1 & Hrm & Hcp)]].
  - done.
  - pose proof (copied_dest_child _ _ _ _ Hn Hcp) as Hname.
    split; [|split].
    + apply (named_copytree _ _ _ _ Hn) in Hcp; [done|].
      rewrite joinpath_snoc by done. set_solver.
    + rewrite (copytree_target _ _ _ _ Hcp). eauto.
    + intros n. by apply (copytree_mono _ _ _ _ _ Hcp).
  - pose proof (named_rmtree _ _ _ Hn Hrm) as Hn1.
    pose proof (copied_dest_child _ _ _ _ Hn1 Hcp) as Hname.
    split; [|split].
    + apply (named_copytree _ _ _ _ Hn1) in Hcp; [done|].
      rewrite joinpath_snoc by done. set_solver.
    + rewrite (copytree_target _ _ _ _ Hcp). eauto.
    + intros n Hpres. destruct (decide (n = name src_dir)) as [->|Hne].
      * rewrite (copytree_target _ _ _ _ Hcp). eauto.
      * apply (copytree_mono _ _ _ _ _ Hcp).
        rewrite (lookup_rmtree _ _ _ _ Hrm).
        rewrite (joinpath_snoc _ (name src_dir)) by done.
        by rewrite joinpath_apart.
Qed.

Lemma copy_loop_keeps args skills counts w counts' w' :
  named (w_fs w) → "" ∉ dest args → dry_run args = false →
  copy_loop args skills counts w = (Ret counts', w') →
  named (w_fs w')
  ∧ (∀ n, is_Some (w_fs w !! joinpath (dest args) n) →
          is_Some (w_fs w' !! joinpath (dest args) n))
  ∧ (∀ s, s ∈ skills → is_Some (w_fs w' !! dest_of args s)).
Proof.
  intros Hn Hd Hreal. revert counts w Hn.
  induction skills as [|s rest IH]; intros counts w Hn.
  { simpl. intros [= <- <-]. split; [done|]. split; [done|].
    by intros s Hs%elem_of_nil. }
  rewrite copy_loop_cons, Hreal.
  destruct (copy_skill _ _ _ _ _) as [[a|e] w1] eqn:Hs; [|done].
  intros Hrest.
  apply (copy_skill_keeps _ _ _ _ _ _ Hn Hd) in Hs as (Hn1 & Hdst & Hkeep).
  apply IH in Hrest as (Hn' & Hkeep' & Hall); [|done]. simpl in *.
  split; [done|]. split.
  - intros n Hpres. by apply Hkeep', Hkeep.
  - intros s' [->|Hs']%elem_of_cons; [|by apply Hall].
    by apply Hkeep'.
Qed.

(** ** Runs keep the store well formed *)

Lemma wf_None_below fs p rel : wf fs → fs !! p = None → fs !! (p ++ rel) = None.
Proof.
  intros Hwf Hp. destruct (decide (rel = [])) as [->|Hne].
  { by rewrite app_nil_r. }
  destruct (fs !! (p ++ rel)) as [v|] eqn:E; [|done].
  rewrite (wf_ancestor fs p rel) in Hp; [done..| |done]. by rewrite E.
Qed.

Lemma wf_rmtree fs p fs' : wf fs → rmtree fs p = Some fs' → wf fs'.
Proof.
  intros Hwf Hrm q n. rewrite !(lookup_rmtree _ _ _ _ Hrm).
  destruct (relative_to p (q ++ [n])) as [r|] eqn:E; [by intros [??]|].
  intros Hk. destruct (Hwf q n Hk) as [Hn Hq]. split; [done|].
  destruct (relative_to p q) as [r|] eqn:E'; [|done].
  apply relative_to_Some in E'. subst q.
  by rewrite <-(assoc_L (++)), relative_to_app in E.
Qed.

Lemma relative_to_snoc_parent (q p : path) n :
  is_Some (relative_to (q ++ [n]) p) → is_Some (relative_to q p).
Proof.
  intros [rel Hr]. apply relative_to_Some in Hr. subst p.
  rewrite <-(assoc_L (++)), relative_to_app. eauto.
Qed.

Lemma wf_makedirs fs p fs' :
  wf fs → "" ∉ p → makedirs fs p = Some fs' → wf fs'.
Proof.
  intros Hwf Hp Hmk q n. rewrite !(lookup_makedirs _ _ _ _ Hmk).
  destruct (fs !! (q ++ [n])) as [v|] eqn:Ek.
  - intros _. destruct (Hwf q n) as [Hn Hq]; [by rewrite Ek|].
    by rewrite Hq.
  - destruct (relative_to (q ++ [n]) p) as [rel|] eqn:E; [|by intros [??]].
    intros _. split.
    + intros ->. apply relative_to_Some, prefix_snoc_elem in E. done.
    + assert (Hq : is_Some (relative_to q p)).
      { apply (relative_to_snoc_parent q p n). by rewrite E. }
      pose proof (makedirs_Some_inv _ _ _ _ Hmk Hq) as Hf.
      destruct Hq as [r ->]. unfold is_file in Hf.
      by destruct (fs !! q) as [[]|].
Qed.

Lemma wf_copytree fs src dst fs' :
  wf fs → "" ∉ dst → copytree fs src dst = Some fs' → wf fs'.
Proof.
  intros Hwf Hd Hcp q n Hk.
  pose proof (copytree_Some_inv _ _ _ _ Hcp) as (Hsrc & Hnone & _).
  destruct (lookup_copytree _ _ _ _ (q ++ [n]) Hcp) as [fsm [Hmk Hlk]].
  destruct (lookup_copytree _ _ _ _ q Hcp) as [fsm' [Hmk' Hlq]].
  simplify_eq. pose proof (wf_makedirs _ _ _ Hwf Hd Hmk) as Hwfm.
  assert (Hfsm : ∀ rel, rel ≠ [] → fsm !! (dst ++ rel) = None).
  { intros rel Hne. rewrite (lookup_makedirs _ _ _ _ Hmk).
    rewrite (wf_None_below _ _ _ Hwf Hnone).
    destruct (relative_to (dst ++ rel) dst) as [r|] eqn:E; [|done].
    apply relative_to_Some in E. rewrite <-(assoc_L (++)) in E.
    rewrite <-(app_nil_r dst) in E at 1. apply app_inv_head in E.
    symmetry in E. by apply app_eq_nil in E as [-> _]. }
  rewrite Hlk in Hk. rewrite Hlq. clear Hlk Hlq.
  destruct (relative_to dst (q ++ [n])) as [rel|] eqn:E.
  - apply relative_to_Some in E.
    destruct rel as [|x rel _] using rev_ind.
    + (* the entry is the destination itself *)
      rewrite app_nil_r in E. subst dst. split; [set_solver|].
      assert (relative_to (q ++ [n]) q = None) as ->.
      { apply relative_to_None. intros r Hr. apply (f_equal length) in Hr.
        rewrite !length_app in Hr. simpl in Hr. lia. }
      apply (Hwfm q n). by apply (makedirs_target fs).
    + (* the entry lies below the destination *)
      rewrite (assoc_L (++)) in E. apply app_inj_tail in E as [-> <-].
      rewrite relative_to_app.
      destruct (fs !! (src ++ rel ++ [n])) as [v|] eqn:Ev.
      * destruct (Hwf (src ++ rel) n) as [Hn Hq].
        { rewrite <-(assoc_L (++)), Ev. eauto. }
        by rewrite Hq.
      * rewrite <-(assoc_L (++)), Hfsm in Hk; [by destruct Hk|].
        by destruct rel.
  - destruct (Hwfm q n Hk) as [Hn Hq]. split; [done|].
    destruct (relative_to dst q) as [r|] eqn:E'; [|done].
    apply relative_to_Some in E'. subst q.
    by rewrite <-(assoc_L (++)), relative_to_app in E.
Qed.

Lemma preserves_pure {A : Type} (P : tree → Prop) (m : M A) : fs_pure m → preserves P m.
Proof. intros Hm w Hw. by rewrite Hm. Qed.

Lemma preserves_bind {A B : Type} (P : tree → Prop) (m : M A) (k : A → M B) :
  preserves P m → (∀ a, preserves P (k a)) → preserves P (bind m k).
Proof.
  intros Hm Hk w Hw. unfold bind. specialize (Hm w Hw).
  destruct (m w) as [[a|e] w1]; simpl in *; [|done]. by apply Hk.
Qed.

Lemma preserves_try_except {A : Type} (P : tree → Prop) (m : M A) h :
  preserves P m → (∀ msg, preserves P (h msg)) → preserves P (try_except m h).
Proof.
  intros Hm Hh w Hw. unfold try_except. specialize (Hm w Hw).
  destruct (m w) as [[a|[msg|]] w1]; simpl in *; try done. by apply Hh.
Qed.

Lemma preserves_fs_update (P : tree → Prop) (f : tree → option tree) :
  (∀ fs fs', P fs → f fs = Some fs' → P fs') → preserves P (fs_update f).
Proof.
  intros Hf w Hw. unfold fs_update.
  destruct (f (w_fs w)) as [fs'|] eqn:E; simpl; [|done]. by eapply Hf.
Qed.

Ltac keep_step :=
  repeat
    lazymatch goal with
    | |- preserves _ (bind _ _) => apply preserves_bind; [|intros ?]
    | |- preserves _ (try_except _ _) => apply preserves_try_except; [|intros ?]
    | |- preserves _ (fs_update _) =>
        apply preserves_fs_update; intros ? ? ?;
        solve [eauto using wf_rmtree, wf_copytree, wf_makedirs]
    | |- preserves _ (match ?x with _ => _ end) => destruct x
    | |- preserves _ _ => solve [apply preserves_pure; auto with pure]
    end.

Lemma joinpath_named dest_root n : "" ∉ dest_root → "" ∉ joinpath dest_root n.
Proof. intros Hd. unfold joinpath. case_decide; [done|]. set_solver. Qed.

Lemma preserves_wf_copy_skill src_dir dest_root p dry :
  "" ∉ dest_root → preserves wf (copy_skill src_dir dest_root p dry).
Proof.
  intros Hd. pose proof (joinpath_named dest_root (name src_dir) Hd) as Hj.
  unfold copy_skill. keep_step.
Qed.

Lemma preserves_wf_copy_loop args skills counts :
  "" ∉ dest args → preserves wf (copy_loop args skills counts).
Proof.
  intros Hd. revert counts.
  induction skills as [|s rest IH]; intros counts; simpl; keep_step;
    auto using preserves_wf_copy_skill.
Qed.

Lemma preserves_wf_prune_loop names dry dest_skills pruned :
  preserves wf (prune_loop names dry dest_skills pruned).
Proof.
  revert pruned. induction dest_skills as [|d rest IH]; intros pruned; simpl.
  { keep_step. }
  case_bool_decide; [done|]. keep_step; auto.
Qed.

(** Every run, whatever its outcome, leaves a well-formed store well
    formed. *)
Lemma main_preserves_wf home args :
  "" ∉ dest args → preserves wf (main home args).
Proof.
  intros Hd. unfold main. keep_step.
  unfold run, ensure_dest, copy_all, prune_step, prune_dest.
  keep_step; auto using preserves_wf_copy_loop, preserves_wf_prune_loop.
Qed.

(** * The specification's claims *)

(** ** Scanner *)

(** C4. For every root: the direct scan raises when the root is not a
    directory; otherwise it returns exactly the direct children whose name
    does not start with a dot, that are directories and that directly hold
    a regular file named SKILL.md, in ascending order of name and without
    repetition. *)
Theorem direct_scan_correct (fs : tree) (root : path) :
  match list_skill_dirs fs root false with
  | None => fs !! root ≠ Some Dir
  | Some l =>
      fs !! root = Some Dir
      ∧ (∀ d, d ∈ l ↔
           ∃ n, d = root ++ [n] ∧ hidden n = false ∧ fs !! d = Some Dir
                ∧ is_file fs (d ++ [MARKER]) = true)
      ∧ StronglySorted (λ d1 d2, String.le (name d1) (name d2)) l
      ∧ NoDup l
  end.
Proof.
  destruct (list_skill_dirs fs root false) as [l|] eqn:Heq.
  - assert (Hroot : fs !! root = Some Dir).
    { rewrite list_skill_dirs_direct_eq in Heq. unfold iterdir in Heq.
      destruct (is_dir fs root) eqn:Hd; [|done]. by apply is_dir_true. }
    split; [done|]. split; [intros d; by apply elem_of_direct|].
    destruct (direct_sorted _ _ _ Heq) as [Hs Hnd]. split; [|done].
    apply (StronglySorted_names root); [|done].
    eapply Forall_impl; [by apply (direct_children fs root)|].
    by intros d [? _].
  - intros Hroot. apply iterdir_Some in Hroot as [es Hes].
    rewrite list_skill_dirs_direct_eq, Hes in Heq. done.
Qed.

(** The direct scan on an example: hidden and unmarked entries are left
    out, the rest comes sorted. *)
Example direct_scan_example :
  list_skill_dirs fs_two_skills ["s"] false = Some [["s"; "a"]; ["s"; "b"]].
Proof. vm_compute. done. Qed.

(** What the recursive scan returns, for the record: the directories at or
    below the root, with no hidden segment on the way, that hold an entry
    named SKILL.md of any kind, in the order of their marker paths. *)
Lemma recursive_scan_characterised (fs : tree) (root : path) :
  ∃ l, list_skill_dirs fs root true = Some l
    ∧ (∀ d, d ∈ l ↔
         fs !! root = Some Dir
         ∧ (∃ rel, d = root ++ rel ∧ existsb hidden rel = false)
         ∧ is_Some (fs !! (d ++ [MARKER])))
    ∧ StronglySorted path_le ((λ d, d ++ [MARKER]) <$> l)
    ∧ NoDup l.
Proof.
  pose proof (list_skill_dirs_recursive_eq fs root) as Heq.
  eexists. split; [done|]. split; [intros d; by apply elem_of_recursive|].
  by apply (recursive_sorted fs root).
Qed.

(** C5. The recursive scan does not ask that the marker be a regular file:
    a directory named SKILL.md makes its parent a skill, where the direct
    scan of the same root rejects it. *)
Theorem recursive_scan_accepts_marker_directory :
  list_skill_dirs fs_marker_dir ["s"] true = Some [["s"; "a"]]
  ∧ is_file fs_marker_dir ["s"; "a"; MARKER] = false
  ∧ list_skill_dirs fs_marker_dir ["s"] false = Some [].
Proof. vm_compute. done. Qed.

(** ** Pruning *)

(** C10. An entry the prune step changes has been removed, and it is, or
    lies below, a direct child of the destination root that is not hidden,
    is a directory, directly holds a regular file SKILL.md, and bears a
    name no source skill has.  Hidden directories, plain files and
    directories without marker stay. *)
Theorem prune_removes_only_stale_skills (names : gset string)
    (dest_root : path) (dry : bool) (w : world) (k : path) :
  w_fs (prune_dest names dest_root dry w).2 !! k ≠ w_fs w !! k →
  w_fs (prune_dest names dest_root dry w).2 !! k = None
  ∧ ∃ n, is_Some (relative_to (dest_root ++ [n]) k)
       ∧ hidden n = false
       ∧ w_fs w !! (dest_root ++ [n]) = Some Dir
       ∧ is_file (w_fs w) (dest_root ++ [n] ++ [MARKER]) = true
       ∧ n ∉ names.
Proof.
  pose proof (prune_dest_spec names dest_root dry w) as H.
  destruct (list_skill_dirs (w_fs w) dest_root false) as [ds|] eqn:Hl.
  2:{ rewrite H. done. }
  destruct dry; [by rewrite H|].
  destruct H as (fs' & Hst & ->). simpl.
  rewrite (lookup_prune_store _ _ _ _ k Hst).
  destruct (below_any (stale names ds) k) eqn:Hb; [|done]. intros _.
  split; [done|].
  apply below_any_spec in Hb as (d & rel & Hd & ->).
  apply list_elem_of_filter in Hd as [Hn Hd].
  apply (elem_of_direct _ _ _ _ Hl) in Hd as (n & -> & Hh & Hdir & Hf).
  exists n. rewrite relative_to_app, name_snoc in *.
  rewrite <-(assoc_L (++)) in Hf. eauto 10.
Qed.

Lemma prune_removes_only_stale_skills_witness :
  let w := World fs_dest [] [] in
  w_fs (prune_dest {["a"]} ["d"] false w).2 !! ["d"; "c"; "x"]
    ≠ w_fs w !! ["d"; "c"; "x"]
  ∧ w_fs (prune_dest {["a"]} ["d"] false w).2 !! ["d"; "c"; "x"] = None
  ∧ ∃ n, is_Some (relative_to (["d"] ++ [n]) ["d"; "c"; "x"])
       ∧ hidden n = false
       ∧ w_fs w !! (["d"] ++ [n]) = Some Dir
       ∧ is_file (w_fs w) (["d"] ++ [n] ++ [MARKER]) = true
       ∧ n ∉ ({["a"]} : gset string).
Proof.
  intros w.
  assert (Hne : w_fs (prune_dest {["a"]} ["d"] false w).2 !! ["d"; "c"; "x"]
                ≠ w_fs w !! ["d"; "c"; "x"]) by (vm_compute; done).
  split; [exact Hne|].
  exact (prune_removes_only_stale_skills {["a"]} ["d"] false w ["d"; "c"; "x"] Hne).
Defined.

Lemma wfb_wf fs : wfb fs = true → wf fs.
Proof.
  unfold wfb. rewrite forallb_forall. intros H p n Hk.
  apply elem_of_keys, list_elem_of_In, H in Hk.
  rewrite last_snoc, parent_snoc in Hk.
  apply andb_true_iff in Hk as [Hn Hd].
  apply negb_true_iff, bool_decide_eq_false in Hn.
  by apply is_dir_true in Hd.
Qed.

(** ** Preview mode *)

(** C1. With dry-run set, no operation changes the store: not the whole
    run, whatever its outcome, not the copy step, not pruning, and not the
    step that would create a missing destination.  Pruning and that step
    only announce: one PRUNE line per stale skill, and one line for the
    destination that would be created. *)
Theorem preview_purity (home : path) (args : Args) (w : world) :
  dry_run args = true →
  w_fs (main home args w).2 = w_fs w
  ∧ (∀ src_dir w0,
       w_fs (copy_skill src_dir (dest args) (conflict args) (dry_run args) w0).2
       = w_fs w0)
  ∧ (∀ names w0,
       w_fs (prune_dest names (dest args) (dry_run args) w0).2 = w_fs w0)
  ∧ (∀ names w0 dest_skills,
       list_skill_dirs (w_fs w0) (dest args) false = Some dest_skills →
       prune_dest names (dest args) (dry_run args) w0
       = (Ret (length (stale names dest_skills)),
          say w0 (prune_line <$> stale names dest_skills)))
  ∧ (∀ w0, w_fs (ensure_dest args w0).2 = w_fs w0)
  ∧ (∀ w0, w_fs w0 !! dest args = None →
       ensure_dest args w0
       = (Ret (), say w0 [Print ("DRY RUN: would create destination "
                                 +:+ show_path (dest args))])).
Proof.
  intros Hdry. rewrite Hdry. repeat split.
  - by apply fs_pure_main.
  - intros src_dir w0. apply copy_skill_preview_fs.
  - intros names w0. apply fs_pure_prune_dest.
  - intros names w0 ds Hl.
    pose proof (prune_dest_spec names (dest args) true w0) as H.
    by rewrite Hl in H.
  - intros w0. rewrite ensure_dest_spec, Hdry. by destruct (exists_ _ _).
  - intros w0 Hno. rewrite ensure_dest_spec, Hdry.
    apply exists_false in Hno. by rewrite Hno.
Qed.

Lemma preview_purity_witness :
  dry_run args_preview = true
  ∧ w_fs (main [] args_preview (World fs_conflict [] [])).2 = fs_conflict.
Proof.
  split; [reflexivity|].
  apply (preview_purity [] args_preview (World fs_conflict [] [])).
  reflexivity.
Defined.

(** ** Overwriting *)

(** When the source skill and its destination overlap, the overwrite
    removes the destination and the copy then raises. *)
Lemma overwrite_overlap_raises (src_dir dest_root : path) (w : world) :
  let dest_dir := joinpath dest_root (name src_dir) in
  w_fs w !! dest_dir = Some Dir →
  is_Some (relative_to src_dir dest_dir) ∨ is_Some (relative_to dest_dir src_dir) →
  ∃ fs1, rmtree (w_fs w) dest_dir = Some fs1
       ∧ copy_skill src_dir dest_root POverwrite false w
         = (Raise OSError, with_fs w fs1).
Proof.
  intros dest_dir Hdst Hover.
  destruct (rmtree_Some _ _ Hdst) as [fs1 Hrm]. exists fs1. split; [done|].
  rewrite copy_skill_unfold. cbv zeta. fold dest_dir.
  assert (exists_ (w_fs w) dest_dir = true) as ->.
  { apply exists_true. by rewrite Hdst. }
  rewrite resolve_conflict_fixed by done. cbn [negb].
  rewrite Hrm. unfold do_copy.
  destruct (copytree _ _ _) as [fs2|] eqn:Hcp; [exfalso|done].
  apply copytree_Some_inv in Hcp as (Hsrc & _ & Hrel). simpl in Hsrc.
  destruct Hover as [[r Hr]|[r Hr]]; [congruence|].
  rewrite (lookup_rmtree _ _ _ _ Hrm), Hr in Hsrc. done.
Qed.



(** ** Abort *)

(** C3. When the run has reached the copy loop, the skills before some
    skill have been processed, and for that skill the destination exists
    and the resolver answers abort, then [main] returns 2 after writing the
    abort message, and the store it leaves is the store as it was when the
    resolver was asked: what was copied before stays, nothing is copied
    after. *)
Theorem abort_propagation (home : path) (args : Args) (w w0 wa w1 w2 : world)
    (valid : list (path * bool)) (pre post : list path) (s : path)
    (c1 : Counts) :
  prepare home args w = (Ret (inr (valid, pre ++ s :: post)), w0) →
  ensure_dest args w0 = (Ret (), wa) →
  copy_loop args pre no_counts
    (say wa (announce_log args valid (pre ++ s :: post))) = (Ret c1, w1) →
  exists_ (w_fs w1) (dest_of args s) = true →
  resolve_conflict (dest_of args s) (conflict args) (dry_run args) w1
  = (Ret PAbort, w2) →
  main home args w = (Ret 2, say w2 [PrintErr "Aborted on conflict."])
  ∧ w_fs w2 = w_fs w1
  ∧ copy_loop args (pre ++ s :: post) no_counts
      (say wa (announce_log args valid (pre ++ s :: post)))
    = (Raise (RuntimeError "Aborted on conflict."), w2).
Proof.
  intros Hprep Hens Hpre Hex Hres.
  destruct (copy_skill_abort s (dest args) (conflict args) (dry_run args) w1 w2
              Hex Hres) as [Hcs Hfs].
  assert (Hloop : copy_loop args (pre ++ s :: post) no_counts
            (say wa (announce_log args valid (pre ++ s :: post)))
          = (Raise (RuntimeError "Aborted on conflict."), w2)).
  { by rewrite copy_loop_app, Hpre, copy_loop_cons, Hcs. }
  split; [|done].
  by rewrite main_spec, Hprep, run_spec, Hens, copy_all_spec, Hloop.
Qed.

Lemma abort_propagation_witness :
  (main [] args_abort (World fs_abort [] [])).1 = Ret 2
  ∧ w_fs (main [] args_abort (World fs_abort [] [])).2 !! ["d"; "a"; "SKILL.md"]
    = Some (File "a").
Proof.
  set (w := World fs_abort [] []).
  set (w0 := (prepare [] args_abort w).2).
  set (wa := (ensure_dest args_abort w0).2).
  set (valid := [(["s"], false)]).
  set (w1 := (copy_loop args_abort [["s"; "a"]] no_counts
                (say wa (announce_log args_abort valid
                           ([["s"; "a"]] ++ ["s"; "b"] :: [])))).2).
  set (c1 := {| n_copy := 1; n_overwrite := 0; n_skip := 0 |}).
  destruct (abort_propagation [] args_abort w w0 wa w1 w1 valid
              [["s"; "a"]] [] ["s"; "b"] c1) as (Hmain & _ & _).
  - vm_compute. reflexivity.
  - vm_compute. reflexivity.
  - vm_compute. reflexivity.
  - vm_compute. reflexivity.
  - vm_compute. reflexivity.
  - rewrite Hmain. split; [reflexivity|]. vm_compute. reflexivity.
Defined.

(** ** Idempotence *)

(** C6. Take a run in copy mode with the skip policy, outside preview mode,
    that returns 0, and suppose it left every configured source root, and
    everything below it, as it was.  A second run with the same arguments
    on the store the first one left (whatever is then on the console and on
    standard input) returns 0, leaves that store as it is, finds the skills
    the first run found, and writes one SKIP line for each of them and a
    summary that counts them all as skipped. *)
Theorem copy_skip_idempotent (home : path) (args : Args) (w0 w1 w1' : world) :
  mode args = ModeCopy → conflict args = PSkip → dry_run args = false →
  main home args w0 = (Ret 0, w1) →
  (∀ s, s ∈ configured_sources home args → agree_below s.1 (w_fs w0) (w_fs w1)) →
  w_fs w1' = w_fs w1 →
  ∃ skills w2,
    discover (w_fs w0) (valid_of (w_fs w0) (configured_sources home args))
    = Some skills
    ∧ main home args w1' = (Ret 0, w2)
    ∧ w_fs w2 = w_fs w1
    ∧ w_in w2 = w_in w1'
    ∧ w_out w2 = w_out w1' ++ second_run_log home args (w_fs w1) skills.
Proof.
  intros Hmode Hskip Hreal Hrun Hsame Hfs.
  destruct (first_run_facts home args Hmode Hskip Hreal w0 w1 Hrun)
    as (Hu & Hv & skills & Hdisc & Hdest & Hall).
  assert (Hvalid : valid_of (w_fs w1) (configured_sources home args)
                   = valid_of (w_fs w0) (configured_sources home args)).
  { apply valid_of_ext. intros s Hs. symmetry.
    by apply agree_below_root, Hsame. }
  assert (Hdisc' : discover (w_fs w1) (valid_of (w_fs w1) (configured_sources home args))
                   = Some skills).
  { rewrite Hvalid, <-Hdisc. symmetry. apply discover_ext.
    intros s [_ Hs]%elem_of_valid_of. by apply Hsame. }
  exists skills, (say w1' (second_run_log home args (w_fs w1) skills)).
  split; [done|]. split; [|by rewrite <-Hfs].
  rewrite <-Hfs in *.
  apply (second_run home args Hmode Hskip); try done.
  by rewrite Hvalid.
Qed.

Lemma copy_skip_idempotent_witness :
  let w0 := World fs_abort [] [] in
  let w1 := (main [] args_skip w0).2 in
  ∃ skills w2,
    discover (w_fs w0) (valid_of (w_fs w0) (configured_sources [] args_skip))
    = Some skills
    ∧ main [] args_skip w1 = (Ret 0, w2)
    ∧ w_fs w2 = w_fs w1
    ∧ w_in w2 = w_in w1
    ∧ w_out w2 = w_out w1 ++ second_run_log [] args_skip (w_fs w1) skills.
Proof.
  intros w0 w1.
  apply (copy_skip_idempotent [] args_skip w0 w1 w1).
  - reflexivity.
  - reflexivity.
  - reflexivity.
  - vm_compute. reflexivity.
  - intros s Hs. apply list_elem_of_singleton in Hs. subst s.
    apply subtree_agree. vm_compute. reflexivity.
  - reflexivity.
Defined.

(** ** The interactive resolver *)

Lemma prompt_loop_recognized prompt line rest d :
  recognize (lower (strip line)) = Some d →
  prompt_loop prompt (line :: rest) = (d, rest, [Prompt prompt]).
Proof.
  unfold recognize. simpl. repeat case_bool_decide; intros Hr; by simplify_eq.
Qed.

Lemma prompt_loop_unrecognized prompt line rest :
  recognize (lower (strip line)) = None →
  prompt_loop prompt (line :: rest)
  = let '(d, rest', evs) := prompt_loop prompt rest in
    (d, rest', Prompt prompt :: Print CHOOSE_HINT :: evs).
Proof.
  unfold recognize. simpl. repeat case_bool_decide; intros Hr; by simplify_eq.
Qed.

Lemma prompt_loop_junk prompt junk lines :
  Forall (λ l, recognize (lower (strip l)) = None) junk →
  prompt_loop prompt (junk ++ lines)
  = let '(d, rest, evs) := prompt_loop prompt lines in
    (d, rest, reprompts prompt junk ++ evs).
Proof.
  induction 1 as [|l junk Hl _ IH].
  { simpl. by destruct (prompt_loop prompt lines) as [[??]?]. }
  rewrite <-app_comm_cons, prompt_loop_unrecognized, IH by done.
  by destruct (prompt_loop prompt lines) as [[??]?].
Qed.

Lemma isspace_lower_char c : isspace (lower_char c) = isspace c.
Proof. by destruct c as [[] [] [] [] [] [] [] []]. Qed.

Lemma lstrip_lower s : lstrip (lower s) = lower (lstrip s).
Proof.
  induction s as [|c s IH]; [done|]. simpl.
  rewrite isspace_lower_char. by destruct (isspace c).
Qed.

Lemma rev_app_lower s acc :
  String.rev_app (lower s) (lower acc) = lower (String.rev_app s acc).
Proof.
  revert acc. induction s as [|c s IH]; intros acc; [done|].
  simpl. by rewrite <-IH.
Qed.

Lemma rev_lower s : String.rev (lower s) = lower (String.rev s).
Proof. apply (rev_app_lower s ""). Qed.

Lemma strip_lower s : strip (lower s) = lower (strip s).
Proof. unfold strip. by rewrite lstrip_lower, rev_lower, lstrip_lower, rev_lower. Qed.

Ltac vocabulary :=
  unfold recognize; repeat case_bool_decide; split; intros Hr; try done;
  exfalso;
  repeat match goal with
         | H : _ ∈ _ :: _ |- _ => apply elem_of_cons in H as [?|H]
         | H : _ ∈ [] |- _ => by apply elem_of_nil in H
         end;
  simplify_eq;
  repeat match goal with
         | H : ¬ (_ ∈ _) |- _ => apply H; clear H
         end;
  repeat first [ by left | right ].

Lemma recognize_overwrite r :
  recognize r = Some POverwrite ↔ r ∈ ["o"; "overwrite"; "y"; "yes"].
Proof. vocabulary. Qed.

Lemma recognize_skip r :
  recognize r = Some PSkip ↔ r ∈ ["s"; "skip"; ""; "n"; "no"].
Proof. vocabulary. Qed.

Lemma recognize_abort r :
  recognize r = Some PAbort ↔ r ∈ ["a"; "abort"; "q"; "quit"].
Proof. vocabulary. Qed.

(** C8. Under the ask policy outside preview mode the resolver reads lines
    until one is recognised: each unrecognised line costs a prompt and the
    usage hint; a line whose stripped, lower-cased text is one of
    o/overwrite/y/yes, s/skip/n/no/empty, a/abort/q/quit ends the loop with
    overwrite, skip or abort; when the input runs out the resolver writes
    the guidance on standard error and returns abort.  It always returns,
    with the store untouched, and letter case does not matter. *)
Theorem ask_resolution (dest_dir : path) (w : world) (junk : list string) :
  Forall (λ l, recognize (lower (strip l)) = None) junk →
  let prompt := conflict_prompt dest_dir in
  (∀ line rest d,
     w_in w = junk ++ line :: rest →
     recognize (lower (strip line)) = Some d →
     resolve_conflict dest_dir PAsk false w
     = (Ret d, World (w_fs w) rest
                 (w_out w ++ reprompts prompt junk ++ [Prompt prompt])))
  ∧ (w_in w = junk →
     resolve_conflict dest_dir PAsk false w
     = (Ret PAbort, World (w_fs w) []
                      (w_out w ++ reprompts prompt junk
                       ++ [Prompt prompt; PrintErr NO_INPUT])))
  ∧ (∀ r, recognize r = Some POverwrite ↔ r ∈ ["o"; "overwrite"; "y"; "yes"])
  ∧ (∀ r, recognize r = Some PSkip ↔ r ∈ ["s"; "skip"; ""; "n"; "no"])
  ∧ (∀ r, recognize r = Some PAbort ↔ r ∈ ["a"; "abort"; "q"; "quit"])
  ∧ (∀ r, recognize r ≠ Some PAsk)
  ∧ (∀ l1 l2, lower l1 = lower l2 →
       recognize (lower (strip l1)) = recognize (lower (strip l2))).
Proof.
  intros Hjunk prompt.
  split; [|split; [|split; [|split; [|split; [|split]]]]].
  - intros line rest d Hin Hd. rewrite resolve_conflict_ask, Hin.
    rewrite prompt_loop_junk by done.
    by rewrite (prompt_loop_recognized _ _ _ d).
  - intros Hin. rewrite resolve_conflict_ask, Hin.
    rewrite <-(app_nil_r junk) at 1. by rewrite prompt_loop_junk.
  - apply recognize_overwrite.
  - apply recognize_skip.
  - apply recognize_abort.
  - intros r. unfold recognize. by repeat case_bool_decide.
  - intros l1 l2 H. by rewrite <-!strip_lower, H.
Qed.

Lemma ask_resolution_witness :
  resolve_conflict ["d"; "a"] PAsk false (World ∅ ["what?"; "  YES "; "later"] [])
  = (Ret POverwrite,
     World ∅ ["later"]
       ([] ++ reprompts (conflict_prompt ["d"; "a"]) ["what?"]
        ++ [Prompt (conflict_prompt ["d"; "a"])]))
  ∧ resolve_conflict ["d"; "a"] PAsk false (World ∅ ["what?"] [])
    = (Ret PAbort,
       World ∅ []
         ([] ++ reprompts (conflict_prompt ["d"; "a"]) ["what?"]
          ++ [Prompt (conflict_prompt ["d"; "a"]); PrintErr NO_INPUT])).
Proof.
  assert (Hj : Forall (λ l, recognize (lower (strip l)) = None) ["what?"]).
  { repeat constructor. }
  split.
  - apply (proj1 (ask_resolution ["d"; "a"]
                    (World ∅ ["what?"; "  YES "; "later"] []) ["what?"] Hj)
             "  YES " ["later"] POverwrite); reflexivity.
  - apply (proj1 (proj2 (ask_resolution ["d"; "a"]
                           (World ∅ ["what?"] []) ["what?"] Hj))).
    reflexivity.
Defined.

(** ** Exit codes *)

Lemma usage_error_true args :
  usage_error args = true ↔ prune args = true ∧ mode args ≠ ModeSync.
Proof.
  unfold usage_error.
  rewrite andb_true_iff, negb_true_iff, bool_decide_eq_false. done.
Qed.

Lemma resolve_conflict_eof dest_dir w :
  w_in w = [] →
  resolve_conflict dest_dir PAsk false w
  = (Ret PAbort, say w [Prompt (conflict_prompt dest_dir); PrintErr NO_INPUT]).
Proof.
  intros Hin. rewrite resolve_conflict_ask, Hin. destruct w. simpl in *.
  by subst.
Qed.

(** The run once the copy loop has been reached and a skill aborts. *)
Lemma main_aborted home args w w0 wa w1 w2 valid pre post s c1 :
  prepare home args w = (Ret (inr (valid, pre ++ s :: post)), w0) →
  ensure_dest args w0 = (Ret (), wa) →
  copy_loop args pre no_counts
    (say wa (announce_log args valid (pre ++ s :: post))) = (Ret c1, w1) →
  exists_ (w_fs w1) (dest_of args s) = true →
  resolve_conflict (dest_of args s) (conflict args) (dry_run args) w1
  = (Ret PAbort, w2) →
  main home args w = (Ret 2, say w2 [PrintErr "Aborted on conflict."]).
Proof.
  intros Hprep Hens Hpre Hex Hres.
  destruct (copy_skill_abort s (dest args) (conflict args) (dry_run args) w1 w2
              Hex Hres) as [Hcs _].
  rewrite main_spec, Hprep, run_spec, Hens, copy_all_spec.
  by rewrite copy_loop_app, Hpre, copy_loop_cons, Hcs.
Qed.

(** C9. [main] returns 1 when prune is requested with a mode other than
    sync, and when no configured source root is a directory; 0 when the
    valid roots hold no skill; 2 when the resolver answers abort for some
    skill, be it by policy, by the user's answer or because standard input
    is exhausted; 0 when the copy loop and the prune step complete.  In
    the first three cases the store is untouched. *)
Theorem exit_codes (home : path) (args : Args) (w : world) :
  (prune args = true → mode args ≠ ModeSync →
   ∃ w', main home args w = (Ret 1, w') ∧ w_fs w' = w_fs w)
  ∧ (usage_error args = false →
     (∀ s, s ∈ configured_sources home args → w_fs w !! s.1 ≠ Some Dir) →
     ∃ w', main home args w = (Ret 1, w') ∧ w_fs w' = w_fs w)
  ∧ (usage_error args = false →
     valid_of (w_fs w) (configured_sources home args) ≠ [] →
     discover (w_fs w) (valid_of (w_fs w) (configured_sources home args))
     = Some [] →
     ∃ w', main home args w = (Ret 0, w') ∧ w_fs w' = w_fs w)
  ∧ (∀ w0 wa w1 w2 valid pre post s c1,
       prepare home args w = (Ret (inr (valid, pre ++ s :: post)), w0) →
       ensure_dest args w0 = (Ret (), wa) →
       copy_loop args pre no_counts
         (say wa (announce_log args valid (pre ++ s :: post))) = (Ret c1, w1) →
       exists_ (w_fs w1) (dest_of args s) = true →
       resolve_conflict (dest_of args s) (conflict args) (dry_run args) w1
       = (Ret PAbort, w2) →
       main home args w = (Ret 2, say w2 [PrintErr "Aborted on conflict."]))
  ∧ (∀ w0 wa w1 valid pre post s c1,
       prepare home args w = (Ret (inr (valid, pre ++ s :: post)), w0) →
       ensure_dest args w0 = (Ret (), wa) →
       copy_loop args pre no_counts
         (say wa (announce_log args valid (pre ++ s :: post))) = (Ret c1, w1) →
       exists_ (w_fs w1) (dest_of args s) = true →
       conflict args = PAsk → dry_run args = false → w_in w1 = [] →
       ∃ w', main home args w = (Ret 2, w') ∧ w_fs w' = w_fs w1)
  ∧ (∀ w0 wa wb wc valid skills counts pruned,
       prepare home args w = (Ret (inr (valid, skills)), w0) →
       ensure_dest args w0 = (Ret (), wa) →
       copy_loop args skills no_counts
         (say wa (announce_log args valid skills)) = (Ret counts, wb) →
       prune_step args skills wb = (Ret pruned, wc) →
       main home args w
       = (Ret 0, say wc [Print (summary_line args counts pruned)])).
Proof.
  split; [|split; [|split; [|split; [|split]]]].
  - intros Hp Hm. rewrite main_spec, prepare_spec.
    rewrite (proj2 (usage_error_true args)) by done. eauto.
  - intros Hu Hnone. rewrite main_spec, prepare_spec, Hu. cbv zeta.
    assert (valid_of (w_fs w) (configured_sources home args) = []) as ->.
    { apply elem_of_nil_inv. intros s [Hd Hs]%elem_of_valid_of.
      by apply (Hnone s). }
    rewrite bool_decide_eq_true_2 by done. eauto.
  - intros Hu Hv Hd. rewrite main_spec, prepare_spec, Hu. cbv zeta.
    rewrite bool_decide_eq_false_2 by done. rewrite Hd.
    rewrite bool_decide_eq_true_2 by done. eauto.
  - intros w0 wa w1 w2 valid pre post s c1. apply main_aborted.
  - intros w0 wa w1 valid pre post s c1 Hprep Hens Hpre Hex Hask Hreal Hin.
    eexists. split.
    + eapply (main_aborted _ _ _ _ _ _ _ _ _ _ _ _ Hprep Hens Hpre Hex).
      rewrite Hask, Hreal. by apply resolve_conflict_eof.
    + done.
  - intros w0 wa wb wc valid skills counts pruned Hprep Hens Hloop Hprune.
    by rewrite main_spec, Hprep, run_spec, Hens, copy_all_spec, Hloop, Hprune.
Qed.

Lemma exit_codes_witness :
  let w := World fs_abort [] [] in
  (main [] args_bad_prune w).1 = Ret 1
  ∧ (main [] args_missing w).1 = Ret 1
  ∧ (main [] args_no_skills w).1 = Ret 0
  ∧ (main [] args_abort w).1 = Ret 2
  ∧ (main [] args_ask w).1 = Ret 2
  ∧ (main [] args_skip w).1 = Ret 0.
Proof.
  intros w.
  set (valid := [(["s"], false)]).
  set (skills := [["s"; "a"]] ++ ["s"; "b"] :: []).
  set (c1 := {| n_copy := 1; n_overwrite := 0; n_skip := 0 |}).
  split; [|split; [|split; [|split; [|split]]]].
  - destruct (proj1 (exit_codes [] args_bad_prune w)) as (w' & -> & _); done.
  - destruct (proj1 (proj2 (exit_codes [] args_missing w))) as (w' & -> & _);
      [done| |done].
    intros s Hs. apply elem_of_cons in Hs as [->|Hs]; [done|].
    apply list_elem_of_singleton in Hs as ->. done.
  - destruct (proj1 (proj2 (proj2 (exit_codes [] args_no_skills w))))
      as (w' & -> & _); [done|by vm_compute|by vm_compute|done].
  - set (w0 := (prepare [] args_abort w).2).
    set (wa := (ensure_dest args_abort w0).2).
    set (w1 := (copy_loop args_abort [["s"; "a"]] no_counts
                  (say wa (announce_log args_abort valid skills))).2).
    rewrite (proj1 (proj2 (proj2 (proj2 (exit_codes [] args_abort w))))
               w0 wa w1 w1 valid [["s"; "a"]] [] ["s"; "b"] c1);
      [done|by vm_compute..].
  - set (w0 := (prepare [] args_ask w).2).
    set (wa := (ensure_dest args_ask w0).2).
    set (w1 := (copy_loop args_ask [["s"; "a"]] no_counts
                  (say wa (announce_log args_ask valid skills))).2).
    destruct (proj1 (proj2 (proj2 (proj2 (proj2 (exit_codes [] args_ask w)))))
                w0 wa w1 valid [["s"; "a"]] [] ["s"; "b"] c1)
      as (w' & -> & _); [by vm_compute..|done].
  - set (w0 := (prepare [] args_skip w).2).
    set (wa := (ensure_dest args_skip w0).2).
    set (wb := (copy_loop args_skip skills no_counts
                  (say wa (announce_log args_skip valid skills))).2).
    rewrite (proj2 (proj2 (proj2 (proj2 (proj2 (exit_codes [] args_skip w)))))
               w0 wa wb wb valid skills
               {| n_copy := 1; n_overwrite := 0; n_skip := 1 |} 0);
      [done|by vm_compute..].
Defined.

(** ** Prune correctness *)

Lemma elem_of_source_names skills s : s ∈ skills → name s ∈ source_names skills.
Proof.
  intros Hs. unfold source_names. apply elem_of_list_to_set.
  by apply list_elem_of_fmap_2.
Qed.

Lemma stale_apart names (ds : list path) dest_root n :
  n ∈ names →
  (∀ d, d ∈ ds → ∃ m, d = dest_root ++ [m]) →
  below_any (stale names ds) (joinpath dest_root n) = false.
Proof.
  intros Hn Hds. destruct (below_any _ _) eqn:Hb; [|done]. exfalso.
  apply below_any_spec in Hb as (d & rel & Hd & Heq).
  apply list_elem_of_filter in Hd as [Hstale Hd].
  destruct (Hds d Hd) as [m ->]. rewrite name_snoc in Hstale.
  unfold joinpath in Heq. case_decide.
  - apply (f_equal length) in Heq. rewrite !length_app in Heq. simpl in Heq. lia.
  - apply siblings_apart in Heq. by subst.
Qed.

(** The store after the prune step of a real sync run. *)
Lemma prune_step_real args skills w pruned w' :
  mode args = ModeSync → prune args = true → dry_run args = false →
  is_Some (w_fs w !! dest args) →
  prune_step args skills w = (Ret pruned, w') →
  ∃ ds, list_skill_dirs (w_fs w) (dest args) false = Some ds
      ∧ prune_store (source_names skills) (w_fs w) ds = Some (w_fs w').
Proof.
  intros Hm Hp Hreal Hdest.
  pose proof (prune_dest_spec (source_names skills) (dest args) false w) as H.
  destruct (list_skill_dirs (w_fs w) (dest args) false) as [ds|] eqn:Hl.
  - destruct H as (fs' & Hst & Hpd). unfold prune_step, bind, fs_read.
    rewrite Hm, Hp, Hreal. rewrite bool_decide_eq_true_2 by done.
    apply exists_true in Hdest. cbn [andb negb w_fs]. rewrite Hdest.
    cbn [negb]. rewrite Hpd. intros [= <- <-]. eauto.
  - unfold prune_step, bind, fs_read.
    rewrite Hm, Hp, Hreal. rewrite bool_decide_eq_true_2 by done.
    apply exists_true in Hdest. cbn [andb negb w_fs]. rewrite Hdest.
    cbn [negb]. by rewrite H.
Qed.




(** * Further properties of the script *)

(** ** Computations and the parts of the world *)

Lemma keeps_bind {A B C : Type} (f : world → C) (m : M A) (k : A → M B) :
  keeps f m → (∀ a, keeps f (k a)) → keeps f (bind m k).
Proof.
  intros Hm Hk w. unfold bind. specialize (Hm w).
  destruct (m w) as [[a|e] w1]; simpl in *; [|done]. by rewrite Hk.
Qed.

Lemma keeps_try_except {A C : Type} (f : world → C) (m : M A) h :
  keeps f m → (∀ msg, keeps f (h msg)) → keeps f (try_except m h).
Proof.
  intros Hm Hh w. unfold try_except. specialize (Hm w).
  destruct (m w) as [[a|[msg|]] w1]; simpl in *; try done. by rewrite Hh.
Qed.

Lemma keeps_in_ret {A : Type} (a : A) : keeps w_in (ret a).
Proof. done. Qed.
Lemma keeps_in_raise {A : Type} e : keeps w_in (@raise A e).
Proof. done. Qed.
Lemma keeps_in_print line : keeps w_in (print line).
Proof. done. Qed.
Lemma keeps_in_print_err line : keeps w_in (print_err line).
Proof. done. Qed.
Lemma keeps_in_fs_read {A : Type} (f : tree → A) : keeps w_in (fs_read f).
Proof. done. Qed.
Lemma keeps_in_fs_try {A : Type} (f : tree → option A) : keeps w_in (fs_try f).
Proof. intros w. unfold fs_try. by destruct (f _). Qed.
Lemma keeps_in_fs_update (f : tree → option tree) : keeps w_in (fs_update f).
Proof. intros w. unfold fs_update. by destruct (f _). Qed.

Create HintDb stdin discriminated.
Global Hint Resolve keeps_in_ret keeps_in_raise keeps_in_print
  keeps_in_print_err keeps_in_fs_read keeps_in_fs_try keeps_in_fs_update
  : stdin.

Ltac stdin_step :=
  repeat
    lazymatch goal with
    | |- keeps _ (bind _ _) => apply keeps_bind; [|intros ?]
    | |- keeps _ (try_except _ _) => apply keeps_try_except; [|intros ?]
    | |- keeps _ (match ?x with _ => _ end) => destruct x
    | |- keeps _ _ => solve [auto with stdin]
    end.

(** The resolver touches standard input only under [ask] outside preview
    mode. *)
Lemma keeps_in_resolve_conflict dest_dir p (dry : bool) :
  p ≠ PAsk ∨ dry = true → keeps w_in (resolve_conflict dest_dir p dry).
Proof.
  intros Hquiet w. destruct (decide (p = PAsk)) as [->|Hp].
  - destruct Hquiet as [?| ->]; [done|].
    by destruct (resolve_conflict_preview dest_dir w) as [line ->].
  - by rewrite resolve_conflict_fixed.
Qed.

Lemma keeps_in_copy_skill src_dir dest_root p (dry : bool) :
  p ≠ PAsk ∨ dry = true → keeps w_in (copy_skill src_dir dest_root p dry).
Proof.
  intros Hquiet.
  pose proof (keeps_in_resolve_conflict (joinpath dest_root (name src_dir)) p dry
                Hquiet) as Hres.
  unfold copy_skill. stdin_step.
Qed.

Lemma keeps_in_copy_loop args skills counts :
  conflict args ≠ PAsk ∨ dry_run args = true →
  keeps w_in (copy_loop args skills counts).
Proof.
  intros Hquiet. revert counts.
  induction skills as [|s rest IH]; intros counts; simpl; stdin_step;
    auto using keeps_in_copy_skill.
Qed.

Lemma keeps_in_validate sources : keeps w_in (validate sources).
Proof. induction sources as [|[p r] rest IH]; simpl; stdin_step. Qed.

Lemma keeps_in_scan_sources valid : keeps w_in (scan_sources valid).
Proof. induction valid as [|[p r] rest IH]; simpl; stdin_step. Qed.

Lemma keeps_in_print_sources valid : keeps w_in (print_sources valid).
Proof. induction valid as [|[p r] rest IH]; simpl; stdin_step. Qed.

Lemma keeps_in_prune_loop names dry dest_skills pruned :
  keeps w_in (prune_loop names dry dest_skills pruned).
Proof.
  revert pruned. induction dest_skills as [|d rest IH]; intros pruned; simpl.
  { stdin_step. }
  case_bool_decide; [done|]. stdin_step; auto.
Qed.

Global Hint Resolve keeps_in_validate keeps_in_scan_sources
  keeps_in_print_sources keeps_in_prune_loop : stdin.

Lemma keeps_in_main home args :
  conflict args ≠ PAsk ∨ dry_run args = true → keeps w_in (main home args).
Proof.
  intros Hquiet. unfold main, prepare. stdin_step.
  all: unfold run, ensure_dest, announce, copy_all, prune_step, prune_dest.
  all: stdin_step; auto using keeps_in_copy_loop.
Qed.

(** ** Effects on the store, step by step *)

Lemma steps_pure {A : Type} (R : relation tree) `{!Reflexive R} (m : M A) :
  fs_pure m → steps R m.
Proof. intros Hm w. by rewrite Hm. Qed.

Lemma steps_bind {A B : Type} (R : relation tree) `{!Transitive R}
    (m : M A) (k : A → M B) :
  steps R m → (∀ a, steps R (k a)) → steps R (bind m k).
Proof.
  intros Hm Hk w. unfold bind. specialize (Hm w).
  destruct (m w) as [[a|e] w1]; simpl in *; [|done].
  etrans; [done|]. apply Hk.
Qed.

Lemma steps_try_except {A : Type} (R : relation tree) `{!Transitive R}
    (m : M A) h :
  steps R m → (∀ msg, steps R (h msg)) → steps R (try_except m h).
Proof.
  intros Hm Hh w. unfold try_except. specialize (Hm w).
  destruct (m w) as [[a|[msg|]] w1]; simpl in *; try done.
  etrans; [done|]. apply Hh.
Qed.

Lemma steps_fs_update (R : relation tree) `{!Reflexive R}
    (f : tree → option tree) :
  (∀ fs fs', f fs = Some fs' → R fs fs') → steps R (fs_update f).
Proof.
  intros Hf w. unfold fs_update.
  destruct (f (w_fs w)) as [fs'|] eqn:E; simpl; [|done]. by apply Hf.
Qed.

Ltac steps_step :=
  repeat
    lazymatch goal with
    | |- steps _ (bind _ _) => apply steps_bind; [apply _| |intros ?]
    | |- steps _ (try_except _ _) =>
        apply steps_try_except; [apply _| |intros ?]
    | |- steps _ (match ?x with _ => _ end) => destruct x
    | |- steps _ _ => solve [apply steps_pure; [apply _|auto with pure]]
    end.

(** *** Outside the destination root *)

Global Instance outside_kept_refl root : Reflexive (outside_kept root).
Proof. intros fs k Hk. by left. Qed.

Global Instance outside_kept_trans root : Transitive (outside_kept root).
Proof.
  intros fs1 fs2 fs3 H12 H23 k Hk.
  destruct (H12 k Hk) as [E12|(Hn & Hd & Ha)];
    destruct (H23 k Hk) as [E23|(Hn' & Hd' & Ha')].
  - left. congruence.
  - right. split; [congruence|done].
  - right. split; [done|]. split; [congruence|done].
  - congruence.
Qed.

Lemma below_trans (root p k : path) :
  is_Some (relative_to root p) → relative_to root k = None →
  relative_to p k = None.
Proof.
  intros Hp Hk. destruct (relative_to p k) as [r|] eqn:E; [|done].
  destruct Hp as [rel Hrel].
  destruct (relative_to_trans root p k rel Hrel) as [x Hx]; [by rewrite E|].
  congruence.
Qed.

Lemma above_root (root p k : path) :
  is_Some (relative_to root p) → relative_to root k = None →
  is_Some (relative_to k p) → is_Some (relative_to k root).
Proof.
  intros [rel Hp] Hk [r Hr]. apply relative_to_Some in Hp, Hr.
  destruct (prefix_weak_total root k p) as [[x Hx]|[x Hx]].
  - by exists rel.
  - by exists r.
  - subst k. by rewrite relative_to_app in Hk.
  - subst root. rewrite relative_to_app. eauto.
Qed.

Lemma outside_rmtree root fs p fs' :
  is_Some (relative_to root p) → rmtree fs p = Some fs' →
  outside_kept root fs fs'.
Proof.
  intros Hp Hrm k Hk. left.
  by rewrite (lookup_rmtree _ _ _ _ Hrm), (below_trans root p k).
Qed.

Lemma outside_makedirs root fs p fs' :
  is_Some (relative_to root p) → makedirs fs p = Some fs' →
  outside_kept root fs fs'.
Proof.
  intros Hp Hmk k Hk. rewrite (lookup_makedirs _ _ _ _ Hmk).
  destruct (fs !! k) as [v|] eqn:Ev; [by left|].
  destruct (relative_to k p) as [r|] eqn:E; [|by left].
  right. split; [done|]. split; [done|].
  apply (above_root root p k); [done..|]. by rewrite E.
Qed.

Lemma outside_copytree root fs src dst fs' :
  is_Some (relative_to root dst) → copytree fs src dst = Some fs' →
  outside_kept root fs fs'.
Proof.
  intros Hp Hcp k Hk.
  destruct (lookup_copytree _ _ _ _ k Hcp) as [fsm [Hmk ->]].
  rewrite (below_trans root dst k) by done.
  by apply (outside_makedirs root fs dst).
Qed.

Lemma joinpath_below dest_root n : is_Some (relative_to dest_root (joinpath dest_root n)).
Proof.
  unfold joinpath. case_decide.
  - rewrite relative_to_refl. eauto.
  - rewrite relative_to_app. eauto.
Qed.

Lemma steps_outside_copy_skill src_dir dest_root p dry :
  steps (outside_kept dest_root) (copy_skill src_dir dest_root p dry).
Proof.
  pose proof (joinpath_below dest_root (name src_dir)) as Hj.
  unfold copy_skill. steps_step.
  all: apply steps_fs_update; [apply _|]; intros fs fs' Hf;
    eauto using outside_rmtree, outside_copytree.
Qed.

Lemma steps_outside_copy_loop args skills counts :
  steps (outside_kept (dest args)) (copy_loop args skills counts).
Proof.
  revert counts.
  induction skills as [|s rest IH]; intros counts; simpl; steps_step;
    auto using steps_outside_copy_skill.
Qed.

Lemma steps_outside_prune_loop root names dry dest_skills pruned :
  Forall (λ d, is_Some (relative_to root d)) dest_skills →
  steps (outside_kept root) (prune_loop names dry dest_skills pruned).
Proof.
  intros Hall. revert pruned.
  induction Hall as [|d rest Hd Hrest IH]; intros pruned; simpl.
  { steps_step. }
  case_bool_decide; [done|]. steps_step; auto.
  apply steps_fs_update; [apply _|]. intros fs fs' Hf.
  by apply (outside_rmtree root fs d).
Qed.

Lemma steps_outside_prune_dest names dest_root dry :
  steps (outside_kept dest_root) (prune_dest names dest_root dry).
Proof.
  intros w. unfold prune_dest, bind, fs_try.
  destruct (list_skill_dirs (w_fs w) dest_root false) as [ds|] eqn:Hl;
    [|simpl; reflexivity].
  apply (steps_outside_prune_loop dest_root names dry ds 0).
  eapply Forall_impl; [by apply (direct_children _ _ _ Hl)|].
  intros d [[n ->] _]. rewrite relative_to_app. eauto.
Qed.

Lemma steps_outside_main home args :
  steps (outside_kept (dest args)) (main home args).
Proof.
  unfold main. steps_step.
  unfold run, ensure_dest, copy_all, prune_step. steps_step;
    auto using steps_outside_copy_loop, steps_outside_prune_dest.
  apply steps_fs_update; [apply _|]. intros fs fs' Hf.
  apply (outside_makedirs (dest args) fs (dest args)); [|done].
  rewrite relative_to_refl. eauto.
Qed.

(** *** Stores that only grow *)

Global Instance grown_refl : Reflexive grown.
Proof. intros fs Hwf. done. Qed.

Global Instance grown_trans : Transitive grown.
Proof.
  intros fs1 fs2 fs3 H12 H23 Hwf.
  destruct (H12 Hwf) as [Hwf2 Hsub]. destruct (H23 Hwf2) as [Hwf3 Hsub'].
  split; [done|]. intros k v Hk. by apply Hsub', Hsub.
Qed.

Lemma grown_makedirs fs p fs' :
  "" ∉ p → makedirs fs p = Some fs' → grown fs fs'.
Proof.
  intros Hp Hmk Hwf. split; [by eapply wf_makedirs|].
  intros k v Hk. by rewrite (lookup_makedirs _ _ _ _ Hmk), Hk.
Qed.

Lemma grown_copytree fs src dst fs' :
  "" ∉ dst → copytree fs src dst = Some fs' → grown fs fs'.
Proof.
  intros Hd Hcp Hwf. split; [by eapply wf_copytree|].
  intros k v Hk.
  pose proof (copytree_Some_inv _ _ _ _ Hcp) as (_ & Hnone & _).
  destruct (lookup_copytree _ _ _ _ k Hcp) as [fsm [Hmk ->]].
  destruct (relative_to dst k) as [rel|] eqn:E.
  - apply relative_to_Some in E. subst k.
    rewrite (wf_None_below _ _ _ Hwf Hnone) in Hk. done.
  - by rewrite (lookup_makedirs _ _ _ _ Hmk), Hk.
Qed.

Lemma steps_grown_copy_skill src_dir dest_root dry :
  "" ∉ dest_root → steps grown (copy_skill src_dir dest_root PSkip dry).
Proof.
  intros Hd w. rewrite copy_skill_unfold. cbv zeta.
  rewrite resolve_conflict_fixed by done.
  destruct (exists_ _ _); [reflexivity|].
  destruct dry; [reflexivity|]. unfold do_copy.
  destruct (copytree _ _ _) as [fs'|] eqn:Hcp; [|reflexivity]. simpl.
  apply (grown_copytree _ _ _ _ (joinpath_named _ _ Hd) Hcp).
Qed.

Lemma steps_grown_copy_loop args skills counts :
  conflict args = PSkip → "" ∉ dest args →
  steps grown (copy_loop args skills counts).
Proof.
  intros Hp Hd. revert counts.
  induction skills as [|s rest IH]; intros counts; simpl; rewrite ?Hp;
    steps_step; auto using steps_grown_copy_skill.
Qed.

Lemma steps_grown_main home args :
  conflict args = PSkip → prune args = false → "" ∉ dest args →
  steps grown (main home args).
Proof.
  intros Hp Hprune Hd. unfold main. steps_step.
  unfold run, ensure_dest, copy_all, prune_step.
  rewrite Hprune, andb_false_r. steps_step;
    auto using steps_grown_copy_loop.
  apply steps_fs_update; [apply _|]. intros fs fs' Hf.
  by apply (grown_makedirs fs (dest args)).
Qed.

(** ** A fresh copy *)

(** Copying into a place that does not exist yet, on a well-formed store:
    the new tree is the source tree, and what existed is untouched. *)
Lemma fresh_copy fs src dst fs' :
  wf fs → copytree fs src dst = Some fs' →
  (∀ rel, fs' !! (dst ++ rel) = fs !! (src ++ rel))
  ∧ (∀ k v, fs !! k = Some v → fs' !! k = Some v).
Proof.
  intros Hwf Hcp.
  pose proof (copytree_Some_inv _ _ _ _ Hcp) as (Hsrc & Hnone & Hrel).
  split.
  - intros rel.
    destruct (lookup_copytree _ _ _ _ (dst ++ rel) Hcp) as [fsm [Hmk ->]].
    rewrite relative_to_app.
    destruct (fs !! (src ++ rel)) as [v|] eqn:Ev; [done|].
    rewrite (lookup_makedirs _ _ _ _ Hmk), (wf_None_below _ _ _ Hwf Hnone).
    destruct (relative_to (dst ++ rel) dst) as [r|] eqn:E; [|done].
    apply relative_to_Some in E. rewrite <-(assoc_L (++)) in E.
    rewrite <-(app_nil_r dst) in E at 1. apply app_inv_head in E.
    symmetry in E. apply app_eq_nil in E as [-> _].
    rewrite app_nil_r in Ev. congruence.
  - intros k v Hk.
    destruct (lookup_copytree _ _ _ _ k Hcp) as [fsm [Hmk ->]].
    destruct (relative_to dst k) as [rel|] eqn:E.
    + apply relative_to_Some in E. subst k.
      rewrite (wf_None_below _ _ _ Hwf Hnone) in Hk. done.
    + by rewrite (lookup_makedirs _ _ _ _ Hmk), Hk.
Qed.

(** ** The tally *)

Lemma processed_bump a c : processed (bump a c) = S (processed c).
Proof. destruct a; unfold processed, bump; simpl; lia. Qed.

Lemma copy_loop_processed args skills counts w counts' w' :
  copy_loop args skills counts w = (Ret counts', w') →
  processed counts' = processed counts + length skills.
Proof.
  revert counts w. induction skills as [|s rest IH]; intros counts w.
  { simpl. intros [= <- <-]. lia. }
  rewrite copy_loop_cons.
  destruct (copy_skill _ _ _ _ _) as [[a|e] w1]; [|done].
  intros Hrest. apply IH in Hrest. rewrite Hrest, processed_bump. simpl. lia.
Qed.

(** ** The scanner, further *)



(** X3. A scan reads only the root and what lies below it: two stores that
    agree there give the same result, in either mode. *)
Theorem scan_reads_only_below_root (fs1 fs2 : tree) (root : path) (rec : bool) :
  agree_below root fs1 fs2 →
  list_skill_dirs fs1 root rec = list_skill_dirs fs2 root rec.
Proof. apply list_skill_dirs_ext. Qed.

Lemma scan_reads_only_below_root_witness :
  list_skill_dirs fs_abort ["s"] true
  = list_skill_dirs (w_fs (main [] args_skip (World fs_abort [] [])).2) ["s"] true.
Proof.
  apply scan_reads_only_below_root, subtree_agree. vm_compute. reflexivity.
Defined.

(** ** What a run leaves alone *)



(** X5. Under the skip policy and without prune, a run on a well-formed
    store never removes or alters an entry: whatever the outcome, every
    entry is still there with its content, and the store is still well
    formed. *)
Theorem skip_run_never_destroys (home : path) (args : Args) (w : world) :
  conflict args = PSkip → prune args = false → "" ∉ dest args →
  wf (w_fs w) →
  wf (w_fs (main home args w).2)
  ∧ ∀ k v, w_fs w !! k = Some v → w_fs (main home args w).2 !! k = Some v.
Proof.
  intros Hp Hprune Hd Hwf. by apply (steps_grown_main home args Hp Hprune Hd w).
Qed.

Lemma skip_run_never_destroys_witness :
  let w := World fs_abort [] [] in
  wf (w_fs (main [] args_skip w).2)
  ∧ ∀ k v, w_fs w !! k = Some v → w_fs (main [] args_skip w).2 !! k = Some v.
Proof.
  intros w. apply (skip_run_never_destroys [] args_skip w).
  - reflexivity.
  - reflexivity.
  - vm_compute. intros Hin. apply list_elem_of_singleton in Hin. discriminate.
  - apply wfb_wf. vm_compute. reflexivity.
Defined.

(** X6. With a conflict policy other than ask, or in preview mode, a run
    never reads standard input: the lines waiting there are the same after
    the run, whatever its outcome. *)
Theorem quiet_run_leaves_stdin (home : path) (args : Args) (w : world) :
  conflict args ≠ PAsk ∨ dry_run args = true →
  w_in (main home args w).2 = w_in w.
Proof. intros Hquiet. by apply keeps_in_main. Qed.

Lemma quiet_run_leaves_stdin_witness :
  w_in (main [] args_preview (World fs_conflict ["o"; "a"] [])).2 = ["o"; "a"].
Proof.
  apply (quiet_run_leaves_stdin [] args_preview (World fs_conflict ["o"; "a"] [])).
  right. reflexivity.
Defined.

(** ** The copy step, further *)

(** X7. When the destination entry does not exist, on a well-formed store
    outside preview mode: a copy step that returns has returned "copy"
    without consulting the resolver, the destination now holds at every
    relative path what the source holds there, every entry that existed is
    untouched, and nothing was read or written on the console.  And the
    step does return when the source is a directory, the destination root
    is a directory and the destination does not lie inside the source. *)
Theorem copy_creates_exact_copy (src_dir dest_root : path) (p : policy)
    (w : world) :
  let dest_dir := joinpath dest_root (name src_dir) in
  wf (w_fs w) →
  w_fs w !! dest_dir = None →
  (∀ a w',
     copy_skill src_dir dest_root p false w = (Ret a, w') →
     a = Copy
     ∧ (∀ rel, w_fs w' !! (dest_dir ++ rel) = w_fs w !! (src_dir ++ rel))
     ∧ (∀ k v, w_fs w !! k = Some v → w_fs w' !! k = Some v)
     ∧ w_in w' = w_in w ∧ w_out w' = w_out w)
  ∧ (w_fs w !! src_dir = Some Dir →
     w_fs w !! dest_root = Some Dir →
     relative_to src_dir dest_dir = None →
     ∃ w', copy_skill src_dir dest_root p false w = (Ret Copy, w')).
Proof.
  intros dest_dir Hwf Hnone.
  assert (Hunf : copy_skill src_dir dest_root p false w
                 = do_copy src_dir dest_dir Copy w).
  { rewrite copy_skill_unfold. cbv zeta. fold dest_dir.
    apply exists_false in Hnone. by rewrite Hnone. }
  rewrite Hunf. split.
  - intros a w' Hrun.
    apply do_copy_fs_inv in Hrun as [(? & _)|(fs' & Hcp & ? & ->)]; [done|].
    simplify_eq/=. split; [done|].
    destruct (fresh_copy _ _ _ _ Hwf Hcp) as [Hsame Hkeep]. done.
  - intros Hsrc Hroot Hrel. unfold do_copy.
    destruct (copytree_Some (w_fs w) src_dir dest_dir) as [fs' ->];
      [done..| |by eauto].
    intros q Hq. unfold is_file.
    destruct (decide (q = dest_dir)) as [->|Hne]; [by rewrite Hnone|].
    assert (Hqr : is_Some (relative_to q dest_root)).
    { unfold dest_dir, joinpath in *. case_decide; [done|].
      destruct Hq as [r Hr]. apply relative_to_Some in Hr.
      destruct r as [|x r _] using rev_ind.
      - rewrite app_nil_r in Hr. by subst.
      - rewrite (assoc_L (++)) in Hr. apply app_inj_tail in Hr as [-> _].
        rewrite relative_to_app. eauto. }
    destruct (decide (q = dest_root)) as [->|Hne']; [by rewrite Hroot|].
    rewrite (wf_no_file_above (w_fs w) dest_root q); [done..| |done|done].
    by rewrite Hroot.
Qed.

Lemma copy_creates_exact_copy_witness :
  let w := World fs_abort [] [] in
  let w' := (copy_skill ["s"; "a"] ["d"] PAsk false w).2 in
  (copy_skill ["s"; "a"] ["d"] PAsk false w).1 = Ret Copy
  ∧ (∀ rel, w_fs w' !! (["d"; "a"] ++ rel) = w_fs w !! (["s"; "a"] ++ rel)).
Proof.
  intros w w'.
  assert (Hwf : wf (w_fs w)) by (apply wfb_wf; vm_compute; reflexivity).
  assert (Hnone : w_fs w !! joinpath ["d"] (name ["s"; "a"]) = None)
    by (vm_compute; reflexivity).
  destruct (copy_creates_exact_copy ["s"; "a"] ["d"] PAsk w Hwf Hnone)
    as [Hpartial _].
  destruct (Hpartial Copy w') as (_ & Hsame & _).
  { vm_compute. reflexivity. }
  split; [vm_compute; reflexivity|exact Hsame].
Defined.

(** X8. When the copy loop completes, the three counts of the tally add up
    to the number of skills: every skill is counted exactly once, as
    copied, overwritten or skipped. *)
Theorem tally_accounts_for_every_skill (args : Args) (skills : list path)
    (w w' : world) (counts : Counts) :
  copy_loop args skills no_counts w = (Ret counts, w') →
  n_copy counts + n_overwrite counts + n_skip counts = length skills.
Proof. intros H. by apply copy_loop_processed in H. Qed.

Lemma tally_accounts_for_every_skill_witness :
  let r := copy_loop args_skip [["s"; "a"]; ["s"; "b"]] no_counts
             (World fs_abort [] []) in
  n_copy {| n_copy := 1; n_overwrite := 0; n_skip := 1 |}
  + n_overwrite {| n_copy := 1; n_overwrite := 0; n_skip := 1 |}
  + n_skip {| n_copy := 1; n_overwrite := 0; n_skip := 1 |}
  = length [["s"; "a"]; ["s"; "b"]].
Proof.
  intros r.
  apply (tally_accounts_for_every_skill args_skip [["s"; "a"]; ["s"; "b"]]
           (World fs_abort [] []) r.2).
  vm_compute. reflexivity.
Defined.

(** X9. Under a fixed policy (skip, overwrite or abort) the preview of a
    copy step tells what the real step does from the same world.  The
    preview changes nothing and writes nothing; when the real step returns
    an action the preview returns the same action; and when the preview
    raises, the real step raises the same error, leaving the world as it
    is. *)
Theorem preview_tells_the_action (src_dir dest_root : path) (p : policy)
    (w : world) :
  p ≠ PAsk →
  (∀ r w', copy_skill src_dir dest_root p true w = (r, w') → w' = w)
  ∧ (∀ a w', copy_skill src_dir dest_root p false w = (Ret a, w') →
             copy_skill src_dir dest_root p true w = (Ret a, w))
  ∧ (∀ e, copy_skill src_dir dest_root p true w = (Raise e, w) →
          copy_skill src_dir dest_root p false w = (Raise e, w)).
Proof.
  intros Hp. rewrite !copy_skill_unfold. cbv zeta.
  rewrite !resolve_conflict_fixed by done.
  set (dst := joinpath dest_root (name src_dir)).
  destruct (exists_ (w_fs w) dst).
  - destruct p; [done| | |].
    + split; [|split].
      * intros r w' Heq. by simplify_eq.
      * intros a w' Heq. by simplify_eq.
      * intros e Heq. by simplify_eq.
    + split; [|split].
      * intros r w' Heq. by simplify_eq.
      * intros a w'. destruct (rmtree _ _); [|intros Heq; by simplify_eq].
        intros Heq.
        apply do_copy_fs_inv in Heq as [(? & _)|(? & _ & ? & _)]; congruence.
      * intros e Heq. by simplify_eq.
    + split; [|split].
      * intros r w' Heq. by simplify_eq.
      * intros a w' Heq. by simplify_eq.
      * intros e Heq. by simplify_eq.
  - split; [|split].
    + intros r w' Heq. by simplify_eq.
    + intros a w' Heq.
      apply do_copy_fs_inv in Heq as [(? & _)|(? & _ & ? & _)]; congruence.
    + intros e Heq. by simplify_eq.
Qed.

Lemma preview_tells_the_action_witness :
  copy_skill ["s"; "a"] ["d"] POverwrite true (World fs_conflict [] [])
  = (Ret Overwrite, World fs_conflict [] []).
Proof.
  set (w := World fs_conflict [] []).
  destruct (preview_tells_the_action ["s"; "a"] ["d"] POverwrite w)
    as (_ & H & _).
  - done.
  - apply (H Overwrite (copy_skill ["s"; "a"] ["d"] POverwrite false w).2).
    vm_compute. reflexivity.
Defined.

(** ** Pruning, further *)

Lemma direct_scan_Some fs root :
  fs !! root = Some Dir → is_Some (list_skill_dirs fs root false).
Proof.
  intros Hdir. rewrite list_skill_dirs_direct_eq. unfold iterdir.
  apply is_dir_true in Hdir. rewrite Hdir. simpl. eauto.
Qed.

Lemma prune_store_nothing_stale names fs ds :
  stale names ds = [] → prune_store names fs ds = Some fs.
Proof.
  induction ds as [|d rest IH]; [done|]. rewrite stale_cons. simpl.
  case_bool_decide; [done|]. discriminate.
Qed.

(** X10. When the destination root is a directory, the preview of a prune
    and the real prune agree: both return the same count, the preview
    writes one PRUNE line for each directory of a list [removed] and leaves
    the store, and the real prune writes nothing and removes exactly the
    entries at or below the directories of [removed]; the count is the
    length of [removed]. *)
Theorem prune_preview_matches_real (names : gset string) (dest_root : path)
    (w : world) :
  w_fs w !! dest_root = Some Dir →
  ∃ removed fs',
    prune_dest names dest_root true w
    = (Ret (length removed), say w (prune_line <$> removed))
    ∧ prune_dest names dest_root false w
      = (Ret (length removed), with_fs w fs')
    ∧ (∀ d, d ∈ removed →
            w_fs w !! d = Some Dir ∧ parent d = dest_root ∧ name d ∉ names)
    ∧ (∀ k, fs' !! k = if below_any removed k then None else w_fs w !! k).
Proof.
  intros Hdir. destruct (direct_scan_Some _ _ Hdir) as [ds Hds].
  pose proof (prune_dest_spec names dest_root true w) as Hpre.
  pose proof (prune_dest_spec names dest_root false w) as Hreal.
  rewrite Hds in Hpre, Hreal. destruct Hreal as (fs' & Hst & Hreal).
  exists (stale names ds), fs'. split; [done|]. split; [done|]. split.
  - intros d Hd. apply list_elem_of_filter in Hd as [Hn Hd].
    apply (elem_of_direct _ _ _ _ Hds) in Hd as (n & -> & _ & Hd & _).
    by rewrite parent_snoc.
  - intros k. by apply lookup_prune_store.
Qed.

Lemma prune_preview_matches_real_witness :
  ∃ removed fs',
    prune_dest {["a"]} ["d"] true (World fs_dest [] [])
    = (Ret (length removed), say (World fs_dest [] []) (prune_line <$> removed))
    ∧ prune_dest {["a"]} ["d"] false (World fs_dest [] [])
      = (Ret (length removed), with_fs (World fs_dest [] []) fs')
    ∧ (∀ d, d ∈ removed →
            fs_dest !! d = Some Dir ∧ parent d = ["d"] ∧ name d ∉ ({["a"]} : gset string))
    ∧ (∀ k, fs' !! k = if below_any removed k then None else fs_dest !! k).
Proof.
  apply (prune_preview_matches_real {["a"]} ["d"] (World fs_dest [] [])).
  vm_compute. reflexivity.
Defined.

(** X11. Pruning twice removes nothing the second time: after a real prune
    that returned, a second prune with the same names returns 0 and leaves
    the store and the console as they are. *)
Theorem prune_twice_removes_nothing (names : gset string) (dest_root : path)
    (w w' : world) (n : nat) :
  prune_dest names dest_root false w = (Ret n, w') →
  prune_dest names dest_root false w' = (Ret 0, w').
Proof.
  intros Hrun. pose proof (prune_dest_spec names dest_root false w) as H.
  destruct (list_skill_dirs (w_fs w) dest_root false) as [ds|] eqn:Hds;
    [|congruence].
  destruct H as (fs' & Hst & H). rewrite H in Hrun. simplify_eq.
  assert (Hroot : w_fs w !! dest_root = Some Dir).
  { rewrite list_skill_dirs_direct_eq in Hds. unfold iterdir in Hds.
    destruct (is_dir _ _) eqn:E; [|done]. by apply is_dir_true. }
  assert (Hroot' : fs' !! dest_root = Some Dir).
  { rewrite (lookup_prune_store _ _ _ _ dest_root Hst).
    destruct (below_any _ _) eqn:Hb; [|done].
    apply below_any_spec in Hb as (d & rel & Hd & Heq).
    apply list_elem_of_filter in Hd as [_ Hd].
    apply (elem_of_direct _ _ _ _ Hds) in Hd as (m & -> & _).
    rewrite <-(assoc_L (++)) in Heq.
    rewrite <-(app_nil_r dest_root) in Heq at 1.
    apply app_inv_head in Heq. done. }
  pose proof (prune_dest_spec names dest_root false (with_fs w fs')) as H2.
  change (w_fs (with_fs w fs')) with fs' in H2.
  destruct (direct_scan_Some _ _ Hroot') as [ds' Hds']. rewrite Hds' in H2.
  destruct H2 as (fs2 & Hst2 & ->).
  assert (Hnone : stale names ds' = []).
  { apply elem_of_nil_inv. intros d Hd.
    apply list_elem_of_filter in Hd as [Hn Hd].
    pose proof Hd as Hd0.
    apply (elem_of_direct _ _ _ _ Hds') in Hd as (m & -> & Hh & Hdir & Hf).
    apply is_file_true in Hf as [data Hf].
    rewrite (lookup_prune_store _ _ _ _ _ Hst) in Hdir.
    rewrite (lookup_prune_store _ _ _ _ _ Hst) in Hf.
    destruct (below_any _ (dest_root ++ [m])) eqn:Hb; [done|].
    destruct (below_any _ ((dest_root ++ [m]) ++ [MARKER])) eqn:Hb';
      [done|].
    assert (Hin : dest_root ++ [m] ∈ stale names ds).
    { apply list_elem_of_filter. split; [done|].
      apply (elem_of_direct _ _ _ _ Hds). exists m.
      split; [done|]. split; [done|]. split; [done|].
      apply is_file_true. eauto. }
    assert (below_any (stale names ds) (dest_root ++ [m]) = true); [|congruence].
    apply below_any_spec. exists (dest_root ++ [m]), [].
    by rewrite app_nil_r. }
  rewrite Hnone. rewrite prune_store_nothing_stale in Hst2 by done.
  simplify_eq. done.
Qed.

Lemma prune_twice_removes_nothing_witness :
  let w' := (prune_dest {["a"]} ["d"] false (World fs_dest [] [])).2 in
  prune_dest {["a"]} ["d"] false w' = (Ret 0, w').
Proof.
  intros w'.
  apply (prune_twice_removes_nothing {["a"]} ["d"] (World fs_dest [] []) w' 1).
  vm_compute. reflexivity.
Defined.

(** ** Where the copy step fails *)

(** X12. Overwriting a skill with itself destroys it.  When the source
    skill is its own destination entry, or lies inside it, the overwrite
    step outside preview mode removes the destination entry, the source
    with it, and then raises because the source is gone: nothing is left at
    or below either path, and the rest of the store is as before. *)
Theorem overwrite_onto_itself_destroys (src_dir dest_root : path) (w : world) :
  let dest_dir := joinpath dest_root (name src_dir) in
  w_fs w !! dest_dir = Some Dir →
  is_Some (relative_to dest_dir src_dir) →
  ∃ w', copy_skill src_dir dest_root POverwrite false w = (Raise OSError, w')
      ∧ (∀ rel, w_fs w' !! (src_dir ++ rel) = None)
      ∧ (∀ rel, w_fs w' !! (dest_dir ++ rel) = None)
      ∧ (∀ k, relative_to dest_dir k = None → w_fs w' !! k = w_fs w !! k)
      ∧ w_in w' = w_in w ∧ w_out w' = w_out w.
Proof.
  intros dest_dir Hdst [r Hr].
  destruct (rmtree_Some _ _ Hdst) as [fs1 Hrm].
  exists (with_fs w fs1). split; [|split; [|split; [|split]]].
  - rewrite copy_skill_unfold. cbv zeta. fold dest_dir.
    assert (exists_ (w_fs w) dest_dir = true) as ->.
    { apply exists_true. by rewrite Hdst. }
    rewrite resolve_conflict_fixed by done. cbn [negb].
    rewrite Hrm. unfold do_copy.
    destruct (copytree _ _ _) as [fs2|] eqn:Hcp; [exfalso|done].
    apply copytree_Some_inv in Hcp as (Hsrc & _ & _). simpl in Hsrc.
    by rewrite (lookup_rmtree _ _ _ _ Hrm), Hr in Hsrc.
  - intros rel. simpl. rewrite (lookup_rmtree _ _ _ _ Hrm).
    destruct (relative_to_trans dest_dir src_dir (src_dir ++ rel) r Hr)
      as [r' ->]; [|done].
    rewrite relative_to_app. eauto.
  - intros rel. simpl. by rewrite (lookup_rmtree _ _ _ _ Hrm), relative_to_app.
  - intros k Hk. simpl. by rewrite (lookup_rmtree _ _ _ _ Hrm), Hk.
  - done.
Qed.

Lemma overwrite_onto_itself_destroys_witness :
  ∃ w', copy_skill ["d"; "a"] ["d"] POverwrite false (World fs_dest [] [])
        = (Raise OSError, w')
      ∧ w_fs w' !! ["d"; "a"; "SKILL.md"] = None.
Proof.
  destruct (overwrite_onto_itself_destroys ["d"; "a"] ["d"] (World fs_dest [] []))
    as (w' & Hrun & Hsrc & _).
  - vm_compute. reflexivity.
  - vm_compute. eauto.
  - exists w'. split; [exact Hrun|]. exact (Hsrc ["SKILL.md"]).
Defined.

(** X13. When the destination root is a regular file, on a well-formed
    store and for a skill with a name: outside preview mode the copy step
    raises whatever the policy, without consulting the resolver and leaving
    store and console untouched; the preview of the same step reports a
    copy. *)
Theorem copy_below_regular_file_raises (src_dir dest_root : path) (p : policy)
    (w : world) (data : string) :
  wf (w_fs w) →
  w_fs w !! dest_root = Some (File data) →
  name src_dir ≠ "" →
  copy_skill src_dir dest_root p false w = (Raise OSError, w)
  ∧ copy_skill src_dir dest_root p true w = (Ret Copy, w).
Proof.
  intros Hwf Hroot Hn. rewrite !copy_skill_unfold. cbv zeta.
  rewrite joinpath_snoc by done.
  assert (Hnone : w_fs w !! (dest_root ++ [name src_dir]) = None).
  { apply eq_None_not_Some. intros Hsome.
    destruct (Hwf _ _ Hsome) as [_ Hd]. congruence. }
  apply exists_false in Hnone as Hex. rewrite Hex. split; [|done].
  unfold do_copy. destruct (copytree _ _ _) as [fs'|] eqn:Hcp; [exfalso|done].
  destruct (lookup_copytree _ _ _ _ [] Hcp) as (fs1 & Hmk & _).
  assert (Hf : is_file (w_fs w) dest_root = false).
  { apply (makedirs_Some_inv _ _ _ dest_root Hmk). rewrite relative_to_app. eauto. }
  assert (is_file (w_fs w) dest_root = true); [|congruence].
  apply is_file_true. eauto.
Qed.

Lemma copy_below_regular_file_raises_witness :
  let w := World fs_dest [] [] in
  copy_skill ["d"; "a"] ["d"; "notes"] PSkip false w = (Raise OSError, w)
  ∧ copy_skill ["d"; "a"] ["d"; "notes"] PSkip true w = (Ret Copy, w).
Proof.
  intros w. apply (copy_below_regular_file_raises _ _ PSkip w "n").
  - apply wfb_wf. vm_compute. reflexivity.
  - vm_compute. reflexivity.
  - vm_compute. discriminate.
Defined.

(** ** The destination root during a run *)

Lemma copy_skill_root_stays src_dir dest_root p w a w' :
  copy_skill src_dir dest_root p false w = (Ret a, w') →
  is_Some (w_fs w !! dest_root) → is_Some (w_fs w' !! dest_root).
Proof.
  intros Hrun Hroot.
  apply copy_skill_Ret in Hrun as
    [(_ & _ & ->)|[(_ & _ & Hcp)|(_ & _ & fs1 & Hrm & Hcp)]]; [done| |].
  - by apply (copytree_mono _ _ _ _ _ Hcp).
  - unfold joinpath in *. case_decide.
    + apply copytree_target in Hcp. rewrite Hcp. eauto.
    + apply (copytree_mono _ _ _ _ _ Hcp).
      rewrite (lookup_rmtree _ _ _ _ Hrm).
      destruct (relative_to _ _) as [rel|] eqn:E; [|done].
      apply relative_to_Some in E. rewrite <-(assoc_L (++)) in E.
      rewrite <-(app_nil_r dest_root) in E at 1.
      by apply app_inv_head in E.
Qed.

Lemma copy_loop_root_stays args skills counts w counts' w' :
  dry_run args = false →
  copy_loop args skills counts w = (Ret counts', w') →
  is_Some (w_fs w !! dest args) → is_Some (w_fs w' !! dest args).
Proof.
  intros Hreal. revert counts w.
  induction skills as [|s rest IH]; intros counts w.
  { intros Heq Hroot. cbn in Heq. unfold ret in Heq. by simplify_eq. }
  rewrite copy_loop_cons, Hreal.
  destruct (copy_skill _ _ _ _ _) as [[a|e] w1] eqn:Hcs; [|done].
  intros Hrest Hroot. apply (IH _ _ Hrest). simpl.
  by apply (copy_skill_root_stays _ _ _ _ _ _ Hcs).
Qed.

(** X14. Outside preview mode the destination root exists when the prune
    step starts, whatever the copy loop did in between: the prune step of a
    sync run with prune is then the prune of the destination root, and the
    message about a missing destination is never written. *)
Theorem real_prune_always_scans (args : Args) (skills : list path)
    (w0 wa wb : world) (evs : list event) (counts : Counts) :
  dry_run args = false → mode args = ModeSync → prune args = true →
  ensure_dest args w0 = (Ret (), wa) →
  copy_loop args skills no_counts (say wa evs) = (Ret counts, wb) →
  is_Some (w_fs wb !! dest args)
  ∧ prune_step args skills wb
    = prune_dest (source_names skills) (dest args) false wb.
Proof.
  intros Hreal Hmode Hprune Hens Hloop.
  assert (Hroot : is_Some (w_fs wb !! dest args)).
  { apply (copy_loop_root_stays _ _ _ _ _ _ Hreal Hloop). simpl.
    by destruct (ensure_dest_Ret _ _ _ Hreal Hens) as [? _]. }
  split; [done|]. unfold prune_step.
  rewrite Hmode, Hprune, Hreal, bool_decide_eq_true_2 by done.
  unfold bind, fs_read. cbn [andb fst snd].
  apply exists_true in Hroot. by rewrite Hroot.
Qed.

Lemma real_prune_always_scans_witness :
  let wa := World fs_sync [] [] in
  let wb := (copy_loop args_sync [["s"; "a"]] no_counts (say wa [])).2 in
  is_Some (w_fs wb !! dest args_sync)
  ∧ prune_step args_sync [["s"; "a"]] wb
    = prune_dest (source_names [["s"; "a"]]) (dest args_sync) false wb.
Proof.
  intros wa wb.
  apply (real_prune_always_scans args_sync [["s"; "a"]] wa wa wb []
           (bump Skip no_counts)).
  - reflexivity.
  - reflexivity.
  - reflexivity.
  - vm_compute. reflexivity.
  - vm_compute. reflexivity.
Defined.

(** ** Reading the exit code *)

Lemma resolve_abort_policy dest_dir p dry w w' :
  resolve_conflict dest_dir p dry w = (Ret PAbort, w') →
  p = PAbort ∨ (p = PAsk ∧ dry = false).
Proof.
  destruct (decide (p = PAsk)) as [->|Hp].
  - destruct dry; [|by right].
    destruct (resolve_conflict_preview dest_dir w) as [line ->]. done.
  - rewrite resolve_conflict_fixed by done. intros Heq. left. by simplify_eq.
Qed.

Lemma copy_loop_RuntimeError args skills counts w msg w' :
  copy_loop args skills counts w = (Raise (RuntimeError msg), w') →
  ∃ s w1, s ∈ skills
        ∧ exists_ (w_fs w1) (dest_of args s) = true
        ∧ resolve_conflict (dest_of args s) (conflict args) (dry_run args) w1
          = (Ret PAbort, w')
        ∧ w_fs w' = w_fs w1.
Proof.
  revert counts w. induction skills as [|s rest IH]; intros counts w.
  { cbn. unfold ret. done. }
  rewrite copy_loop_cons.
  destruct (copy_skill _ _ _ _ _) as [[a|e] w1] eqn:Hcs.
  - intros Hrest. destruct (IH _ _ Hrest) as (s' & w2 & Hin & H).
    exists s', w2. split; [by right|done].
  - intros Heq. simplify_eq.
    apply copy_skill_RuntimeError in Hcs as (Hex & Hres & Hfs).
    exists s, w. split; [by left|done].
Qed.



(** ** The source roots *)

Lemma validate_log_length fs sources :
  length (validate_log fs sources) + length (valid_of fs sources)
  = length sources.
Proof.
  unfold valid_of. induction sources as [|[p rec] rest IH]; [done|].
  rewrite filter_cons. cbn [validate_log fst].
  assert (Hd : exists_ fs p = false → is_dir fs p = false).
  { unfold is_dir, exists_. by destruct (fs !! p). }
  destruct (exists_ fs p) eqn:Hex; cbn [negb].
  - destruct (is_dir fs p) eqn:Hdir; cbn [negb];
      case_decide as Hc; simpl in Hc; cbn [length]; try lia;
      by rewrite ?Hdir in Hc.
  - rewrite Hd by done. case_decide as Hc; simpl in Hc; cbn [length]; try lia.
Qed.

Lemma validate_log_stderr fs sources :
  Forall (λ e, ∃ line, e = PrintErr line) (validate_log fs sources).
Proof.
  induction sources as [|[p rec] rest IH]; [constructor|]. cbn [validate_log].
  destruct (negb (exists_ fs p)); [constructor; eauto|].
  destruct (negb (is_dir fs p)); [constructor; eauto|done].
Qed.

(** X16. The check of the source roots never raises and never touches the
    store or the input: it returns, in the order given, exactly the roots
    that are directories, each with its flag, and writes one line on
    standard error, and nothing else, for each root it drops. *)
Theorem validate_keeps_the_directories (sources : list (path * bool))
    (w : world) :
  ∃ evs,
    validate sources w
    = (Ret (filter (λ s, is_dir (w_fs w) s.1) sources), say w evs)
    ∧ length evs + length (filter (λ s, is_dir (w_fs w) s.1) sources)
      = length sources
    ∧ Forall (λ e, ∃ line, e = PrintErr line) evs.
Proof.
  exists (validate_log (w_fs w) sources). split; [apply validate_spec|].
  split; [apply validate_log_length|apply validate_log_stderr].
Qed.

(** ** Skills that share a name *)

(** Under the skip policy a copy step leaves an entry of the destination
    root that exists, with all below it, as it is. *)
Lemma copy_skill_skip_entry src_dir dest_root n w a w' :
  wf (w_fs w) → is_Some (w_fs w !! (dest_root ++ [n])) →
  copy_skill src_dir dest_root PSkip false w = (Ret a, w') →
  ∀ rel, w_fs w' !! ((dest_root ++ [n]) ++ rel) = w_fs w !! ((dest_root ++ [n]) ++ rel).
Proof.
  intros Hwf [v Hdst']. pose proof (mk_is_Some _ _ Hdst') as Hdst.
  rewrite copy_skill_unfold. cbv zeta.
  rewrite resolve_conflict_fixed by done.
  destruct (exists_ _ _) eqn:Hex; [by intros; simplify_eq|].
  intros Hrun rel.
  apply do_copy_fs_inv in Hrun as [(? & _)|(fs' & Hcp & _ & ->)]; [done|].
  simpl. apply exists_false in Hex.
  assert (Hroot : w_fs w !! dest_root = Some Dir).
  { by apply (wf_ancestor _ _ [n]). }
  assert (joinpath dest_root (name src_dir) = dest_root ++ [name src_dir]
          ∧ name src_dir ≠ n) as [Hj Hne].
  { unfold joinpath in *. case_decide; [congruence|]. split; [done|].
    intros Heq. rewrite Heq, Hdst' in Hex. done. }
  rewrite Hj in *.
  set (k := (dest_root ++ [n]) ++ rel).
  destruct (lookup_copytree _ _ _ _ k Hcp) as (fs1 & Hmk & ->).
  assert (relative_to (dest_root ++ [name src_dir]) k = None) as ->.
  { apply relative_to_None. intros r Hr. unfold k in Hr.
    rewrite <-!(assoc_L (++)) in Hr. apply app_inv_head in Hr.
    by simplify_eq/=. }
  rewrite (lookup_makedirs _ _ _ k Hmk).
  destruct (w_fs w !! k) eqn:Hk; [done|].
  destruct (relative_to k _) as [r|] eqn:Hr; [exfalso|done].
  apply relative_to_Some in Hr. unfold k in Hr.
  rewrite <-!(assoc_L (++)) in Hr. apply app_inv_head in Hr.
  by simplify_eq/=.
Qed.

Lemma copy_loop_skip_entry args skills n counts w counts' w' :
  conflict args = PSkip → dry_run args = false → "" ∉ dest args →
  wf (w_fs w) → is_Some (w_fs w !! (dest args ++ [n])) →
  copy_loop args skills counts w = (Ret counts', w') →
  ∀ rel, w_fs w' !! ((dest args ++ [n]) ++ rel)
         = w_fs w !! ((dest args ++ [n]) ++ rel).
Proof.
  intros Hp Hreal Hd. revert counts w.
  induction skills as [|s rest IH]; intros counts w Hwf Hdst.
  { cbn. unfold ret. by intros; simplify_eq. }
  rewrite copy_loop_cons, Hp, Hreal.
  destruct (copy_skill _ _ _ _ _) as [[a|e] w1] eqn:Hcs; [|done].
  intros Hrest rel.
  pose proof (copy_skill_skip_entry _ _ _ _ _ _ Hwf Hdst Hcs) as Hstep.
  assert (Hwf1 : wf (w_fs w1)).
  { pose proof (preserves_wf_copy_skill s _ PSkip false Hd w Hwf) as H.
    by rewrite Hcs in H. }
  assert (Hdst1 : is_Some (w_fs w1 !! (dest args ++ [n]))).
  { specialize (Hstep []). rewrite app_nil_r in Hstep. by rewrite Hstep. }
  rewrite (IH _ (say w1 _) Hwf1 Hdst1 Hrest). apply Hstep.
Qed.

(** X17. Under the skip policy the first skill of a name wins.  Outside
    preview mode, on a well-formed store where the destination has no entry
    of the skill's name: when the copy loop over the skill and any skills
    after it completes, the destination entry holds at every relative path
    what the skill held there at the start, whatever the later skills are,
    those of the same name included. *)
Theorem first_source_wins_under_skip (args : Args) (s : path)
    (rest : list path) (counts counts' : Counts) (w w' : world) :
  conflict args = PSkip → dry_run args = false → "" ∉ dest args →
  wf (w_fs w) → name s ≠ "" →
  w_fs w !! dest_of args s = None →
  copy_loop args (s :: rest) counts w = (Ret counts', w') →
  ∀ rel, w_fs w' !! (dest_of args s ++ rel) = w_fs w !! (s ++ rel).
Proof.
  intros Hp Hreal Hd Hwf Hn Hnone. rewrite copy_loop_cons, Hp, Hreal.
  destruct (copy_skill _ _ _ _ _) as [[a|e] w1] eqn:Hcs; [|done].
  intros Hrest rel.
  assert (Hwf1 : wf (w_fs w1)).
  { pose proof (preserves_wf_copy_skill s _ PSkip false Hd w Hwf) as H.
    by rewrite Hcs in H. }
  unfold dest_of in *. rewrite joinpath_snoc in * by done.
  apply copy_skill_Ret in Hcs as
    [(_ & Hex & _)|[(_ & _ & Hcp)|(_ & Hex & _)]].
  - rewrite joinpath_snoc, Hnone in Hex by done. by destruct Hex.
  - rewrite joinpath_snoc in Hcp by done.
    destruct (fresh_copy _ _ _ _ Hwf Hcp) as [Hsame _].
    assert (Hdst1 : is_Some (w_fs w1 !! (dest args ++ [name s]))).
    { apply copytree_target in Hcp. rewrite Hcp. eauto. }
    rewrite (copy_loop_skip_entry _ _ _ _ (say w1 _) _ _
               Hp Hreal Hd Hwf1 Hdst1 Hrest).
    apply Hsame.
  - rewrite joinpath_snoc, Hnone in Hex by done. by destruct Hex.
Qed.

Lemma first_source_wins_under_skip_witness :
  let r := copy_loop args_skip [["s"; "a"]; ["t"; "a"]] no_counts
             (World fs_twins [] []) in
  w_fs r.2 !! (dest_of args_skip ["s"; "a"] ++ ["SKILL.md"])
  = fs_twins !! (["s"; "a"] ++ ["SKILL.md"]).
Proof.
  intros r.
  apply (first_source_wins_under_skip args_skip ["s"; "a"] [["t"; "a"]]
           no_counts (bump Skip (bump Copy no_counts))
           (World fs_twins [] []) r.2).
  - reflexivity.
  - reflexivity.
  - vm_compute. intros Hin. apply list_elem_of_singleton in Hin. discriminate.
  - apply wfb_wf. vm_compute. reflexivity.
  - vm_compute. discriminate.
  - vm_compute. reflexivity.
  - vm_compute. reflexivity.
Defined.

(** X18. Under the overwrite policy the last skill of a name wins.  Outside
    preview mode, on a well-formed store, for a skill that does not lie in
    the destination root: when the copy loop over any skills followed by
    this one completes, the destination entry of its name holds at every
    relative path exactly what the skill held there at the start, whatever
    the earlier skills put there. *)
Theorem last_source_wins_under_overwrite (args : Args) (pre : list path)
    (s : path) (counts counts' : Counts) (w w' : world) :
  conflict args = POverwrite → dry_run args = false → "" ∉ dest args →
  wf (w_fs w) → relative_to (dest args) s = None →
  copy_loop args (pre ++ [s]) counts w = (Ret counts', w') →
  ∀ rel, w_fs w' !! (dest_of args s ++ rel) = w_fs w !! (s ++ rel).
Proof.
  intros Hp Hreal Hd Hwf Hout. rewrite copy_loop_app.
  destruct (copy_loop args pre counts w) as [[c1|e] w1] eqn:Hpre; [|done].
  rewrite copy_loop_cons, Hp, Hreal.
  destruct (copy_skill _ _ _ _ _) as [[a|e] w2] eqn:Hcs; [|done].
  cbn. unfold ret. intros Heq rel. simplify_eq. simpl.
  assert (Hwf1 : wf (w_fs w1)).
  { pose proof (preserves_wf_copy_loop args pre counts Hd w Hwf) as H.
    by rewrite Hpre in H. }
  pose proof (steps_outside_copy_loop args pre counts w) as Hframe.
  rewrite Hpre in Hframe. simpl in Hframe.
  unfold dest_of. set (dst := joinpath (dest args) (name s)) in *.
  assert (Hbelow : is_Some (relative_to (dest args) dst)).
  { unfold dst, joinpath. case_decide.
    - rewrite relative_to_refl. eauto.
    - rewrite relative_to_app. eauto. }
  (* the last step succeeded: source and destination do not overlap *)
  assert (relative_to s dst = None
          ∧ ∀ rel, w_fs w2 !! (dst ++ rel) = w_fs w1 !! (s ++ rel)) as [Hsd Hlast].
  { revert Hcs. rewrite copy_skill_unfold. cbv zeta. fold dst.
    rewrite resolve_conflict_fixed by done.
    destruct (exists_ _ _) eqn:Hex.
    - destruct (rmtree _ _) as [fs1|] eqn:Hrm; [|done]. intros Hrun.
      apply do_copy_fs_inv in Hrun as [(? & _)|(fs2 & Hcp & _ & ->)]; [done|].
      simpl in *.
      pose proof (copytree_Some_inv _ _ _ _ Hcp) as (Hsrc & _ & Hrel).
      split; [done|].
      rewrite (lookup_rmtree _ _ _ _ Hrm) in Hsrc.
      destruct (relative_to dst s) eqn:Hds; [done|].
      apply rmtree_Some_inv in Hrm as Hdir.
      destruct (overwrite_store _ _ _ Hwf1 Hsrc Hdir Hrel Hds)
        as (fs1' & fs2' & Hrm' & Hcp' & Hsame & _).
      by simplify_eq.
    - intros Hrun.
      apply do_copy_fs_inv in Hrun as [(? & _)|(fs2 & Hcp & _ & ->)]; [done|].
      simpl.
      pose proof (copytree_Some_inv _ _ _ _ Hcp) as (_ & _ & Hrel).
      split; [done|]. by destruct (fresh_copy _ _ _ _ Hwf1 Hcp). }
  rewrite Hlast.
  (* the earlier steps did not touch the source *)
  assert (Hnot : ∀ q, is_Some (relative_to (s ++ q) (dest args)) → False).
  { intros q [r Hr]. apply relative_to_Some in Hr.
    destruct Hbelow as [r' Hr']. apply relative_to_Some in Hr'.
    apply (proj1 (relative_to_None _ _) Hsd (q ++ r ++ r')).
    rewrite Hr', Hr. by rewrite <-!(assoc_L (++)). }
  destruct (relative_to (dest args) (s ++ rel)) as [r|] eqn:Hk.
  - exfalso. apply relative_to_Some in Hk.
    pose proof (proj1 (relative_to_None _ _) Hout) as Hn.
    (* [dest] is a prefix of [s ++ rel] and [s] is not below [dest], so
       [dest] lies below [s] *)
    destruct (prefix_weak_total (dest args) s (s ++ rel)) as [[q Hq]|[q Hq]].
    + by exists r.
    + by exists rel.
    + by apply (Hn q).
    + apply (Hnot q). rewrite <-Hq, relative_to_refl. eauto.
  - destruct (Hframe _ Hk) as [Heq|(_ & _ & Hanc)]; [done|].
    by apply Hnot in Hanc.
Qed.

Lemma last_source_wins_under_overwrite_witness :
  let r := copy_loop args_overwrite ([["s"; "a"]] ++ [["t"; "a"]]) no_counts
             (World fs_twins [] []) in
  w_fs r.2 !! (dest_of args_overwrite ["t"; "a"] ++ ["SKILL.md"])
  = fs_twins !! (["t"; "a"] ++ ["SKILL.md"]).
Proof.
  intros r.
  apply (last_source_wins_under_overwrite args_overwrite [["s"; "a"]] ["t"; "a"]
           no_counts (bump Overwrite (bump Copy no_counts))
           (World fs_twins [] []) r.2).
  - reflexivity.
  - reflexivity.
  - vm_compute. intros Hin. apply list_elem_of_singleton in Hin. discriminate.
  - apply wfb_wf. vm_compute. reflexivity.
  - vm_compute. reflexivity.
  - vm_compute. reflexivity.
Defined.

(** ** The recursive scan on any root *)

(** X1. The recursive scan never raises.  It returns the directories at or
    below the root, reached without a hidden segment, that hold an entry
    named SKILL.md of any kind, without repetition and in the order of
    their marker paths; on a root that is not a directory it returns the
    empty list, where the direct scan raises. *)
Theorem recursive_scan_total (fs : tree) (root : path) :
  ∃ l, list_skill_dirs fs root true = Some l
    ∧ (∀ d, d ∈ l ↔
         fs !! root = Some Dir
         ∧ (∃ rel, d = root ++ rel ∧ existsb hidden rel = false)
         ∧ is_Some (fs !! (d ++ [MARKER])))
    ∧ StronglySorted path_le ((λ d, d ++ [MARKER]) <$> l)
    ∧ NoDup l
    ∧ (fs !! root ≠ Some Dir →
       l = [] ∧ list_skill_dirs fs root false = None).
Proof.
  pose proof (list_skill_dirs_recursive_eq fs root) as Heq.
  eexists. split; [done|]. split; [intros d; by apply elem_of_recursive|].
  destruct (recursive_sorted fs root _ Heq) as [Hs Hn].
  split; [done|]. split; [done|]. intros Hroot. split.
  - apply elem_of_nil_inv. intros d Hd.
    apply (elem_of_recursive _ _ _ _ Heq) in Hd as [Hdir _]. done.
  - rewrite list_skill_dirs_direct_eq. unfold iterdir.
    destruct (is_dir fs root) eqn:E; [|done]. by apply is_dir_true in E.
Qed.

(** ** The preview of the copy loop *)

Lemma copy_skill_real_action src_dir dest_root p w a w' wp :
  p ≠ PAsk →
  copy_skill src_dir dest_root p false w = (Ret a, w') →
  exists_ (w_fs wp) (joinpath dest_root (name src_dir))
  = exists_ (w_fs w) (joinpath dest_root (name src_dir)) →
  copy_skill src_dir dest_root p true wp = (Ret a, wp)
  ∧ w_in w' = w_in w ∧ w_out w' = w_out w.
Proof.
  intros Hp. rewrite !copy_skill_unfold. cbv zeta.
  rewrite !resolve_conflict_fixed by done. intros Hrun ->.
  destruct (exists_ (w_fs w) _).
  - destruct p; [done| | |].
    + by simplify_eq.
    + destruct (rmtree _ _); [|done].
      apply do_copy_fs_inv in Hrun as [(? & _)|(? & _ & ? & ->)]; [done|].
      by simplify_eq.
    + done.
  - apply do_copy_fs_inv in Hrun as [(? & _)|(? & _ & ? & ->)]; [done|].
    by simplify_eq.
Qed.

Lemma copy_skill_other_entries src_dir dest_root p w a w' n' :
  wf (w_fs w) → is_Some (w_fs w !! dest_root) →
  copy_skill src_dir dest_root p false w = (Ret a, w') →
  n' ≠ name src_dir →
  w_fs w' !! joinpath dest_root n' = w_fs w !! joinpath dest_root n'.
Proof.
  intros Hwf Hroot Hrun Hne.
  set (dst := joinpath dest_root (name src_dir)).
  assert (Hdone : a = Skip ∨ (w_fs w !! src_dir = Some Dir
                              ∧ relative_to src_dir dst = None
                              ∧ outside_kept dst (w_fs w) (w_fs w'))).
  { apply copy_skill_Ret in Hrun as
      [(-> & _)|[(_ & _ & Hcp)|(_ & _ & fs1 & Hrm & Hcp)]]; [by left|right..].
    - fold dst in Hcp.
      pose proof (copytree_Some_inv _ _ _ _ Hcp) as (Hs & _ & Hr).
      split; [done|]. split; [done|].
      apply (outside_copytree _ _ _ _ _ (mk_is_Some _ _ (relative_to_refl dst)) Hcp).
    - fold dst in Hrm, Hcp.
      pose proof (copytree_Some_inv _ _ _ _ Hcp) as (Hs & _ & Hr).
      rewrite (lookup_rmtree _ _ _ _ Hrm) in Hs.
      destruct (relative_to dst src_dir); [done|].
      split; [done|]. split; [done|].
      transitivity fs1.
      + apply (outside_rmtree _ _ _ _ (mk_is_Some _ _ (relative_to_refl dst)) Hrm).
      + apply (outside_copytree _ _ _ _ _ (mk_is_Some _ _ (relative_to_refl dst)) Hcp). }
  destruct Hdone as [->|(Hsrc & Hrel & Hframe)].
  { apply copy_skill_Ret in Hrun as
      [(_ & _ & ->)|[(? & _)|(? & _)]]; done. }
  assert (Hn : name src_dir ≠ "").
  { destruct (decide (src_dir = [])) as [->|Hnil]; [by exfalso|].
    apply (named_name (w_fs w)); [by apply wf_named| |done].
    rewrite Hsrc. eauto. }
  unfold dst in *. rewrite (joinpath_snoc _ _ Hn) in *.
  set (k := joinpath dest_root n').
  assert (Hk : relative_to (dest_root ++ [name src_dir]) k = None).
  { apply relative_to_None. intros r Hr. unfold k, joinpath in Hr.
    case_decide.
    - rewrite <-(app_nil_r dest_root) in Hr at 1.
      rewrite <-(assoc_L (++)) in Hr. by apply app_inv_head in Hr.
    - rewrite <-(assoc_L (++)) in Hr. apply app_inv_head in Hr.
      by simplify_eq/=. }
  destruct (Hframe k Hk) as [Heq|(Hnone & _ & [r Hr])]; [done|exfalso].
  apply relative_to_Some in Hr. unfold k, joinpath in *. case_decide.
  - rewrite Hnone in Hroot. by destruct Hroot.
  - rewrite <-(assoc_L (++)) in Hr. apply app_inv_head in Hr.
    by simplify_eq/=.
Qed.

Lemma copy_loop_preview_follows args args' skills counts counts' w w' wp :
  dest args' = dest args → conflict args' = conflict args →
  dry_run args' = true → dry_run args = false →
  conflict args ≠ PAsk → "" ∉ dest args →
  NoDup (name <$> skills) →
  wf (w_fs w) → is_Some (w_fs w !! dest args) →
  (∀ s, s ∈ skills →
        exists_ (w_fs wp) (dest_of args s) = exists_ (w_fs w) (dest_of args s)) →
  w_out wp = w_out w →
  copy_loop args skills counts w = (Ret counts', w') →
  copy_loop args' skills counts wp
  = (Ret counts', World (w_fs wp) (w_in wp) (w_out w')).
Proof.
  intros Hdest Hconf Hdry Hreal Hp Hd. revert counts w wp.
  induction skills as [|s rest IH]; intros counts w wp Hnd Hwf Hroot Hsame Hout.
  { cbn. unfold ret. intros Heq. simplify_eq. rewrite <-Hout. by destruct wp. }
  rewrite !copy_loop_cons, Hdest, Hconf, Hdry, Hreal.
  destruct (copy_skill _ _ _ false w) as [[a|e] w1] eqn:Hcs; [|done].
  intros Hrest. rewrite fmap_cons in Hnd. apply NoDup_cons in Hnd as [Hfirst Hnd].
  destruct (copy_skill_real_action _ _ _ _ _ _ wp Hp Hcs) as (-> & _ & Hout1).
  { apply Hsame. by left. }
  assert (Hwf1 : wf (w_fs w1)).
  { pose proof (preserves_wf_copy_skill s _ (conflict args) false Hd w Hwf) as H.
    by rewrite Hcs in H. }
  refine (IH _ (say w1 [Print (action_line a s (dest args))])
             (say wp [Print (action_line a s (dest args))]) Hnd Hwf1 _ _ _ Hrest).
  - simpl. by apply (copy_skill_root_stays _ _ _ _ _ _ Hcs).
  - intros s' Hs'. simpl. rewrite (Hsame s') by (by right).
    unfold exists_, dest_of.
    rewrite (copy_skill_other_entries _ _ _ _ _ _ (name s') Hwf Hroot Hcs); [done|].
    intros Heq. apply Hfirst. rewrite <-Heq. by apply list_elem_of_fmap_2.
  - simpl. by rewrite Hout, Hout1.
Qed.

(** X19. With a fixed policy, the preview of the copy loop predicts the
    real loop when no two skills share a name.  On a well-formed store
    whose destination root exists: when the real loop completes, the loop
    in preview mode started from the same world completes with the same
    tally and has written the same lines, leaving the store as it was. *)
Theorem preview_predicts_the_loop (args args' : Args) (skills : list path)
    (counts counts' : Counts) (w w' : world) :
  dest args' = dest args → conflict args' = conflict args →
  dry_run args' = true → dry_run args = false →
  conflict args ≠ PAsk → "" ∉ dest args →
  NoDup (name <$> skills) →
  wf (w_fs w) → is_Some (w_fs w !! dest args) →
  copy_loop args skills counts w = (Ret counts', w') →
  copy_loop args' skills counts w
  = (Ret counts', World (w_fs w) (w_in w) (w_out w')).
Proof.
  intros Hdest Hconf Hdry Hreal Hp Hd Hnd Hwf Hroot Hrun.
  by apply (copy_loop_preview_follows args args' skills counts counts' w w' w).
Qed.

Lemma preview_predicts_the_loop_witness :
  let w := World fs_conflict [] [] in
  let r := copy_loop args_overwrite [["s"; "a"]] no_counts w in
  copy_loop args_preview [["s"; "a"]] no_counts w
  = (Ret (bump Overwrite no_counts), World (w_fs w) (w_in w) (w_out r.2)).
Proof.
  intros w r.
  apply (preview_predicts_the_loop args_overwrite args_preview [["s"; "a"]]
           no_counts (bump Overwrite no_counts) w r.2).
  - reflexivity.
  - reflexivity.
  - reflexivity.
  - reflexivity.
  - vm_compute. discriminate.
  - vm_compute. intros Hin. apply list_elem_of_singleton in Hin. discriminate.
  - vm_compute. apply NoDup_singleton.
  - apply wfb_wf. vm_compute. reflexivity.
  - vm_compute. eauto.
  - vm_compute. reflexivity.
Defined.
